(** * An entity-component-system registry: model and verification

    Shallow embedding of [architecture.py].  A registry ([World]) owns
    the live entity ids and three indexing tables together with their
    inverse indices; an [Entity] handle is a pair of an id and a
    reference to its registry.  Python objects are mutable and shared,
    so registries live in a store and every method is a computation in
    a state-and-exception monad over that store.  An exception leaves
    the store as it was when the exception was raised: whatever was
    written before stays written. *)

From stdpp Require Import base gmap sets list strings.
From Stdlib Require Import ZArith Lia.

Local Open Scope Z_scope.
Set Warnings "-clear-no-such-hyp".

(** ** Data model *)

(** A component key is a pair [(name, type)]; the type is identified
    by its name. *)
Definition Component : Type := string * string.

(** [str | tuple[str, int]] *)
Inductive Tag :=
  | TagStr (s : string)
  | TagPair (s : string) (n : Z).

Global Instance Tag_eq_dec : EqDecision Tag.
Proof. solve_decision. Defined.

Global Instance Tag_countable : Countable Tag.
Proof.
  refine (inj_countable'
    (λ t, match t with TagStr s => inl s | TagPair s n => inr (s, n) end)
    (λ x, match x with inl s => TagStr s | inr (s, n) => TagPair s n end) _).
  by intros [].
Defined.

(** Component payloads are opaque to the registry. *)
Inductive Value :=
  | VInt (z : Z)
  | VStr (s : string)
  | VNone.

(** The fields of [World.__init__].  The three [defaultdict]s are
    finite maps; the creation of a missing entry on access is written
    out in [dd_components], [dd_tags] and [dd_relations] below. *)
Record World := mkWorld {
  entities : gset Z;
  components : gmap Component (gmap Z Value);
  tags : gmap Tag (gset Z);
  relations : gmap string (gmap Z (gset Z));
  eid_comps : gmap Z (gset Component);
  eid_tags : gmap Z (gset Tag);
  eid_rels : gmap Z (gmap string Z);
  next_id : Z
}.

(** [World()] *)
Definition World_init : World :=
  mkWorld ∅ ∅ ∅ ∅ ∅ ∅ ∅ 0.

Definition with_entities (f : gset Z → gset Z) (w : World) : World :=
  mkWorld (f (entities w)) (components w) (tags w) (relations w)
          (eid_comps w) (eid_tags w) (eid_rels w) (next_id w).
Definition with_components
    (f : gmap Component (gmap Z Value) → gmap Component (gmap Z Value))
    (w : World) : World :=
  mkWorld (entities w) (f (components w)) (tags w) (relations w)
          (eid_comps w) (eid_tags w) (eid_rels w) (next_id w).
Definition with_tags (f : gmap Tag (gset Z) → gmap Tag (gset Z))
    (w : World) : World :=
  mkWorld (entities w) (components w) (f (tags w)) (relations w)
          (eid_comps w) (eid_tags w) (eid_rels w) (next_id w).
Definition with_relations
    (f : gmap string (gmap Z (gset Z)) → gmap string (gmap Z (gset Z)))
    (w : World) : World :=
  mkWorld (entities w) (components w) (tags w) (f (relations w))
          (eid_comps w) (eid_tags w) (eid_rels w) (next_id w).
Definition with_eid_comps
    (f : gmap Z (gset Component) → gmap Z (gset Component))
    (w : World) : World :=
  mkWorld (entities w) (components w) (tags w) (relations w)
          (f (eid_comps w)) (eid_tags w) (eid_rels w) (next_id w).
Definition with_eid_tags (f : gmap Z (gset Tag) → gmap Z (gset Tag))
    (w : World) : World :=
  mkWorld (entities w) (components w) (tags w) (relations w)
          (eid_comps w) (f (eid_tags w)) (eid_rels w) (next_id w).
Definition with_eid_rels
    (f : gmap Z (gmap string Z) → gmap Z (gmap string Z))
    (w : World) : World :=
  mkWorld (entities w) (components w) (tags w) (relations w)
          (eid_comps w) (eid_tags w) (f (eid_rels w)) (next_id w).
Definition with_next_id (f : Z → Z) (w : World) : World :=
  mkWorld (entities w) (components w) (tags w) (relations w)
          (eid_comps w) (eid_tags w) (eid_rels w) (f (next_id w)).

(** ** The store *)

(** References to registries. *)
Definition loc : Type := nat.

(** [heap] holds the registries that have been written to; a reference
    never written to denotes a registry as [World()] returns it.
    [ambient] is the binding of the module-level name [world], which
    [relate], [unrelate] and [delete_entity] read; the module itself
    never assigns it, so it is a parameter of the state ([None]: the
    name is unbound). *)
Record Store := mkStore {
  heap : gmap loc World;
  ambient : option loc
}.

Definition world_at (s : Store) (l : loc) : World :=
  default World_init (heap s !! l).

Definition set_world (l : loc) (w : World) (s : Store) : Store :=
  mkStore (<[l := w]> (heap s)) (ambient s).

(** [Entity]: the id and the registry reference. *)
Record Entity := mkEntity {
  eid : Z;
  world : loc
}.

(** ** The monad *)

Inductive exn := NameError | KeyError | TypeError | AttributeError.

Inductive outcome (A : Type) :=
  | Ret (a : A)
  | Raise (e : exn).
Arguments Ret {A} a.
Arguments Raise {A} e.

Definition M (A : Type) : Type := Store → outcome A * Store.

Definition ret {A} (a : A) : M A := λ s, (Ret a, s).

Definition raise {A} (e : exn) : M A := λ s, (Raise e, s).

Definition bind {A B} (m : M A) (k : A → M B) : M B :=
  λ s, match m s with
       | (Ret a, s') => k a s'
       | (Raise e, s') => (Raise e, s')
       end.

Notation "'let!' x ':=' m 'in' k" := (bind m (λ x, k))
  (at level 10, x name, m at level 100, k at level 200).

(** Reading a registry through a reference, and mutating it in place. *)
Definition read (l : loc) : M World := λ s, (Ret (world_at s l), s).

Definition modify (l : loc) (f : World → World) : M unit :=
  λ s, (Ret tt, set_world l (f (world_at s l)) s).

(** Evaluating the global name [world]. *)
Definition global_world : M loc :=
  λ s, match ambient s with
       | Some l => (Ret l, s)
       | None => (Raise NameError, s)
       end.

(** [d[k]] on a [dict], given the result of the lookup. *)
Definition getitem {A} (o : option A) : M A :=
  match o with
  | Some a => ret a
  | None => raise KeyError
  end.

(** [s.remove(x)] on a [set]: the set without [x], or [KeyError]. *)
Definition set_remove `{Countable K} (x : K) (s : gset K) : M (gset K) :=
  if decide (x ∈ s) then ret (s ∖ {[x]}) else raise KeyError.

Fixpoint for_each {A} (xs : list A) (body : A → M unit) : M unit :=
  match xs with
  | [] => ret tt
  | x :: xs' => let! _ := body x in for_each xs' body
  end.

(** A list comprehension with an effectful element expression. *)
Fixpoint comprehension {A B} (f : A → M B) (xs : list A) : M (list B) :=
  match xs with
  | [] => ret []
  | x :: xs' =>
      let! y := f x in
      let! ys := comprehension f xs' in
      ret (y :: ys)
  end.

(** ** Access to the [defaultdict] tables

    [d[k]] on a [defaultdict] stores the default under [k] when [k] is
    missing, and returns the entry. *)

Definition dd_components (l : loc) (c : Component) : M (gmap Z Value) :=
  let! w := read l in
  match components w !! c with
  | Some d => ret d
  | None =>
      let! _ := modify l (with_components (insert c ∅)) in
      ret ∅
  end.

Definition dd_tags (l : loc) (t : Tag) : M (gset Z) :=
  let! w := read l in
  match tags w !! t with
  | Some b => ret b
  | None =>
      let! _ := modify l (with_tags (insert t ∅)) in
      ret ∅
  end.

Definition dd_relations (l : loc) (r : string) : M (gmap Z (gset Z)) :=
  let! w := read l in
  match relations w !! r with
  | Some d => ret d
  | None =>
      let! _ := modify l (with_relations (insert r ∅)) in
      ret ∅
  end.

(** ** [class Entity] *)

(** [Entity.__init__] *)
Definition Entity_init (eid : Z) (world : loc) : M Entity :=
  let! w := read world in
  if decide (eid ∈ entities w) then ret (mkEntity eid world)
  else raise NameError.

(** [Entity.__getattr__].  The three attributes have three types, so
    each branch is a definition of its own; [Entity_getattr] is the
    dispatch on the attribute name. *)
Definition getattr_components (self : Entity) : M (gset Component) :=
  let! w := read (world self) in getitem (eid_comps w !! eid self).

Definition getattr_tags (self : Entity) : M (gset Tag) :=
  let! w := read (world self) in getitem (eid_tags w !! eid self).

Definition getattr_relations (self : Entity) : M (gmap string Z) :=
  let! w := read (world self) in getitem (eid_rels w !! eid self).

Inductive attr_value :=
  | AttrComponents (cs : gset Component)
  | AttrTags (ts : gset Tag)
  | AttrRelations (rs : gmap string Z).

Definition Entity_getattr (self : Entity) (attr : string) : M attr_value :=
  if decide (attr = "components"%string) then
    let! cs := getattr_components self in ret (AttrComponents cs)
  else if decide (attr = "tags"%string) then
    let! ts := getattr_tags self in ret (AttrTags ts)
  else if decide (attr = "relations"%string) then
    let! rs := getattr_relations self in ret (AttrRelations rs)
  else raise AttributeError.

(** [Entity.__getitem__] *)
Definition Entity_getitem (self : Entity) (component : Component)
    : M Value :=
  let! d := dd_components (world self) component in
  getitem (d !! eid self).

(** [Entity.__setitem__] *)
Definition Entity_setitem (self : Entity) (component : Component)
    (value : Value) : M unit :=
  let! cs := getattr_components self in
  let! _ := modify (world self)
              (with_eid_comps (insert (eid self) (cs ∪ {[component]}))) in
  let! d := dd_components (world self) component in
  modify (world self)
    (with_components (insert component (<[eid self := value]> d))).

(** [Entity.__delitem__] *)
Definition Entity_delitem (self : Entity) (component : Component)
    : M unit :=
  let! d := dd_components (world self) component in
  let! _ := getitem (d !! eid self) in
  let! _ := modify (world self)
              (with_components (insert component (delete (eid self) d))) in
  let! cs := getattr_components self in
  let! cs' := set_remove component cs in
  modify (world self) (with_eid_comps (insert (eid self) cs')).

(** [Entity.__len__] *)
Definition Entity_len (self : Entity) : M nat :=
  let! cs := getattr_components self in ret (size cs).

(** [Entity.__iter__]: the component keys the generator yields. *)
Definition Entity_iter (self : Entity) : M (list Component) :=
  let! comps := getattr_components self in ret (elements comps).

(** [Entity.tag] *)
Definition tag (self : Entity) (tag : Tag) : M unit :=
  let! ts := getattr_tags self in
  if decide (tag ∈ ts) then ret tt
  else
    let! ts := getattr_tags self in
    let! _ := modify (world self)
                (with_eid_tags (insert (eid self) (ts ∪ {[tag]}))) in
    let! b := dd_tags (world self) tag in
    modify (world self) (with_tags (insert tag (b ∪ {[eid self]}))).

(** [Entity.untag] *)
Definition untag (self : Entity) (tag : Tag) : M unit :=
  let! ts := getattr_tags self in
  if decide (tag ∈ ts) then
    let! ts := getattr_tags self in
    let! ts' := set_remove tag ts in
    let! _ := modify (world self)
                (with_eid_tags (insert (eid self) ts')) in
    let! tag_eids := dd_tags (world self) tag in
    let! tag_eids' := set_remove (eid self) tag_eids in
    let! _ := modify (world self) (with_tags (insert tag tag_eids')) in
    if decide (tag_eids' = ∅) then
      let! w := read (world self) in
      let! _ := getitem (tags w !! tag) in
      modify (world self) (with_tags (delete tag))
    else ret tt
  else ret tt.

(** [Entity.relate].  The liveness test reads the global name [world];
    everything else goes through [self.world]. *)
Definition relate (self : Entity) (relation : string) (other_id : Z)
    : M unit :=
  (* line 59 *)
  let! g := global_world in
  let! gw := read g in
  if decide (other_id ∈ entities gw) then
    (* line 61 *)
    let! _ := dd_relations (world self) relation in
    (* lines 62-63 *)
    let! rs := getattr_relations self in
    let! _ :=
      match rs !! relation with
      | Some old =>
          let! d := dd_relations (world self) relation in
          let! srcs := getitem (d !! old) in
          let! srcs' := set_remove (eid self) srcs in
          modify (world self)
            (with_relations (insert relation (<[old := srcs']> d)))
      | None => ret tt
      end in
    (* line 64 *)
    let! rs := getattr_relations self in
    let! _ := modify (world self)
                (with_eid_rels
                   (insert (eid self) (<[relation := other_id]> rs))) in
    (* lines 65-66 *)
    let! d := dd_relations (world self) relation in
    let! _ :=
      match d !! other_id with
      | Some _ => ret tt
      | None =>
          modify (world self)
            (with_relations (insert relation (<[other_id := ∅]> d)))
      end in
    (* line 67 *)
    let! d := dd_relations (world self) relation in
    let! srcs := getitem (d !! other_id) in
    modify (world self)
      (with_relations
         (insert relation (<[other_id := srcs ∪ {[eid self]}]> d)))
  else raise NameError.

(** [Entity.unrelate].  The liveness test reads the global name
    [world], as in [relate]. *)
Definition unrelate (self : Entity) (relation : string) (other_id : Z)
    : M unit :=
  (* line 71 *)
  let! g := global_world in
  let! gw := read g in
  if decide (other_id ∈ entities gw) then
    (* line 73 *)
    let! d := dd_relations (world self) relation in
    let! related := getitem (d !! other_id) in
    (* line 74 *)
    let! rs := getattr_relations self in
    let! _ := getitem (rs !! relation) in
    let! _ := modify (world self)
                (with_eid_rels (insert (eid self) (delete relation rs))) in
    (* line 75 *)
    let! related' := set_remove (eid self) related in
    let! _ := modify (world self)
                (with_relations
                   (insert relation (<[other_id := related']> d))) in
    (* lines 76-77 *)
    if decide (related' = ∅) then
      let! d := dd_relations (world self) relation in
      let! _ := getitem (d !! other_id) in
      modify (world self)
        (with_relations (insert relation (delete other_id d)))
    else ret tt
  else raise NameError.

(** ** [class World] *)

(** [World.create_entity] *)
Definition create_entity (self : loc) : M Entity :=
  let! w := read self in
  let eid := next_id w in
  let! _ := modify self (with_next_id (λ n, n + 1)) in
  let! _ := modify self (with_entities (λ s, s ∪ {[eid]})) in
  let! _ := modify self (with_eid_comps (insert eid ∅)) in
  let! _ := modify self (with_eid_tags (insert eid ∅)) in
  let! _ := modify self (with_eid_rels (insert eid ∅)) in
  Entity_init eid self.

(** [del d[k]] on the three per-entity dictionaries. *)
Definition del_eid_comps (l : loc) (eid : Z) : M unit :=
  let! w := read l in
  let! _ := getitem (eid_comps w !! eid) in
  modify l (with_eid_comps (delete eid)).

Definition del_eid_tags (l : loc) (eid : Z) : M unit :=
  let! w := read l in
  let! _ := getitem (eid_tags w !! eid) in
  modify l (with_eid_tags (delete eid)).

Definition del_eid_rels (l : loc) (eid : Z) : M unit :=
  let! w := read l in
  let! _ := getitem (eid_rels w !! eid) in
  modify l (with_eid_rels (delete eid)).

(** The keys of a dictionary, as the [for] loops below visit them.
    Python visits a [dict] in insertion order and a [set] in hash
    order; the model visits both in the canonical order of the finite
    map.  The lemmas about the loops of [delete_entity] are proved for
    every duplicate-free enumeration of the keys or elements: they do
    not depend on the order. *)
Definition keys {V} (m : gmap string V) : list string :=
  (map_to_list m).*1.

(** The loop over [list(entity.relations)]. *)
Definition detach_outgoing (entity : Entity) (rel : string) : M unit :=
  let! rs := getattr_relations entity in
  let! target := getitem (rs !! rel) in
  unrelate entity rel target.

(** The body of the inner loop over the sources that point at [eid].
    The child handle is bound to the global [world]. *)
Definition detach_incoming (relation : string) (eid cid : Z) : M unit :=
  let! g := global_world in
  let! child := Entity_init cid g in
  unrelate child relation eid.

(** The body of the loop over [self.relations]. *)
Definition detach_relation (self : loc) (eid : Z) (relation : string)
    : M unit :=
  let! d := dd_relations self relation in
  for_each (elements (default ∅ (d !! eid)))
           (detach_incoming relation eid).

(** [World.delete_entity] *)
Definition delete_entity (self : loc) (eid : Z) : M unit :=
  (* line 105 *)
  let! entity := Entity_init eid self in
  (* lines 106-107 *)
  let! cs := getattr_components entity in
  let! _ := for_each (elements cs) (Entity_delitem entity) in
  (* lines 108-109 *)
  let! ts := getattr_tags entity in
  let! _ := for_each (elements ts) (untag entity) in
  (* lines 110-111 *)
  let! rs := getattr_relations entity in
  let! _ := for_each (keys rs) (detach_outgoing entity) in
  (* lines 112-114 *)
  let! _ := del_eid_comps self eid in
  let! _ := del_eid_tags self eid in
  let! _ := del_eid_rels self eid in
  (* lines 115-118 *)
  let! w := read self in
  let! _ := for_each (keys (relations w)) (detach_relation self eid) in
  (* line 119 *)
  let! w := read self in
  let! ents := set_remove eid (entities w) in
  modify self (with_entities (λ _, ents)).

(** [list.sort(key=len)]: a stable sort by cardinality. *)
Fixpoint insert_by_len (x : gset Z) (l : list (gset Z)) : list (gset Z) :=
  match l with
  | [] => [x]
  | y :: l' =>
      if decide (size x ≤ size y)%nat then x :: y :: l'
      else y :: insert_by_len x l'
  end.

Definition sort_by_len (l : list (gset Z)) : list (gset Z) :=
  foldr insert_by_len [] l.

(** [set.intersection] applied to an unpacked list of sets: the
    unbound method needs a first argument. *)
Definition set_intersection (args : list (gset Z)) : M (gset Z) :=
  match args with
  | [] => raise TypeError
  | x :: rest => ret (foldl (∩) x rest)
  end.

(** The guarded form, [... if sets else set()]. *)
Definition intersection_or_empty (sets : list (gset Z)) : M (gset Z) :=
  match sets with
  | [] => ret ∅
  | _ :: _ => set_intersection sets
  end.

(** [World.query] *)
Definition query (self : loc) (comps : list Component) (tags : list Tag)
    (rels : list (string * Z)) : M (gset Z) :=
  (* lines 128-130 *)
  let! comp_sets :=
    comprehension (λ comp, let! d := dd_components self comp in
                           ret (dom d)) comps in
  let! tag_sets := comprehension (dd_tags self) tags in
  let! rel_sets :=
    comprehension (λ rel, let! d := dd_relations self rel.1 in
                          ret (default ∅ (d !! rel.2))) rels in
  (* lines 131-133 *)
  let comp_sets := sort_by_len comp_sets in
  let tag_sets := sort_by_len tag_sets in
  let rel_sets := sort_by_len rel_sets in
  (* lines 134-136 *)
  let! comp_set := intersection_or_empty comp_sets in
  let! tag_set := intersection_or_empty tag_sets in
  let! rel_set := intersection_or_empty rel_sets in
  (* lines 137-144 *)
  let queried_sets :=
    (match comps with [] => [] | _ :: _ => [comp_set] end) ++
    (match tags with [] => [] | _ :: _ => [tag_set] end) ++
    (match rels with [] => [] | _ :: _ => [rel_set] end) in
  set_intersection queried_sets.

(** ** Sequences of public operations

    A caller drives the registry through its public surface and may
    catch an exception and go on; [exec] keeps the store an operation
    leaves behind, whatever its outcome. *)
Inductive op :=
  | OpCreate (w : loc)
  | OpDelete (w : loc) (eid : Z)
  | OpHandle (w : loc) (eid : Z)
  | OpGet (e : Entity) (c : Component)
  | OpSet (e : Entity) (c : Component) (v : Value)
  | OpDel (e : Entity) (c : Component)
  | OpLen (e : Entity)
  | OpTag (e : Entity) (t : Tag)
  | OpUntag (e : Entity) (t : Tag)
  | OpRelate (e : Entity) (r : string) (target : Z)
  | OpUnrelate (e : Entity) (r : string) (target : Z)
  | OpQuery (w : loc) (comps : list Component) (tags : list Tag)
            (rels : list (string * Z)).

(** The call an operation stands for, its result dropped. *)
Definition call (o : op) : M unit :=
  match o with
  | OpCreate w => let! _ := create_entity w in ret tt
  | OpDelete w eid => delete_entity w eid
  | OpHandle w eid => let! _ := Entity_init eid w in ret tt
  | OpGet e c => let! _ := Entity_getitem e c in ret tt
  | OpSet e c v => Entity_setitem e c v
  | OpDel e c => Entity_delitem e c
  | OpLen e => let! _ := Entity_len e in ret tt
  | OpTag e t => tag e t
  | OpUntag e t => untag e t
  | OpRelate e r x => relate e r x
  | OpUnrelate e r x => unrelate e r x
  | OpQuery w cs ts rs => let! _ := query w cs ts rs in ret tt
  end.

(** Runs [m] and goes on from the store it leaves, as a caller that
    catches the exception does. *)
Definition attempt {A} (m : M A) : M unit := λ s, (Ret tt, (m s).2).

Definition perform (o : op) : M unit := attempt (call o).

Definition exec (o : op) (s : Store) : Store := (perform o s).2.

(** The operation returns normally. *)
Definition succeeds (o : op) (s : Store) : Prop := (call o s).1 = Ret tt.

(** The registry an operation is called on, directly or through a
    handle. *)
Definition registry_of (o : op) : loc :=
  match o with
  | OpCreate w | OpDelete w _ | OpHandle w _ | OpQuery w _ _ _ => w
  | OpGet e _ | OpSet e _ _ | OpDel e _ | OpLen e | OpTag e _
  | OpUntag e _ | OpRelate e _ _ | OpUnrelate e _ _ => world e
  end.

Definition exec_all (ops : list op) (s : Store) : Store :=
  foldl (λ s o, exec o s) s ops.

(** A store with no registry written yet, [world] bound to [g]. *)
Definition fresh_store (g : option loc) : Store := mkStore ∅ g.

(** ** Views of the tables

    What the specification calls "the entity-id set of a component
    key", "the entity-id set of a tag" and "the source set of
    relations[name][target]", with a missing entry read as empty. *)
Definition component_holders (w : World) (c : Component) : gset Z :=
  dom (default ∅ (components w !! c)).

Definition tag_holders (w : World) (t : Tag) : gset Z :=
  default ∅ (tags w !! t).

Definition sources (w : World) (r : string) (target : Z) : gset Z :=
  default ∅ (default ∅ (relations w !! r) !! target).

(** The entity's current target for a relation name. *)
Definition current_target (w : World) (e : Z) (r : string) : option Z :=
  default ∅ (eid_rels w !! e) !! r.

(** The per-entity records, with a missing record read as empty. *)
Definition components_of (w : World) (e : Z) : gset Component :=
  default ∅ (eid_comps w !! e).

Definition tags_of (w : World) (e : Z) : gset Tag :=
  default ∅ (eid_tags w !! e).

(** Two registries that read the same: the same live set, counter and
    registered ids, and the same facets through the views.  They differ
    at most in table entries that hold nothing. *)
Definition base_eq (w w' : World) : Prop :=
  entities w' = entities w ∧ next_id w' = next_id w ∧
  dom (eid_comps w') = dom (eid_comps w) ∧
  dom (eid_tags w') = dom (eid_tags w) ∧
  dom (eid_rels w') = dom (eid_rels w).

Definition comp_eq (w w' : World) : Prop :=
  (∀ e, components_of w' e = components_of w e) ∧
  (∀ c, component_holders w' c = component_holders w c).

Definition tag_eq (w w' : World) : Prop :=
  (∀ e, tags_of w' e = tags_of w e) ∧
  (∀ t, tag_holders w' t = tag_holders w t).

Definition rel_eq (w w' : World) : Prop :=
  (∀ e r, current_target w' e r = current_target w e r) ∧
  (∀ r x, sources w' r x = sources w r x).

Definition same_views (w w' : World) : Prop :=
  base_eq w w' ∧ comp_eq w w' ∧ tag_eq w w' ∧ rel_eq w w'.

(** A store step that writes the registry [l] only. *)
Definition only_changes (l : loc) (s s' : Store) : Prop :=
  ambient s' = ambient s ∧ ∀ l', l' ≠ l → world_at s' l' = world_at s l'.

(** ** The invariants of the registry

    Section 3 of the specification, over the tables.  They are stated
    with [map_Forall] and [set_Forall], hence decidable: on a concrete
    registry they are checked by evaluation. *)

(** Invariant 6: every live id was handed out by the counter, so the
    next id is not in use. *)
Definition ids_fresh (w : World) : Prop :=
  set_Forall (λ e, e < next_id w) (entities w).

(** Lifecycle: live ids are below the counter, and exactly the live ids
    have per-entity records. *)
Definition facets_registered (w : World) : Prop :=
  ids_fresh w ∧
  dom (eid_comps w) = entities w ∧
  dom (eid_tags w) = entities w ∧
  dom (eid_rels w) = entities w.

(** Invariant 1: id in components[key] iff key in the entity's
    component set. *)
Definition inv_components (w : World) : Prop :=
  map_Forall (λ e cs, set_Forall (λ c, e ∈ component_holders w c) cs)
             (eid_comps w) ∧
  map_Forall (λ c d, map_Forall (λ e (_ : Value), c ∈ components_of w e) d)
             (components w).

(** Invariant 2: id in tags[t] iff t in the entity's tag set. *)
Definition inv_tags (w : World) : Prop :=
  map_Forall (λ e ts, set_Forall (λ t, e ∈ tag_holders w t) ts)
             (eid_tags w) ∧
  map_Forall (λ t b, set_Forall (λ e, t ∈ tags_of w e) b) (tags w).

(** Invariant 3: the entity's current target for r is x iff the id is
    in relations[r][x]. *)
Definition inv_relations (w : World) : Prop :=
  map_Forall (λ e rs, map_Forall (λ r x, e ∈ sources w r x) rs)
             (eid_rels w) ∧
  map_Forall (λ r d,
     map_Forall (λ x srcs,
        set_Forall (λ e, current_target w e r = Some x) srcs) d)
     (relations w).

(** Every current target is a live entity. *)
Definition targets_live (w : World) : Prop :=
  map_Forall (λ (_ : Z) rs, map_Forall (λ (_ : string) x, x ∈ entities w) rs)
             (eid_rels w).

Definition wf (w : World) : Prop :=
  facets_registered w ∧ inv_components w ∧ inv_tags w ∧
  inv_relations w ∧ targets_live w.

Global Instance wf_dec w : Decision (wf w).
Proof.
  unfold wf, facets_registered, ids_fresh, inv_components, inv_tags,
    inv_relations, targets_live.
  apply _.
Defined.

(** The same invariants, read through the views. *)
Definition inv_c (w : World) : Prop :=
  ∀ e c, c ∈ components_of w e ↔ e ∈ component_holders w c.

Definition inv_t (w : World) : Prop :=
  ∀ e t, t ∈ tags_of w e ↔ e ∈ tag_holders w t.

Definition inv_r (w : World) : Prop :=
  ∀ e r x, current_target w e r = Some x ↔ e ∈ sources w r x.

Definition live_r (w : World) : Prop :=
  ∀ e r x, current_target w e r = Some x → x ∈ entities w.

(** What a successful [relate] of [e] to [x] under [r] changes, through
    the views: the current target of [e] for [r] is [x]; [e] is in the
    source set of [x] and out of the source set of its former target;
    nothing else changes. *)
Definition relate_post (e : Z) (r : string) (x : Z) (w w' : World) : Prop :=
  base_eq w w' ∧ comp_eq w w' ∧ tag_eq w w' ∧
  (∀ e' r', current_target w' e' r' =
            if decide (e' = e ∧ r' = r) then Some x
            else current_target w e' r') ∧
  (∀ r' y, sources w' r' y =
           if decide (r' = r) then
             if decide (y = x) then sources w r y ∪ {[e]}
             else if decide (current_target w e r = Some y)
                  then sources w r y ∖ {[e]}
                  else sources w r y
           else sources w r' y).

(** What a successful [unrelate] changes: the entity has no current
    target for the name any more and is out of the source set of the
    target; nothing else changes. *)
Definition unrelate_post (e : Z) (r : string) (x : Z) (w w' : World) : Prop :=
  base_eq w w' ∧ comp_eq w w' ∧ tag_eq w w' ∧
  (∀ e' r', current_target w' e' r' =
            if decide (e' = e ∧ r' = r) then None
            else current_target w e' r') ∧
  (∀ r' y, sources w' r' y =
           if decide (r' = r ∧ y = x) then sources w r x ∖ {[e]}
           else sources w r' y).

(** What a successful [del entity[c]] changes. *)
Definition delitem_post (e : Z) (c : Component) (w w' : World) : Prop :=
  base_eq w w' ∧ tag_eq w w' ∧ rel_eq w w' ∧
  (∀ e', components_of w' e' =
         if decide (e' = e) then components_of w e ∖ {[c]}
         else components_of w e') ∧
  (∀ c', component_holders w' c' =
         if decide (c' = c) then component_holders w c ∖ {[e]}
         else component_holders w c').

(** What a successful [untag] of a tag the entity has changes. *)
Definition untag_post (e : Z) (t : Tag) (w w' : World) : Prop :=
  base_eq w w' ∧ comp_eq w w' ∧ rel_eq w w' ∧
  (∀ e', tags_of w' e' =
         if decide (e' = e) then tags_of w e ∖ {[t]} else tags_of w e') ∧
  (∀ t', tag_holders w' t' =
         if decide (t' = t) then tag_holders w t ∖ {[e]}
         else tag_holders w t').

(** What a successful [entity[c] = v] changes. *)
Definition setitem_post (e : Z) (c : Component) (w w' : World) : Prop :=
  base_eq w w' ∧ tag_eq w w' ∧ rel_eq w w' ∧
  (∀ e', components_of w' e' =
         if decide (e' = e) then components_of w e ∪ {[c]}
         else components_of w e') ∧
  (∀ c', component_holders w' c' =
         if decide (c' = c) then component_holders w c ∪ {[e]}
         else component_holders w c').

(** What a successful [tag] with a tag the entity has not changes. *)
Definition tag_post (e : Z) (t : Tag) (w w' : World) : Prop :=
  base_eq w w' ∧ comp_eq w w' ∧ rel_eq w w' ∧
  (∀ e', tags_of w' e' =
         if decide (e' = e) then tags_of w e ∪ {[t]} else tags_of w e') ∧
  (∀ t', tag_holders w' t' =
         if decide (t' = t) then tag_holders w t ∪ {[e]}
         else tag_holders w t').

(** The four consistency invariants together. *)
Definition inv_views (w : World) : Prop :=
  inv_c w ∧ inv_t w ∧ inv_r w ∧ live_r w.

(** In the course of a deletion the registry only loses facets: the
    live set is as it was and every current target is one it had. *)
Definition shrinks (w w' : World) : Prop :=
  entities w' = entities w ∧
  ∀ e r y, current_target w' e r = Some y → current_target w e r = Some y.

(** The registry in the middle of [delete_entity], between the removal
    of the per-entity records of [e] and the removal of [e] from the
    live set: [e] is live and has no record, every other live id has
    its records, and the tables are consistent. *)
Definition detached (e : Z) (w : World) : Prop :=
  e ∈ entities w ∧ ids_fresh w ∧
  dom (eid_comps w) = entities w ∖ {[e]} ∧
  dom (eid_tags w) = entities w ∖ {[e]} ∧
  dom (eid_rels w) = entities w ∖ {[e]} ∧
  inv_views w.

(** A run in which every [unrelate] returns normally. *)
Fixpoint unrelates_succeed (ops : list op) (s : Store) : Prop :=
  match ops with
  | [] => True
  | o :: ops' =>
      (∀ e r x, o = OpUnrelate e r x → succeeds o s) ∧
      unrelates_succeed ops' (exec o s)
  end.

(** A registry [l] of a store is in order when it satisfies the
    invariants and is the registry the global name [world] denotes. *)
Definition in_order (s : Store) (l : loc) : Prop :=
  ambient s = Some l ∧ wf (world_at s l).

Global Instance in_order_dec s l : Decision (in_order s l).
Proof. unfold in_order. apply _. Defined.

(** ** Concrete scenarios

    Stores reached from an empty store by public operations; the
    examples and counterexamples below evaluate the code on them. *)

(** Registry [0] is the one bound to [world]; registry [1] is a
    second registry. *)
Definition W0 : loc := 0%nat.
Definition W1 : loc := 1%nat.

(** One registry with four entities, no facets. *)
Definition four_entities : Store :=
  exec_all [OpCreate W0; OpCreate W0; OpCreate W0; OpCreate W0]
           (fresh_store (Some W0)).

(** The query example of the specification: entities 1 and 2 hold
    [("hp", int)], entities 2 and 3 hold the tag ["enemy"]. *)
Definition hp : Component := ("hp"%string, "int"%string).
Definition enemy : Tag := TagStr "enemy".

Definition hp_enemy_store : Store :=
  exec_all [OpSet (mkEntity 1 W0) hp (VInt 10);
            OpSet (mkEntity 2 W0) hp (VInt 5);
            OpTag (mkEntity 2 W0) enemy;
            OpTag (mkEntity 3 W0) enemy] four_entities.

(** Two registries: [world] is registry [0], which has no entity;
    registry [1] has the entities 0 and 1. *)
Definition target_only_in_own : Store :=
  exec_all [OpCreate W1; OpCreate W1] (fresh_store (Some W0)).

(** Two registries: registry [0] (bound to [world]) has the entities 0
    and 1, registry [1] has the entity 0 only. *)
Definition target_only_in_global : Store :=
  exec_all [OpCreate W0; OpCreate W0; OpCreate W1] (fresh_store (Some W0)).

(** As above, after entity 0 of registry [1] was related to the id 1. *)
Definition edge_to_foreign_target : Store :=
  exec (OpRelate (mkEntity 0 W1) "r" 1) target_only_in_global.

(** Both registries have the entities 0 and 1; in registry [1] entity
    0 is related to entity 1; then entity 1 of registry [0] is
    deleted. *)
Definition edge_after_global_delete : Store :=
  exec_all [OpCreate W0; OpCreate W0; OpCreate W1; OpCreate W1;
            OpRelate (mkEntity 0 W1) "r" 1; OpDelete W0 1]
           (fresh_store (Some W0)).

(** One registry with tags: entity 1 has ["enemy"] and [("team", 2)],
    entity 2 has ["enemy"]. *)
Definition tagged_store : Store :=
  exec_all [OpTag (mkEntity 1 W0) enemy;
            OpTag (mkEntity 1 W0) (TagPair "team" 2);
            OpTag (mkEntity 2 W0) enemy] four_entities.

(** One registry: 1 and 3 like 2, 2 likes 0 and is its own parent;
    2 also holds a component and a tag. *)
Definition likes_store : Store :=
  exec_all [OpSet (mkEntity 2 W0) hp (VInt 3);
            OpTag (mkEntity 2 W0) enemy;
            OpRelate (mkEntity 1 W0) "likes" 2;
            OpRelate (mkEntity 3 W0) "likes" 2;
            OpRelate (mkEntity 2 W0) "likes" 0;
            OpRelate (mkEntity 2 W0) "parent" 2] four_entities.

(** One registry: 0 --r--> 1 and 3 --r--> 2. *)
Definition two_edges : Store :=
  exec_all [OpRelate (mkEntity 0 W0) "r" 1;
            OpRelate (mkEntity 3 W0) "r" 2] four_entities.

(** ** Frame properties

    [preserves R m]: whatever [m] does and however it ends, every
    registry of the store it leaves is [R]-related to what it was. *)
Definition store_rel (R : World → World → Prop) (s s' : Store) : Prop :=
  ambient s' = ambient s ∧ ∀ l, R (world_at s l) (world_at s' l).

Definition preserves (R : World → World → Prop) {A} (m : M A) : Prop :=
  ∀ s, store_rel R s (m s).2.

Definition same_next_id (w w' : World) : Prop := next_id w' = next_id w.

(** Everything but the relation tables is as it was. *)
Definition same_but_relations (w w' : World) : Prop :=
  entities w' = entities w ∧ components w' = components w ∧
  tags w' = tags w ∧ eid_comps w' = eid_comps w ∧
  eid_tags w' = eid_tags w ∧ next_id w' = next_id w.

(** The number of [create_entity] calls on the registry [l]. *)
Fixpoint count_creates (l : loc) (ops : list op) : nat :=
  match ops with
  | [] => 0
  | OpCreate l' :: ops' =>
      if decide (l' = l) then S (count_creates l ops')
      else count_creates l ops'
  | _ :: ops' => count_creates l ops'
  end.

(** ** The value of a component slot

    What [entity[c]] reads: the value stored for the entity under the
    key, with a missing table read as empty. *)
Definition component_value (w : World) (c : Component) (e : Z)
    : option Value :=
  default ∅ (components w !! c) !! e.

(** The outcome of [d[k]], given the result of the lookup. *)
Definition lookup_outcome {A} (o : option A) : outcome A :=
  match o with
  | Some a => Ret a
  | None => Raise KeyError
  end.

(** ** Which registries a computation writes

    [confined L s s']: the store [s'] differs from [s] in registries
    of [L] only, and binds [world] as [s] does.  [writes_in g L m]:
    run from a store that binds [world] to [g], [m] writes registries
    of [L] only, however it ends. *)
Definition confined (L : loc → Prop) (s s' : Store) : Prop :=
  ambient s' = ambient s ∧ ∀ l, ¬ L l → world_at s' l = world_at s l.

Definition writes_in (g : option loc) (L : loc → Prop) {A} (m : M A)
    : Prop :=
  ∀ s, ambient s = g → confined L s (m s).2.

(** The registries [delete_entity] may write: its own, and the one
    bound to [world], to which line 117 binds the child handles. *)
Definition own_or_global (g : option loc) (self : loc) (l : loc) : Prop :=
  l = self ∨ g = Some l.

(** ** The live set and the counter

    [grows w w']: from [w] to [w'] the counter has not gone back, and
    every id that is live in [w'] was live in [w] or was handed out by
    the counter in between. *)
Definition grows (w w' : World) : Prop :=
  next_id w ≤ next_id w' ∧
  ∀ z, z ∈ entities w' → z ∈ entities w ∨ next_id w ≤ z < next_id w'.

(** ** A failed [unrelate]

    What an [unrelate] of [e] under [r] leaves when it raises after
    line 74: the current-target record of [e] for [r] is gone and
    nothing else has changed, the source sets included. *)
Definition unrecorded (e : Z) (r : string) (w w' : World) : Prop :=
  base_eq w w' ∧ comp_eq w w' ∧ tag_eq w w' ∧
  (∀ r' y, sources w' r' y = sources w r' y) ∧
  (∀ e' r', current_target w' e' r' =
            if decide (e' = e ∧ r' = r) then None
            else current_target w e' r').

(** The liveness test of lines 59 and 71 passes: [world] is bound, and
    the target is live in the registry it is bound to. *)
Definition accepted (s : Store) (x : Z) : Prop :=
  ∃ g, ambient s = Some g ∧ x ∈ entities (world_at s g).

(** The table [relations[r]] has a bucket for the target. *)
Definition has_bucket (w : World) (r : string) (x : Z) : Prop :=
  is_Some (default ∅ (relations w !! r) !! x).

(** ** What a deletion leaves of the other entities

    [spares e w w']: between [w] and [w'] no entity other than [e] has
    joined or left the live set, the counter is as it was, and every
    entity other than [e] has the components, with their values, and
    the tags it had; the source set of every target other than [e] has
    lost at most [e]. *)
Definition spares (e : Z) (w w' : World) : Prop :=
  (∀ e', e' ≠ e → e' ∈ entities w' ↔ e' ∈ entities w) ∧
  next_id w' = next_id w ∧
  (∀ c e', e' ≠ e → component_value w' c e' = component_value w c e') ∧
  (∀ e', e' ≠ e → components_of w' e' = components_of w e') ∧
  (∀ e', e' ≠ e → tags_of w' e' = tags_of w e') ∧
  (∀ r y, y ≠ e → sources w' r y ∖ {[e]} = sources w r y ∖ {[e]}).

(** ** What reading a [defaultdict] leaves behind

    [touched ks m m']: the table [m'] is the table [m] with an empty
    entry stored under every key of [ks] that [m] did not have. *)
Definition touched `{Countable K} {V} `{Empty V} (ks : list K)
    (m m' : gmap K V) : Prop :=
  ∀ k, m' !! k = match m !! k with
                 | Some v => Some v
                 | None => if decide (k ∈ ks) then Some ∅ else None
                 end.

(** What a query leaves of a registry: the three [defaultdict] tables
    touched at the keys it read, everything else as it was. *)
Definition query_post (comps : list Component) (tags_ : list Tag)
    (rels : list (string * Z)) (w w' : World) : Prop :=
  touched comps (components w) (components w') ∧
  touched tags_ (tags w) (tags w') ∧
  touched rels.*1 (relations w) (relations w') ∧
  entities w' = entities w ∧ eid_comps w' = eid_comps w ∧
  eid_tags w' = eid_tags w ∧ eid_rels w' = eid_rels w ∧
  next_id w' = next_id w.

(** Both registries have the entities 0 and 1 and the edge
    0 --r--> 1; [world] is registry [0]. *)
Definition twin_edges : Store :=
  exec_all [OpCreate W0; OpCreate W0; OpCreate W1; OpCreate W1;
            OpRelate (mkEntity 0 W0) "r" 1; OpRelate (mkEntity 0 W1) "r" 1]
           (fresh_store (Some W0)).

(** Both registries have the entities 0 and 1 and the edge
    0 --likes--> 1; [world] is registry [0]. *)
Definition twin_likes : Store :=
  exec_all [OpCreate W0; OpCreate W0; OpCreate W1; OpCreate W1;
            OpRelate (mkEntity 0 W0) "likes" 1;
            OpRelate (mkEntity 0 W1) "likes" 1]
           (fresh_store (Some W0)).

(** [world] is registry [0], which has no entity; registry [1] has
    the entities 0, 1 and 2. *)
Definition three_in_second : Store :=
  exec_all [OpCreate W1; OpCreate W1; OpCreate W1] (fresh_store (Some W0)).

(** One registry with the entities 0, 1 and 2, the name [world]
    unbound, as the module leaves it. *)
Definition three_unbound : Store :=
  exec_all [OpCreate W0; OpCreate W0; OpCreate W0] (fresh_store None).

(** [two_edges] after two calls that raise: entity 0 is asked to drop
    an edge to 2 that it does not have, then entity 1 is deleted. *)
Definition after_failed_delete : Store :=
  exec_all [OpUnrelate (mkEntity 0 W0) "r" 2; OpDelete W0 1] two_edges.

(** The per-entity records, with a missing record read as empty. *)
(** * Basic facts about the store and the monad *)

Lemma world_at_set_world l w s : world_at (set_world l w s) l = w.
Proof. unfold world_at, set_world; simpl. by rewrite lookup_insert_eq. Qed.

Lemma world_at_set_world_ne l l' w s :
  l ≠ l' → world_at (set_world l w s) l' = world_at s l'.
Proof.
  intros Hne. unfold world_at, set_world; simpl.
  by rewrite lookup_insert_ne.
Qed.

Lemma ambient_set_world l w s : ambient (set_world l w s) = ambient s.
Proof. reflexivity. Qed.

Lemma world_at_fresh g l : world_at (fresh_store g) l = World_init.
Proof. reflexivity. Qed.

Lemma set_world_set_world l w1 w2 s :
  set_world l w2 (set_world l w1 s) = set_world l w2 s.
Proof. unfold set_world; simpl. by rewrite insert_insert_eq. Qed.

Lemma bind_run {A B} (m : M A) (k : A → M B) s a s' :
  m s = (Ret a, s') → bind m k s = k a s'.
Proof. intros H. unfold bind. by rewrite H. Qed.

Lemma bind_raise {A B} (m : M A) (k : A → M B) s e s' :
  m s = (Raise e, s') → bind m k s = (Raise e, s').
Proof. intros H. unfold bind. by rewrite H. Qed.

Global Opaque world_at set_world.

(** ** Running straight-line code *)

Lemma run_bind_bind {A B C} (m : M A) (f : A → M B) (k : B → M C) s :
  bind (bind m f) k s = bind m (λ a, bind (f a) k) s.
Proof. unfold bind. by destruct (m s) as [[a|e] s1]. Qed.

Lemma run_bind_ret {A B} (a : A) (k : A → M B) s : bind (ret a) k s = k a s.
Proof. reflexivity. Qed.

Lemma run_bind_raise {A B} (e : exn) (k : A → M B) s :
  bind (raise e) k s = (Raise e, s).
Proof. reflexivity. Qed.

Lemma run_bind_read {B} l (k : World → M B) s :
  bind (read l) k s = k (world_at s l) s.
Proof. reflexivity. Qed.

Lemma run_bind_modify {B} l f (k : unit → M B) s :
  bind (modify l f) k s = k tt (set_world l (f (world_at s l)) s).
Proof. reflexivity. Qed.

Lemma run_bind_getitem {A B} (a : A) (k : A → M B) s :
  bind (getitem (Some a)) k s = k a s.
Proof. reflexivity. Qed.

Lemma run_bind_getitem_None {A B} (k : A → M B) s :
  bind (getitem None) k s = (Raise KeyError, s).
Proof. reflexivity. Qed.

Lemma run_bind_set_remove `{Countable K} {B} (x : K) (X : gset K)
    (k : gset K → M B) s :
  x ∈ X → bind (set_remove x X) k s = k (X ∖ {[x]}) s.
Proof. intros Hx. unfold set_remove. by rewrite decide_True. Qed.

Lemma run_bind_global {B} (k : loc → M B) s g :
  ambient s = Some g → bind global_world k s = k g s.
Proof. intros Hg. unfold bind, global_world. by rewrite Hg. Qed.

Lemma run_modify l f s :
  modify l f s = (Ret tt, set_world l (f (world_at s l)) s).
Proof. reflexivity. Qed.

Lemma run_ret {A} (a : A) s : ret a s = (Ret a, s).
Proof. reflexivity. Qed.

Lemma run_raise {A} (e : exn) s : @raise A e s = (Raise e, s).
Proof. reflexivity. Qed.

Lemma run_getitem {A} (a : A) s : getitem (Some a) s = (Ret a, s).
Proof. reflexivity. Qed.

(** Runs the code as far as it is determined; a lookup or a test that
    blocks is rewritten by hand, and [mrun] goes on. *)
Ltac mrun :=
  repeat first
    [ match goal with
      | |- context [bind (bind _ _) _ _] => rewrite run_bind_bind
      end
    | rewrite run_bind_ret
    | rewrite run_bind_raise
    | rewrite run_bind_read
    | rewrite run_bind_modify
    | rewrite run_bind_getitem
    | rewrite run_bind_getitem_None
    | rewrite run_bind_set_remove by done
    | erewrite run_bind_global by (rewrite ?ambient_set_world; eassumption)
    | rewrite run_modify
    | rewrite run_ret
    | rewrite run_raise
    | rewrite run_getitem
    | rewrite world_at_set_world
    | rewrite set_world_set_world
    | rewrite ambient_set_world
    | progress cbn [entities components tags relations eid_comps eid_tags
                    eid_rels next_id with_entities with_components with_tags
                    with_relations with_eid_comps with_eid_tags with_eid_rels
                    with_next_id eid world] ].

(** Closed statements about the scenarios are settled by evaluation. *)
Ltac by_evaluation :=
  first [ apply (bool_decide_unpack _); vm_compute; exact I
        | vm_compute; reflexivity ].

(** * Frame rules

    No operation rebinds the global name [world]; what an operation
    leaves alone in the registries is proved by walking its code. *)

Section Frame.
Variable R : World → World → Prop.
Hypothesis R_refl : ∀ w, R w w.
Hypothesis R_trans : ∀ a b c, R a b → R b c → R a c.

Lemma store_rel_refl s : store_rel R s s.
Proof. split; [done | intros l; apply R_refl]. Qed.

Lemma preserves_ret {A} (a : A) : preserves R (ret a).
Proof. intros s. apply store_rel_refl. Qed.

Lemma preserves_raise {A} (e : exn) : preserves R (@raise A e).
Proof. intros s. apply store_rel_refl. Qed.

Lemma preserves_read l : preserves R (read l).
Proof. intros s. apply store_rel_refl. Qed.

Lemma preserves_global_world : preserves R global_world.
Proof.
  intros s. unfold global_world. destruct (ambient s); apply store_rel_refl.
Qed.

Lemma preserves_getitem {A} (o : option A) : preserves R (getitem o).
Proof. destruct o; [apply preserves_ret | apply preserves_raise]. Qed.

Lemma preserves_set_remove `{Countable K} (x : K) (X : gset K) :
  preserves R (set_remove x X).
Proof.
  unfold set_remove. case_decide; [apply preserves_ret | apply preserves_raise].
Qed.

Lemma preserves_modify l f : (∀ w, R w (f w)) → preserves R (modify l f).
Proof.
  intros Hf s. unfold modify; simpl. split; [done|]. intros l'.
  destruct (decide (l = l')) as [->|Hne].
  - rewrite world_at_set_world. apply Hf.
  - rewrite world_at_set_world_ne by done. apply R_refl.
Qed.

Lemma preserves_bind {A B} (m : M A) (k : A → M B) :
  preserves R m → (∀ a, preserves R (k a)) → preserves R (bind m k).
Proof.
  intros Hm Hk s. unfold bind.
  specialize (Hm s). destruct (m s) as [[a|e] s1]; simpl in *.
  - destruct Hm as [Ha Hm], (Hk a s1) as [Ha' Hk'].
    split; [congruence|]. intros l. eapply R_trans; [apply Hm | apply Hk'].
  - exact Hm.
Qed.

Lemma preserves_for_each {A} (xs : list A) (body : A → M unit) :
  (∀ x, preserves R (body x)) → preserves R (for_each xs body).
Proof.
  intros Hbody. induction xs as [|x xs IH]; simpl.
  - apply preserves_ret.
  - apply preserves_bind; [apply Hbody | intros _; exact IH].
Qed.

Lemma preserves_comprehension {A B} (f : A → M B) (xs : list A) :
  (∀ x, preserves R (f x)) → preserves R (comprehension f xs).
Proof.
  intros Hf. induction xs as [|x xs IH]; simpl.
  - apply preserves_ret.
  - apply preserves_bind; [apply Hf | intros y].
    apply preserves_bind; [exact IH | intros ys; apply preserves_ret].
Qed.

Lemma preserves_attempt {A} (m : M A) :
  preserves R m → preserves R (attempt m).
Proof. intros Hm s. apply Hm. Qed.
End Frame.

Ltac head_of t :=
  lazymatch t with
  | ?f _ => head_of f
  | _ => constr:(t)
  end.

(** Walks through the code of an operation with the frame rules; the
    side condition of each [modify] is left to [tac]. *)
Ltac frame_with Hrefl Htrans tac :=
  repeat lazymatch goal with
  | |- preserves _ (bind _ _) => apply (preserves_bind _ Htrans)
  | |- ∀ _, _ => intros ?
  | |- preserves _ (ret _) => apply (preserves_ret _ Hrefl)
  | |- preserves _ (raise _) => apply (preserves_raise _ Hrefl)
  | |- preserves _ (read _) => apply (preserves_read _ Hrefl)
  | |- preserves _ global_world => apply (preserves_global_world _ Hrefl)
  | |- preserves _ (getitem _) => apply (preserves_getitem _ Hrefl)
  | |- preserves _ (set_remove _ _) => apply (preserves_set_remove _ Hrefl)
  | |- preserves _ (modify _ _) => apply (preserves_modify _ Hrefl); tac
  | |- preserves _ (for_each _ _) =>
      apply (preserves_for_each _ Hrefl Htrans)
  | |- preserves _ (comprehension _ _) =>
      apply (preserves_comprehension _ Hrefl Htrans)
  | |- preserves _ (match ?x with _ => _ end) => destruct x
  | |- preserves _ (let _ := _ in _) => cbv zeta
  | |- preserves _ ?m =>
      let h := head_of m in unfold h
  end.

(** * The id counter *)

Lemma same_next_id_refl w : same_next_id w w.
Proof. reflexivity. Qed.

Lemma same_next_id_trans a b c :
  same_next_id a b → same_next_id b c → same_next_id a c.
Proof. unfold same_next_id. congruence. Qed.

Ltac next_id_frame :=
  frame_with same_next_id_refl same_next_id_trans ltac:(by intros []).

(** Only [create_entity] writes the counter. *)
Lemma exec_next_id (o : op) (s : Store) (l : loc) :
  (∀ l', o ≠ OpCreate l') →
  next_id (world_at (exec o s) l) = next_id (world_at s l).
Proof.
  intros Hnot.
  assert (preserves same_next_id (perform o)) as Hp; [|apply Hp].
  unfold perform. apply preserves_attempt.
  destruct o; try (by destruct (Hnot w)); next_id_frame.
Qed.

Lemma create_entity_run (s : Store) (self : loc) :
  let w := world_at s self in
  create_entity self s =
    (Ret (mkEntity (next_id w) self),
     set_world self
       (mkWorld (entities w ∪ {[next_id w]}) (components w) (tags w)
                (relations w) (<[next_id w := ∅]> (eid_comps w))
                (<[next_id w := ∅]> (eid_tags w))
                (<[next_id w := ∅]> (eid_rels w)) (next_id w + 1)) s).
Proof.
  unfold create_entity, Entity_init. mrun.
  rewrite decide_True by set_solver. reflexivity.
Qed.

Lemma exec_all_app ops1 ops2 s :
  exec_all (ops1 ++ ops2) s = exec_all ops2 (exec_all ops1 s).
Proof. unfold exec_all. by rewrite foldl_app. Qed.

Lemma exec_all_next_id (ops : list op) (s : Store) (l : loc) :
  next_id (world_at (exec_all ops s) l)
  = next_id (world_at s l) + Z.of_nat (count_creates l ops).
Proof.
  revert s. induction ops as [|o ops IH]; intros s.
  - simpl. lia.
  - change (exec_all (o :: ops) s) with (exec_all ops (exec o s)).
    rewrite IH.
    destruct o;
      try (simpl count_creates; rewrite exec_next_id by done; lia).
    unfold exec, perform, attempt, call.
    rewrite (bind_run _ _ _ _ _ (create_entity_run _ _)).
    simpl. case_decide as Hl.
    + subst. rewrite world_at_set_world. simpl. lia.
    + rewrite world_at_set_world_ne by done. lia.
Qed.

(** C10: on a registry constructed empty, after any sequence of public
    operations the counter equals the number of [create_entity] calls
    made on it so far; the next [create_entity] returns a handle with
    exactly that id (so the n-th call returns n-1) and moves the
    counter by one; a [delete_entity], on any registry and whether it
    succeeds or fails, leaves every counter as it was. *)
Theorem create_entity_ids_consecutive
    (ops : list op) (s : Store) (self : loc) :
  world_at s self = World_init →
  let s_n := exec_all ops s in
  let n := Z.of_nat (count_creates self ops) in
  next_id (world_at s_n self) = n ∧
  (∃ s', create_entity self s_n = (Ret (mkEntity n self), s') ∧
         next_id (world_at s' self) = n + 1) ∧
  (∀ w eid l, next_id (world_at (delete_entity w eid s_n).2 l)
              = next_id (world_at s_n l)).
Proof.
  intros Hfresh s_n n.
  assert (Hn : next_id (world_at s_n self) = n).
  { unfold s_n, n. rewrite exec_all_next_id, Hfresh. simpl. lia. }
  split; [exact Hn|]. split.
  - eexists. rewrite create_entity_run, Hn. split; [reflexivity|].
    by rewrite world_at_set_world.
  - intros w eid l. apply (exec_next_id (OpDelete w eid)). done.
Qed.

Lemma create_entity_ids_consecutive_witness :
  let ops := [OpCreate W0; OpCreate W0; OpTag (mkEntity 1 W0) enemy;
              OpDelete W0 1; OpCreate W1; OpCreate W0] in
  let s_n := exec_all ops (fresh_store (Some W0)) in
  next_id (world_at s_n W0) = 3 ∧
  (∃ s', create_entity W0 s_n = (Ret (mkEntity 3 W0), s') ∧
         next_id (world_at s' W0) = 3 + 1) ∧
  (∀ w eid l, next_id (world_at (delete_entity w eid s_n).2 l)
              = next_id (world_at s_n l)).
Proof.
  exact (create_entity_ids_consecutive
           [OpCreate W0; OpCreate W0; OpTag (mkEntity 1 W0) enemy;
            OpDelete W0 1; OpCreate W1; OpCreate W0]
           (fresh_store (Some W0)) W0 eq_refl).
Defined.

(** * The query engine *)

Lemma same_views_refl w : same_views w w.
Proof. by repeat split. Qed.

Lemma same_views_trans a b c :
  same_views a b → same_views b c → same_views a c.
Proof.
  unfold same_views, base_eq, comp_eq, tag_eq, rel_eq.
  intros H1 H2. destruct_and!. repeat split; intros; congruence.
Qed.

Lemma same_views_component_holders w w' c :
  same_views w w' → component_holders w' c = component_holders w c.
Proof. intros (_ & (_ & H) & _). apply H. Qed.

Lemma same_views_tag_holders w w' t :
  same_views w w' → tag_holders w' t = tag_holders w t.
Proof. intros (_ & _ & (_ & H) & _). apply H. Qed.

Lemma same_views_sources w w' r x :
  same_views w w' → sources w' r x = sources w r x.
Proof. intros (_ & _ & _ & (_ & H)). apply H. Qed.

Ltac unfold_views :=
  unfold same_views, base_eq, comp_eq, tag_eq, rel_eq, components_of,
    component_holders, tags_of, tag_holders, current_target, sources in *;
  cbn [entities components tags relations eid_comps eid_tags eid_rels
       next_id with_entities with_components with_tags with_relations
       with_eid_comps with_eid_tags with_eid_rels with_next_id] in *.

(** Storing an empty entry under a missing key changes no view. *)
Lemma same_views_touch_components w c :
  components w !! c = None →
  same_views w (with_components (insert c ∅) w).
Proof.
  intros Hc. unfold_views. repeat split; try done. intros c'.
  destruct (decide (c = c')) as [<-|Hne].
  - by rewrite lookup_insert_eq, Hc.
  - by rewrite lookup_insert_ne.
Qed.

Lemma same_views_touch_tags w t :
  tags w !! t = None → same_views w (with_tags (insert t ∅) w).
Proof.
  intros Ht. unfold_views. repeat split; try done. intros t'.
  destruct (decide (t = t')) as [<-|Hne].
  - by rewrite lookup_insert_eq, Ht.
  - by rewrite lookup_insert_ne.
Qed.

Lemma same_views_touch_relations w r :
  relations w !! r = None → same_views w (with_relations (insert r ∅) w).
Proof.
  intros Hr. unfold_views. repeat split; try done. intros r' x.
  destruct (decide (r = r')) as [<-|Hne].
  - by rewrite lookup_insert_eq, Hr.
  - by rewrite lookup_insert_ne.
Qed.

Lemma only_changes_refl l s : only_changes l s s.
Proof. by split. Qed.

Lemma only_changes_trans l s1 s2 s3 :
  only_changes l s1 s2 → only_changes l s2 s3 → only_changes l s1 s3.
Proof.
  intros [Ha1 H1] [Ha2 H2]. split; [congruence|].
  intros l' Hne. by rewrite H2, H1.
Qed.

Lemma only_changes_set_world l w s : only_changes l s (set_world l w s).
Proof.
  split; [done|]. intros l' Hne. by rewrite world_at_set_world_ne.
Qed.

(** Reading a [defaultdict] entry returns what the view shows and
    changes no view, although it may store an empty entry. *)
Lemma dd_components_view l c s :
  ∃ d s', dd_components l c s = (Ret d, s') ∧
          dom d = component_holders (world_at s l) c ∧
          only_changes l s s' ∧
          same_views (world_at s l) (world_at s' l).
Proof.
  unfold dd_components. mrun. unfold component_holders at 1.
  destruct (components (world_at s l) !! c) as [d|] eqn:Hc; mrun.
  - exists d, s. eauto using same_views_refl, only_changes_refl.
  - eexists ∅, _. split; [reflexivity|]. split; [done|].
    split; [apply only_changes_set_world|].
    rewrite world_at_set_world. by apply same_views_touch_components.
Qed.

Lemma dd_tags_view l t s :
  ∃ s', dd_tags l t s = (Ret (tag_holders (world_at s l) t), s') ∧
        only_changes l s s' ∧
        same_views (world_at s l) (world_at s' l).
Proof.
  unfold dd_tags. mrun. unfold tag_holders at 1.
  destruct (tags (world_at s l) !! t) as [b|] eqn:Ht; mrun.
  - exists s. eauto using same_views_refl, only_changes_refl.
  - eexists. split; [reflexivity|].
    split; [apply only_changes_set_world|].
    rewrite world_at_set_world. by apply same_views_touch_tags.
Qed.

Lemma dd_relations_view l r s :
  ∃ d s', dd_relations l r s = (Ret d, s') ∧
          (∀ x, default ∅ (d !! x) = sources (world_at s l) r x) ∧
          only_changes l s s' ∧
          same_views (world_at s l) (world_at s' l).
Proof.
  unfold dd_relations. mrun. unfold sources at 1.
  destruct (relations (world_at s l) !! r) as [d|] eqn:Hr; mrun.
  - exists d, s. eauto using same_views_refl, only_changes_refl.
  - eexists ∅, _. split; [reflexivity|]. split; [done|].
    split; [apply only_changes_set_world|].
    rewrite world_at_set_world. by apply same_views_touch_relations.
Qed.

(** A comprehension over such reads collects the views. *)
Lemma comprehension_views {A} (l : loc) (f : A → M (gset Z))
    (g : World → A → gset Z) (xs : list A) :
  (∀ w w' x, same_views w w' → g w' x = g w x) →
  (∀ x s, ∃ s', f x s = (Ret (g (world_at s l) x), s') ∧
                same_views (world_at s l) (world_at s' l)) →
  ∀ s, ∃ s', comprehension f xs s = (Ret (g (world_at s l) <$> xs), s') ∧
             same_views (world_at s l) (world_at s' l).
Proof.
  intros Hg Hf. induction xs as [|x xs IH]; intros s; simpl.
  - exists s. split; [reflexivity | apply same_views_refl].
  - destruct (Hf x s) as (s1 & Hrun & Hv1).
    destruct (IH s1) as (s2 & Hrest & Hv2).
    exists s2. split; [|by eapply same_views_trans].
    rewrite (bind_run _ _ _ _ _ Hrun), (bind_run _ _ _ _ _ Hrest).
    unfold ret. do 2 f_equal. f_equal.
    apply list_fmap_ext. intros _ y _. by apply Hg.
Qed.

Lemma insert_by_len_perm x l : insert_by_len x l ≡ₚ x :: l.
Proof.
  induction l as [|y l IH]; simpl; [done|].
  case_decide; [done|]. rewrite IH. apply Permutation_swap.
Qed.

(** Sorting the operands changes their order only. *)
Lemma sort_by_len_perm l : sort_by_len l ≡ₚ l.
Proof.
  induction l as [|x l IH]; simpl; [done|].
  by rewrite insert_by_len_perm, IH.
Qed.

Lemma elem_of_foldl_intersection (x : gset Z) rest e :
  e ∈ foldl (∩) x rest ↔ e ∈ x ∧ ∀ y, y ∈ rest → e ∈ y.
Proof.
  revert x. induction rest as [|z rest IH]; intros x; simpl.
  - split; [|tauto]. intros H. split; [done|]. by intros y ?%elem_of_nil.
  - rewrite IH, elem_of_intersection. split.
    + intros [[Hx Hz] Hr]. split; [done|].
      intros y [->|Hy]%elem_of_cons; auto.
    + intros [Hx Hr]. repeat split; auto.
      * apply Hr. by left.
      * intros y Hy. apply Hr. by right.
Qed.

(** The guarded intersection of one category, after sorting: for a
    category with operands, an id is in the result exactly when it is
    in every operand. *)
Lemma intersection_or_empty_sorted (L : list (gset Z)) s :
  ∃ I, intersection_or_empty (sort_by_len L) s = (Ret I, s) ∧
       (L ≠ [] → ∀ e, e ∈ I ↔ ∀ y, y ∈ L → e ∈ y).
Proof.
  pose proof (sort_by_len_perm L) as Hperm.
  destruct (sort_by_len L) as [|x rest] eqn:Hs; simpl.
  - exists ∅. split; [done|]. intros HL.
    by apply Permutation_nil_l in Hperm.
  - eexists. split; [reflexivity|]. intros _ e.
    rewrite elem_of_foldl_intersection. split.
    + intros [Hx Hr] y Hy. rewrite <- Hperm in Hy.
      apply elem_of_cons in Hy as [->|Hy]; auto.
    + intros Hall. split.
      * apply Hall. rewrite <- Hperm. by left.
      * intros y Hy. apply Hall. rewrite <- Hperm. by right.
Qed.

Lemma forall_fmap_views {A} (g : A → gset Z) (xs : list A) e :
  (∀ y, y ∈ g <$> xs → e ∈ y) ↔ (∀ x, x ∈ xs → e ∈ g x).
Proof.
  split.
  - intros H x Hx. apply H. by apply list_elem_of_fmap_2.
  - intros H y (x & -> & Hx)%list_elem_of_fmap. by apply H.
Qed.

(** C1: a query with at least one criterion returns, and an id is in
    the result exactly when it is in the entity-id set of every
    requested component key, in the entity-id set of every requested
    tag, and in the source set of [relations[name][target]] for every
    requested pair, a missing bucket being read as empty. *)
Theorem query_conjunction (s : Store) (self : loc)
    (comps : list Component) (tags : list Tag) (rels : list (string * Z)) :
  comps ≠ [] ∨ tags ≠ [] ∨ rels ≠ [] →
  ∃ result s',
    query self comps tags rels s = (Ret result, s') ∧
    ∀ e, e ∈ result ↔
      (∀ c, c ∈ comps → e ∈ component_holders (world_at s self) c) ∧
      (∀ t, t ∈ tags → e ∈ tag_holders (world_at s self) t) ∧
      (∀ r x, (r, x) ∈ rels → e ∈ sources (world_at s self) r x).
Proof.
  intros Hcrit. unfold query.
  (* the three comprehensions *)
  destruct (comprehension_views self
              (λ comp, let! d := dd_components self comp in ret (dom d))
              component_holders comps) with (s := s) as (s1 & Hc & Hv1).
  { intros w w' c Hv. by apply same_views_component_holders. }
  { intros c s0. destruct (dd_components_view self c s0)
      as (d & s' & Hrun & Hd & _ & Hv).
    exists s'. by rewrite (bind_run _ _ _ _ _ Hrun), <- Hd. }
  destruct (comprehension_views self (dd_tags self) tag_holders tags)
    with (s := s1) as (s2 & Ht & Hv2).
  { intros w w' t Hv. by apply same_views_tag_holders. }
  { intros t s0. destruct (dd_tags_view self t s0) as (s' & Hrun & _ & Hv).
    eauto. }
  destruct (comprehension_views self
              (λ rel, let! d := dd_relations self rel.1 in
                      ret (default ∅ (d !! rel.2)))
              (λ w rel, sources w rel.1 rel.2) rels)
    with (s := s2) as (s3 & Hr & Hv3).
  { intros w w' rel Hv. by apply same_views_sources. }
  { intros rel s0. destruct (dd_relations_view self rel.1 s0)
      as (d & s' & Hrun & Hd & _ & Hv).
    exists s'. by rewrite (bind_run _ _ _ _ _ Hrun), <- Hd. }
  rewrite (bind_run _ _ _ _ _ Hc), (bind_run _ _ _ _ _ Ht),
    (bind_run _ _ _ _ _ Hr).
  (* the three guarded intersections *)
  destruct (intersection_or_empty_sorted
              (component_holders (world_at s self) <$> comps) s3)
    as (Ic & HIc & Hcs).
  destruct (intersection_or_empty_sorted
              (tag_holders (world_at s1 self) <$> tags) s3)
    as (It & HIt & Hts).
  destruct (intersection_or_empty_sorted
              ((λ rel, sources (world_at s2 self) rel.1 rel.2) <$> rels) s3)
    as (Ir & HIr & Hrs).
  cbv zeta.
  rewrite (bind_run _ _ _ _ _ HIc), (bind_run _ _ _ _ _ HIt),
    (bind_run _ _ _ _ _ HIr).
  (* what each category contributes *)
  assert (Hcs' : comps ≠ [] → ∀ e, e ∈ Ic ↔
            ∀ c, c ∈ comps → e ∈ component_holders (world_at s self) c).
  { intros Hne e. rewrite Hcs by (by destruct comps).
    apply forall_fmap_views. }
  assert (Hts' : tags ≠ [] → ∀ e, e ∈ It ↔
            ∀ t, t ∈ tags → e ∈ tag_holders (world_at s self) t).
  { intros Hne e. rewrite Hts by (by destruct tags).
    rewrite forall_fmap_views.
    by setoid_rewrite (same_views_tag_holders _ _ _ Hv1). }
  assert (Hrs' : rels ≠ [] → ∀ e, e ∈ Ir ↔
            ∀ r x, (r, x) ∈ rels → e ∈ sources (world_at s self) r x).
  { intros Hne e. rewrite Hrs by (by destruct rels).
    rewrite (forall_fmap_views
               (λ rel, sources (world_at s2 self) rel.1 rel.2)).
    pose proof (same_views_trans _ _ _ Hv1 Hv2) as Hv.
    setoid_rewrite (same_views_sources _ _ _ _ Hv). split.
    - intros H r x Hin. apply (H (r, x) Hin).
    - intros H [r x] Hin. by apply H. }
  clear Hcs Hts Hrs HIc HIt HIr Hc Ht Hr.
  destruct comps as [|c0 comps], tags as [|t0 tags], rels as [|r0 rels];
    simpl; (try by destruct Hcrit as [?|[?|?]]);
    eexists _, s3; (split; [reflexivity|]); intros e;
    rewrite ?elem_of_intersection;
    rewrite ?Hcs', ?Hts', ?Hrs' by done;
    split; try tauto; intros; repeat split;
    try tauto; try (by intros ? ?%elem_of_nil);
    try (by intros ? ? ?%elem_of_nil).
Qed.

Lemma query_conjunction_witness :
  ∃ result s',
    query W0 [hp] [enemy] [] hp_enemy_store = (Ret result, s') ∧
    ∀ e, e ∈ result ↔
      (∀ c, c ∈ [hp] → e ∈ component_holders (world_at hp_enemy_store W0) c) ∧
      (∀ t, t ∈ [enemy] → e ∈ tag_holders (world_at hp_enemy_store W0) t) ∧
      (∀ r x, (r, x) ∈ [] →
              e ∈ sources (world_at hp_enemy_store W0) r x).
Proof.
  apply (query_conjunction hp_enemy_store W0 [hp] [enemy] []).
  left. discriminate.
Defined.

(** * Reading the invariants pointwise *)

Lemma wf_has_comps w e :
  wf w → e ∈ entities w → is_Some (eid_comps w !! e).
Proof. intros ((_ & H & _ & _) & _) He. apply elem_of_dom. by rewrite H. Qed.

Lemma wf_has_tags w e :
  wf w → e ∈ entities w → is_Some (eid_tags w !! e).
Proof. intros ((_ & _ & H & _) & _) He. apply elem_of_dom. by rewrite H. Qed.

Lemma wf_has_rels w e :
  wf w → e ∈ entities w → is_Some (eid_rels w !! e).
Proof. intros ((_ & _ & _ & H) & _) He. apply elem_of_dom. by rewrite H. Qed.

Lemma wf_component_holder w e cs c :
  wf w → eid_comps w !! e = Some cs → c ∈ cs → e ∈ component_holders w c.
Proof. intros (_ & (H & _) & _) He Hc. exact (H e cs He c Hc). Qed.

Lemma wf_tag_holder w e ts t :
  wf w → eid_tags w !! e = Some ts → t ∈ ts → e ∈ tag_holders w t.
Proof. intros (_ & _ & (H & _) & _) He Ht. exact (H e ts He t Ht). Qed.

Lemma wf_source w e rs r x :
  wf w → eid_rels w !! e = Some rs → rs !! r = Some x → e ∈ sources w r x.
Proof. intros (_ & _ & _ & (H & _) & _) He Hr. exact (H e rs He r x Hr). Qed.

Lemma wf_current_target w e r x :
  wf w → e ∈ sources w r x → current_target w e r = Some x.
Proof.
  intros (_ & _ & _ & (_ & H) & _). unfold sources.
  destruct (relations w !! r) as [d|] eqn:Hd; simpl; [|set_solver].
  destruct (d !! x) as [srcs|] eqn:Hx; simpl; [|set_solver].
  intros He. exact (H r d Hd x srcs Hx e He).
Qed.

Lemma wf_target_live w e rs r x :
  wf w → eid_rels w !! e = Some rs → rs !! r = Some x → x ∈ entities w.
Proof. intros (_ & _ & _ & _ & H) He Hr. exact (H e rs He r x Hr). Qed.

Lemma current_target_Some w e r x :
  current_target w e r = Some x →
  ∃ rs, eid_rels w !! e = Some rs ∧ rs !! r = Some x.
Proof.
  unfold current_target. destruct (eid_rels w !! e) as [rs|]; simpl; eauto.
  by rewrite lookup_empty.
Qed.

Lemma wf_source_live w e r x : wf w → e ∈ sources w r x → e ∈ entities w.
Proof.
  intros Hwf He. apply (wf_current_target _ _ _ _ Hwf) in He.
  apply current_target_Some in He as (rs & Hrs & _).
  destruct Hwf as ((_ & _ & _ & <-) & _). apply elem_of_dom. eauto.
Qed.

(** ** The invariants through the views *)

Lemma elem_of_components_of w e c :
  c ∈ components_of w e ↔ ∃ cs, eid_comps w !! e = Some cs ∧ c ∈ cs.
Proof.
  unfold components_of. destruct (eid_comps w !! e) as [cs|]; simpl.
  - split; [eauto | by intros (? & [= <-] & ?)].
  - split; [set_solver | by intros (? & ? & ?)].
Qed.

Lemma elem_of_component_holders w c e :
  e ∈ component_holders w c ↔
  ∃ d v, components w !! c = Some d ∧ d !! e = Some v.
Proof.
  unfold component_holders. destruct (components w !! c) as [d|]; simpl.
  - rewrite elem_of_dom. split.
    + intros [v Hv]. eauto.
    + intros (? & v & [= <-] & Hv). eauto.
  - rewrite dom_empty_L. split; [set_solver | by intros (? & ? & ? & ?)].
Qed.

Lemma elem_of_tags_of w e t :
  t ∈ tags_of w e ↔ ∃ ts, eid_tags w !! e = Some ts ∧ t ∈ ts.
Proof.
  unfold tags_of. destruct (eid_tags w !! e) as [ts|]; simpl.
  - split; [eauto | by intros (? & [= <-] & ?)].
  - split; [set_solver | by intros (? & ? & ?)].
Qed.

Lemma elem_of_tag_holders w t e :
  e ∈ tag_holders w t ↔ ∃ b, tags w !! t = Some b ∧ e ∈ b.
Proof.
  unfold tag_holders. destruct (tags w !! t) as [b|]; simpl.
  - split; [eauto | by intros (? & [= <-] & ?)].
  - split; [set_solver | by intros (? & ? & ?)].
Qed.

Lemma elem_of_sources w r x e :
  e ∈ sources w r x ↔
  ∃ d srcs, relations w !! r = Some d ∧ d !! x = Some srcs ∧ e ∈ srcs.
Proof.
  unfold sources. split.
  - destruct (relations w !! r) as [d|]; simpl; [|set_solver].
    destruct (d !! x) as [srcs|] eqn:Hx; simpl; [|set_solver]. eauto.
  - intros (d & srcs & -> & Hx & He). simpl. by rewrite Hx.
Qed.

Lemma current_target_is_Some w e r :
  is_Some (current_target w e r) →
  ∃ rs, eid_rels w !! e = Some rs ∧ is_Some (rs !! r).
Proof.
  intros [x Hx]. apply current_target_Some in Hx as (rs & ? & ?). eauto.
Qed.

Lemma current_target_Some_iff w e r x :
  current_target w e r = Some x ↔
  ∃ rs, eid_rels w !! e = Some rs ∧ rs !! r = Some x.
Proof.
  split; [apply current_target_Some|].
  intros (rs & Hrs & Hr). unfold current_target. by rewrite Hrs.
Qed.

Lemma inv_components_views w : inv_components w ↔ inv_c w.
Proof.
  unfold inv_components, inv_c. split.
  - intros [H1 H2] e c. split.
    + intros (cs & He & Hc)%elem_of_components_of. exact (H1 e cs He c Hc).
    + intros (d & v & Hd & Hv)%elem_of_component_holders.
      exact (H2 c d Hd e v Hv).
  - intros H. split.
    + intros e cs He c Hc. apply H, elem_of_components_of. eauto.
    + intros c d Hd e v Hv. apply H, elem_of_component_holders. eauto.
Qed.

Lemma inv_tags_views w : inv_tags w ↔ inv_t w.
Proof.
  unfold inv_tags, inv_t. split.
  - intros [H1 H2] e t. split.
    + intros (ts & He & Ht)%elem_of_tags_of. exact (H1 e ts He t Ht).
    + intros (b & Hb & He)%elem_of_tag_holders. exact (H2 t b Hb e He).
  - intros H. split.
    + intros e ts He t Ht. apply H, elem_of_tags_of. eauto.
    + intros t b Hb e He. apply H, elem_of_tag_holders. eauto.
Qed.

Lemma inv_relations_views w : inv_relations w ↔ inv_r w.
Proof.
  unfold inv_relations, inv_r. split.
  - intros [H1 H2] e r x. split.
    + intros (rs & He & Hr)%current_target_Some_iff.
      exact (H1 e rs He r x Hr).
    + intros (d & srcs & Hd & Hx & He)%elem_of_sources.
      exact (H2 r d Hd x srcs Hx e He).
  - intros H. split.
    + intros e rs He r x Hr. apply H, current_target_Some_iff. eauto.
    + intros r d Hd x srcs Hx e He. apply H, elem_of_sources. eauto 6.
Qed.

Lemma targets_live_views w : targets_live w ↔ live_r w.
Proof.
  unfold targets_live, live_r. split.
  - intros H e r x (rs & He & Hr)%current_target_Some_iff.
    exact (H e rs He r x Hr).
  - intros H e rs He r x Hr. apply (H e r), current_target_Some_iff. eauto.
Qed.

Lemma wf_views w : wf w ↔ facets_registered w ∧ inv_views w.
Proof.
  unfold wf, inv_views.
  by rewrite inv_components_views, inv_tags_views, inv_relations_views,
    targets_live_views.
Qed.

(** The invariants do not see entries that hold nothing. *)
Lemma wf_same_views w w' : same_views w w' → wf w → wf w'.
Proof.
  rewrite !wf_views.
  intros ((He & Hn & Hd1 & Hd2 & Hd3) & (Hc1 & Hc2) & (Ht1 & Ht2) &
          (Hr1 & Hr2)) ((F0 & F1 & F2 & F3) & Hc & Ht & Hr & Hl).
  unfold facets_registered, inv_views, inv_c, inv_t, inv_r, live_r.
  split; [split; [by unfold ids_fresh; rewrite He, Hn|]|].
  all: repeat split; try congruence; intros.
  - rewrite Hc1, Hc2 in *. by apply Hc.
  - rewrite Hc1, Hc2 in *. by apply Hc.
  - rewrite Ht1, Ht2 in *. by apply Ht.
  - rewrite Ht1, Ht2 in *. by apply Ht.
  - rewrite Hr1, Hr2 in *. by apply Hr.
  - rewrite Hr1, Hr2 in *. by apply Hr.
  - rewrite He. rewrite Hr1 in *. eauto.
Qed.

(** * Tags *)

(** What a successful [untag] leaves: the tag is out of the entity's
    tag set, the id is out of the bucket, and a bucket left empty is
    deleted from the table. *)
Lemma untag_run (s : Store) (l : loc) (e : Z) (t : Tag) ts b :
  let w := world_at s l in
  eid_tags w !! e = Some ts → t ∈ ts →
  tags w !! t = Some b → e ∈ b →
  untag (mkEntity e l) t s =
    (Ret tt,
     set_world l
       (with_tags (if decide (b ∖ {[e]} = ∅) then delete t
                   else insert t (b ∖ {[e]}))
          (with_eid_tags (insert e (ts ∖ {[t]})) w)) s).
Proof.
  intros w Hts Ht Hb He. subst w.
  unfold untag, getattr_tags, dd_tags. mrun.
  rewrite Hts. mrun. rewrite decide_True by done. mrun.
  rewrite Hts. mrun. rewrite Hb. mrun.
  destruct (decide (b ∖ {[e]} = ∅)) as [Hempty|Hne]; mrun.
  - rewrite lookup_insert_eq. mrun. unfold with_tags; simpl.
    by rewrite delete_insert_eq.
  - reflexivity.
Qed.

(** X29: for a live entity of a registry that satisfies the invariants,
    [tag] on a tag the entity has changes nothing at all; [untag] on a
    tag the entity has not changes nothing at all; [untag] on a tag
    the entity has takes the tag out of the entity's tag set and the
    id out of the bucket, deletes the key when the bucket is left
    empty, and touches no other table and no other registry. *)
Theorem tag_idempotent_untag_prunes (s : Store) (self : Entity) (t : Tag) :
  let w := world_at s (world self) in
  wf w → eid self ∈ entities w →
  (t ∈ tags_of w (eid self) → tag self t s = (Ret tt, s)) ∧
  (t ∉ tags_of w (eid self) → untag self t s = (Ret tt, s)) ∧
  (t ∈ tags_of w (eid self) →
   ∃ s', untag self t s = (Ret tt, s') ∧
     let w' := world_at s' (world self) in
     tags_of w' (eid self) = tags_of w (eid self) ∖ {[t]} ∧
     tag_holders w' t = tag_holders w t ∖ {[eid self]} ∧
     (tag_holders w t = {[eid self]} → tags w' !! t = None) ∧
     (∀ e, e ≠ eid self → eid_tags w' !! e = eid_tags w !! e) ∧
     (∀ t', t' ≠ t → tags w' !! t' = tags w !! t') ∧
     entities w' = entities w ∧ components w' = components w ∧
     relations w' = relations w ∧ eid_comps w' = eid_comps w ∧
     eid_rels w' = eid_rels w ∧ next_id w' = next_id w ∧
     ambient s' = ambient s ∧
     (∀ l, l ≠ world self → world_at s' l = world_at s l)).
Proof.
  intros w Hwf Hlive. subst w. destruct self as [e l]; simpl in *.
  destruct (wf_has_tags _ _ Hwf Hlive) as [ts Hts].
  unfold tags_of. rewrite Hts; simpl.
  split; [|split].
  - intros Ht. unfold tag, getattr_tags. mrun. rewrite Hts. mrun.
    by rewrite decide_True.
  - intros Ht. unfold untag, getattr_tags. mrun. rewrite Hts. mrun.
    by rewrite decide_False.
  - intros Ht.
    pose proof (wf_tag_holder _ _ _ _ Hwf Hts Ht) as Hb.
    unfold tag_holders in Hb.
    destruct (tags (world_at s l) !! t) as [b|] eqn:Htags; simpl in Hb;
      [|set_solver].
    eexists. split; [by apply (untag_run s l e t ts b)|].
    rewrite world_at_set_world. unfold tag_holders. simpl.
    rewrite Htags. simpl. rewrite lookup_insert_eq. simpl.
    split; [done|].
    destruct (decide (b ∖ {[e]} = ∅)) as [Hempty|Hne]; simpl.
    + rewrite lookup_delete_eq. simpl. repeat split; try done.
      * intros e' Hne. by rewrite lookup_insert_ne.
      * intros t' Hne. by rewrite lookup_delete_ne.
      * intros l' Hne. by rewrite world_at_set_world_ne.
    + rewrite lookup_insert_eq. simpl. repeat split; try done.
      * intros Hb'. destruct Hne. rewrite Hb'. apply difference_diag_L.
      * intros e' Hne'. by rewrite lookup_insert_ne.
      * intros t' Hne'. by rewrite lookup_insert_ne.
      * intros l' Hne'. by rewrite world_at_set_world_ne.
Qed.

Lemma tag_idempotent_untag_prunes_witness :
  tag (mkEntity 1 W0) enemy tagged_store = (Ret tt, tagged_store) ∧
  ∃ s', untag (mkEntity 1 W0) enemy tagged_store = (Ret tt, s') ∧
        tags_of (world_at s' W0) 1
        = tags_of (world_at tagged_store W0) 1 ∖ {[enemy]}.
Proof.
  destruct (tag_idempotent_untag_prunes tagged_store (mkEntity 1 W0) enemy)
    as (Htag & _ & Huntag); [by_evaluation..|].
  split; [apply Htag; by_evaluation|].
  destruct Huntag as (s' & Hrun & Hset & _); [by_evaluation|].
  exists s'. split; [exact Hrun | exact Hset].
Defined.

(** * Relations *)

(** What a successful [unrelate] leaves. *)
Lemma unrelate_run (s : Store) (g l : loc) (e : Z) (r : string) (x : Z)
    d srcs rs :
  ambient s = Some g → x ∈ entities (world_at s g) →
  relations (world_at s l) !! r = Some d → d !! x = Some srcs →
  e ∈ srcs →
  eid_rels (world_at s l) !! e = Some rs → is_Some (rs !! r) →
  unrelate (mkEntity e l) r x s =
    (Ret tt,
     set_world l
       (with_relations
          (insert r (if decide (srcs ∖ {[e]} = ∅) then delete x d
                     else <[x := srcs ∖ {[e]}]> d))
          (with_eid_rels (insert e (delete r rs)) (world_at s l))) s).
Proof.
  intros Hg Hx Hd Hsrcs He Hrs [old Hold].
  unfold unrelate, dd_relations, getattr_relations. mrun.
  rewrite decide_True by done. mrun. rewrite Hd. mrun.
  rewrite Hsrcs. mrun. rewrite Hrs. mrun. rewrite Hold. mrun.
  destruct (decide (srcs ∖ {[e]} = ∅)) as [Hempty|Hne]; mrun.
  - rewrite lookup_insert_eq. mrun. rewrite lookup_insert_eq. mrun.
    unfold with_relations, with_eid_rels; simpl.
    by rewrite insert_insert_eq, delete_insert_eq.
  - reflexivity.
Qed.

(** [unrelate] succeeds on an edge that both tables record. *)
Lemma unrelate_ok (s : Store) (g l : loc) (e : Z) (r : string) (x : Z) :
  ambient s = Some g → x ∈ entities (world_at s g) →
  e ∈ sources (world_at s l) r x →
  is_Some (current_target (world_at s l) e r) →
  ∃ s', unrelate (mkEntity e l) r x s = (Ret tt, s') ∧
    only_changes l s s' ∧
    unrelate_post e r x (world_at s l) (world_at s' l).
Proof.
  intros Hg Hx (d & srcs & Hd & Hsrcs & He)%elem_of_sources
    (rs & Hrs & Hr)%current_target_is_Some.
  eexists. split; [by eapply unrelate_run|].
  split; [apply only_changes_set_world|].
  rewrite world_at_set_world. set (w := world_at s l) in *.
  unfold unrelate_post. unfold_views. rewrite Hd. simpl. rewrite Hsrcs. simpl.
  repeat split; try done.
  - apply dom_insert_lookup_L; eauto.
  - intros e' r'. case_decide as Hc.
    + destruct Hc as [-> ->].
      rewrite lookup_insert_eq; simpl. by rewrite lookup_delete_eq.
    + destruct (decide (e' = e)) as [->|Hne'].
      * rewrite lookup_insert_eq, Hrs; simpl.
        rewrite lookup_delete_ne by naive_solver. done.
      * by rewrite lookup_insert_ne.
  - intros r' y. destruct (decide (r' = r ∧ y = x)) as [[-> ->]|Hc].
    + rewrite lookup_insert_eq; simpl.
      destruct (decide (srcs ∖ {[e]} = ∅)) as [Hempty|Hempty].
      * by rewrite lookup_delete_eq.
      * by rewrite lookup_insert_eq.
    + destruct (decide (r' = r)) as [->|Hne'].
      * rewrite lookup_insert_eq, Hd; simpl.
        destruct (decide (srcs ∖ {[e]} = ∅)) as [Hempty|Hempty].
        -- rewrite lookup_delete_ne by naive_solver. done.
        -- rewrite lookup_insert_ne by naive_solver. done.
      * by rewrite lookup_insert_ne.
Qed.

(** A target that fails the liveness test is rejected before anything
    is written. *)
Lemma unrelate_not_live (s : Store) (g : loc) (self : Entity) (r : string)
    (x : Z) :
  ambient s = Some g → x ∉ entities (world_at s g) →
  unrelate self r x s = (Raise NameError, s).
Proof.
  intros Hg Hx. unfold unrelate. mrun. by rewrite decide_False.
Qed.

(** In a registry that is in order, an edge that is not the entity's
    current one is rejected with [KeyError]. *)
Lemma unrelate_not_current (s : Store) (self : Entity) (r : string) (x : Z) :
  in_order s (world self) →
  x ∈ entities (world_at s (world self)) →
  current_target (world_at s (world self)) (eid self) r ≠ Some x →
  ∃ s', unrelate self r x s = (Raise KeyError, s').
Proof.
  destruct self as [e l]; simpl. intros [Hg Hwf] Hx Hcur.
  assert (Hnot : e ∉ sources (world_at s l) r x).
  { intros Hin. by apply (wf_current_target _ _ _ _ Hwf) in Hin. }
  unfold unrelate, dd_relations, getattr_relations. mrun.
  rewrite decide_True by done. mrun.
  unfold sources in Hnot.
  destruct (relations (world_at s l) !! r) as [d|] eqn:Hd; mrun.
  - simpl in Hnot.
    destruct (d !! x) as [srcs|] eqn:Hsrcs; mrun; [|eauto].
    simpl in Hnot.
    destruct (eid_rels (world_at s l) !! e) as [rs|]; mrun; [|eauto].
    destruct (rs !! r) as [old|]; mrun; [|eauto].
    unfold set_remove. rewrite decide_False by done. mrun. eauto.
  - rewrite lookup_empty. mrun. eauto.
Qed.

(** However [unrelate] ends, it writes the relation tables only. *)
Lemma unrelate_writes_relations_only (self : Entity) (r : string) (x : Z)
    (s : Store) (l : loc) :
  same_but_relations (world_at s l) (world_at (unrelate self r x s).2 l).
Proof.
  assert (Hrefl : ∀ w, same_but_relations w w) by (by intros w).
  assert (Htrans : ∀ a b c, same_but_relations a b →
            same_but_relations b c → same_but_relations a c).
  { unfold same_but_relations. intros a b c ? ?. destruct_and!.
    repeat split; congruence. }
  assert (Hp : preserves same_but_relations (unrelate self r x)).
  { frame_with Hrefl Htrans ltac:(by intros []). }
  apply Hp.
Qed.

(** What a successful [relate] leaves, when the registry already has
    an entry for the relation name.  The bucket of the old target
    keeps its key even when it is left empty. *)
Lemma relate_run (s : Store) (g l : loc) (e : Z) (r : string) (x : Z)
    d0 rs :
  ambient s = Some g → x ∈ entities (world_at s g) →
  relations (world_at s l) !! r = Some d0 →
  eid_rels (world_at s l) !! e = Some rs →
  (∀ old, rs !! r = Some old → ∃ srcs, d0 !! old = Some srcs ∧ e ∈ srcs) →
  let d1 := match rs !! r with
            | Some old => <[old := default ∅ (d0 !! old) ∖ {[e]}]> d0
            | None => d0
            end in
  relate (mkEntity e l) r x s =
    (Ret tt,
     set_world l
       (with_relations
          (insert r (<[x := default ∅ (d1 !! x) ∪ {[e]}]> d1))
          (with_eid_rels (insert e (<[r := x]> rs)) (world_at s l))) s).
Proof.
  intros Hg Hx Hd Hrs Hold d1. subst d1.
  unfold relate, dd_relations, getattr_relations. mrun.
  rewrite decide_True by done. mrun. rewrite Hd. mrun. rewrite Hrs. mrun.
  destruct (rs !! r) as [old|] eqn:Hr; mrun.
  - destruct (Hold old eq_refl) as (srcs & Hsrcs & He).
    rewrite Hd. mrun. rewrite Hsrcs. mrun. rewrite Hrs. mrun.
    rewrite lookup_insert_eq. mrun.
    destruct (<[old:=srcs ∖ {[e]}]> d0 !! x) as [sx|] eqn:Hsx; mrun;
      rewrite lookup_insert_eq; mrun.
    + rewrite Hsx. mrun. simpl. rewrite Hsx. simpl.
      unfold with_relations, with_eid_rels; simpl.
      by rewrite ?insert_insert_eq.
    + rewrite lookup_insert_eq. mrun. simpl. rewrite Hsx. simpl.
      unfold with_relations, with_eid_rels; simpl.
      by rewrite ?insert_insert_eq.
  - rewrite Hrs. mrun. rewrite Hd. mrun.
    destruct (d0 !! x) as [sx|] eqn:Hsx; mrun.
    + rewrite Hd. mrun. rewrite Hsx. mrun. reflexivity.
    + rewrite lookup_insert_eq. mrun. rewrite lookup_insert_eq. mrun.
      unfold with_relations, with_eid_rels; simpl.
      by rewrite ?insert_insert_eq.
Qed.

(** When the registry has no entry for the relation name, the first
    [defaultdict] access stores one, and the call goes on as above. *)
Lemma relate_touch (s : Store) (g l : loc) (e : Z) (r : string) (x : Z) :
  ambient s = Some g → x ∈ entities (world_at s g) →
  relations (world_at s l) !! r = None →
  relate (mkEntity e l) r x s =
  relate (mkEntity e l) r x
    (set_world l (with_relations (insert r ∅) (world_at s l)) s).
Proof.
  intros Hg Hx Hr.
  assert (entities (world_at (set_world l (with_relations <[r:=∅]>
                                (world_at s l)) s) g)
          = entities (world_at s g)) as Hents.
  { destruct (decide (l = g)) as [->|Hne].
    - by rewrite world_at_set_world.
    - by rewrite world_at_set_world_ne. }
  unfold relate, dd_relations. mrun.
  rewrite Hents, decide_True by done. mrun.
  rewrite Hr, lookup_insert_eq. mrun. reflexivity.
Qed.

Lemma relate_post_views e r x w w1 w' :
  same_views w w1 → relate_post e r x w1 w' → relate_post e r x w w'.
Proof.
  intros (Hb & Hc & Ht & Hct & Hsrc) (Hb' & Hc' & Ht' & Hct' & Hsrc').
  unfold relate_post, base_eq, comp_eq, tag_eq in *. destruct_and!.
  repeat split; intros; try congruence.
  - rewrite Hct'. case_decide; [done|]. apply Hct.
  - rewrite Hsrc', !Hct, !Hsrc. done.
Qed.

Lemma relate_ok_entry (s : Store) (g l : loc) (e : Z) (r : string) (x : Z)
    d0 :
  ambient s = Some g → x ∈ entities (world_at s g) →
  relations (world_at s l) !! r = Some d0 →
  is_Some (eid_rels (world_at s l) !! e) →
  (∀ old, current_target (world_at s l) e r = Some old →
          e ∈ sources (world_at s l) r old) →
  ∃ s', relate (mkEntity e l) r x s = (Ret tt, s') ∧
    only_changes l s s' ∧
    relate_post e r x (world_at s l) (world_at s' l).
Proof.
  intros Hg Hx Hd [rs Hrs] Hold.
  assert (Hold' : ∀ old, rs !! r = Some old →
            ∃ srcs, d0 !! old = Some srcs ∧ e ∈ srcs).
  { intros old Hr.
    assert (Hin : e ∈ sources (world_at s l) r old).
    { apply Hold. unfold current_target. by rewrite Hrs. }
    apply elem_of_sources in Hin as (d & srcs & Hd' & Hsrcs & He).
    rewrite Hd in Hd'. injection Hd' as <-. eauto. }
  eexists. split; [by eapply relate_run|].
  split; [apply only_changes_set_world|].
  rewrite world_at_set_world. set (w := world_at s l) in *.
  unfold relate_post. unfold_views. rewrite Hd, Hrs. simpl.
  repeat split; try done.
  - apply dom_insert_lookup_L; eauto.
  - intros e' r'. destruct (decide (e' = e ∧ r' = r)) as [[-> ->]|Hc].
    + rewrite lookup_insert_eq; simpl. by rewrite lookup_insert_eq.
    + destruct (decide (e' = e)) as [->|Hne'].
      * rewrite lookup_insert_eq, Hrs; simpl.
        rewrite lookup_insert_ne by naive_solver. done.
      * by rewrite lookup_insert_ne.
  - intros r' y. destruct (decide (r' = r)) as [->|Hne'];
      [|by rewrite lookup_insert_ne].
    rewrite lookup_insert_eq; simpl.
    destruct (decide (y = x)) as [->|Hy].
    + rewrite lookup_insert_eq; simpl.
      destruct (rs !! r) as [old|]; [|done].
      destruct (decide (old = x)) as [->|Hox].
      * rewrite lookup_insert_eq; simpl. apply difference_union_L.
      * by rewrite lookup_insert_ne.
    + rewrite lookup_insert_ne by done.
      destruct (rs !! r) as [old|].
      * destruct (decide (old = y)) as [->|Hoy].
        -- rewrite lookup_insert_eq, decide_True by done. done.
        -- rewrite lookup_insert_ne, decide_False by congruence. done.
      * by rewrite decide_False.
Qed.

(** [relate] succeeds whenever the target passes the liveness test, the
    entity has its record, and its current edge for the name, if any,
    is in the relations table. *)
Lemma relate_ok (s : Store) (g l : loc) (e : Z) (r : string) (x : Z) :
  ambient s = Some g → x ∈ entities (world_at s g) →
  is_Some (eid_rels (world_at s l) !! e) →
  (∀ old, current_target (world_at s l) e r = Some old →
          e ∈ sources (world_at s l) r old) →
  ∃ s', relate (mkEntity e l) r x s = (Ret tt, s') ∧
    only_changes l s s' ∧
    relate_post e r x (world_at s l) (world_at s' l).
Proof.
  intros Hg Hx Hrs Hold.
  destruct (relations (world_at s l) !! r) as [d0|] eqn:Hd.
  { by eapply relate_ok_entry. }
  pose proof (same_views_touch_relations _ _ Hd) as Hv.
  set (w1 := with_relations <[r:=∅]> (world_at s l)) in *.
  rewrite (relate_touch s g l e r x Hg Hx Hd). fold w1.
  destruct (relate_ok_entry (set_world l w1 s) g l e r x ∅)
    as (s' & Hrun & Hch & Hpost).
  - done.
  - destruct (decide (l = g)) as [->|Hne].
    + by rewrite world_at_set_world.
    + by rewrite world_at_set_world_ne.
  - rewrite world_at_set_world. unfold w1; simpl.
    by rewrite lookup_insert_eq.
  - by rewrite world_at_set_world.
  - rewrite world_at_set_world. intros old.
    destruct Hv as (_ & _ & _ & Hc & Hs). rewrite Hc, Hs. apply Hold.
  - exists s'. split; [done|]. split.
    + eapply only_changes_trans; [apply only_changes_set_world | done].
    + rewrite world_at_set_world in Hpost. by eapply relate_post_views.
Qed.

Lemma base_eq_facets w w' :
  base_eq w w' → facets_registered w → facets_registered w'.
Proof.
  intros (He & Hn & Hd1 & Hd2 & Hd3) (F0 & F1 & F2 & F3).
  unfold facets_registered, ids_fresh. rewrite He, Hn.
  split_and!; [exact F0 | congruence..].
Qed.

(** [relate] and [unrelate] keep the invariants of the registry bound
    to [world]. *)
Lemma relate_post_inv e r x w w' :
  inv_views w → x ∈ entities w → relate_post e r x w w' → inv_views w'.
Proof.
  intros (Hc & Ht & Hr & Hl) Hx
    ((He & _) & (Hc1 & Hc2) & (Ht1 & Ht2) & Hct & Hsrc).
  unfold inv_views, inv_c, inv_t, inv_r, live_r.
  split; [intros; rewrite Hc1, Hc2; apply Hc|].
  split; [intros; rewrite Ht1, Ht2; apply Ht|].
  split.
  - intros e' r' y. rewrite Hct, Hsrc.
    destruct (decide (r' = r)) as [->|Hr'].
    + destruct (decide (e' = e)) as [->|He'].
      * rewrite decide_True by done.
        destruct (decide (y = x)) as [->|Hy]; [set_solver|].
        destruct (decide (current_target w e r = Some y)) as [Hcur|Hcur].
        -- split; [congruence | set_solver].
        -- rewrite <- (Hr e r y). split; [congruence | done].
      * rewrite decide_False by naive_solver. rewrite (Hr e' r y).
        destruct (decide (y = x)) as [->|Hy]; [set_solver|].
        destruct (decide (current_target w e r = Some y)); set_solver.
    + rewrite decide_False by naive_solver. apply Hr.
  - intros e' r' y. rewrite Hct, He. case_decide.
    + by intros [= <-].
    + apply Hl.
Qed.

Lemma unrelate_post_inv e r x w w' :
  inv_views w → e ∈ sources w r x → unrelate_post e r x w w' →
  inv_views w'.
Proof.
  intros (Hc & Ht & Hr & Hl) Hin
    ((He & _) & (Hc1 & Hc2) & (Ht1 & Ht2) & Hct & Hsrc).
  unfold inv_views, inv_c, inv_t, inv_r, live_r.
  split; [intros; rewrite Hc1, Hc2; apply Hc|].
  split; [intros; rewrite Ht1, Ht2; apply Ht|].
  pose proof (proj2 (Hr e r x) Hin) as Hcur.
  split.
  - intros e' r' y. rewrite Hct, Hsrc.
    destruct (decide (e' = e ∧ r' = r)) as [[-> ->]|Hne].
    + split; [done|].
      destruct (decide (r = r ∧ y = x)) as [[_ ->]|Hy]; [set_solver|].
      intros Hy'%Hr. rewrite Hcur in Hy'. naive_solver.
    + rewrite (Hr e' r' y).
      destruct (decide (r' = r ∧ y = x)) as [[-> ->]|Hy]; [|done].
      split; [|set_solver]. intros He'. apply elem_of_difference.
      split; [done|]. intros ->%elem_of_singleton. naive_solver.
  - intros e' r' y. rewrite Hct, He. case_decide; [done | apply Hl].
Qed.

Lemma relate_post_wf e r x w w' :
  wf w → x ∈ entities w → relate_post e r x w w' → wf w'.
Proof.
  rewrite !wf_views. intros [HF HI] Hx Hpost. split.
  - eapply base_eq_facets; [apply Hpost | done].
  - by eapply relate_post_inv.
Qed.

Lemma unrelate_post_wf e r x w w' :
  wf w → e ∈ sources w r x → unrelate_post e r x w w' → wf w'.
Proof.
  rewrite !wf_views. intros [HF HI] Hx Hpost. split.
  - eapply base_eq_facets; [apply Hpost | done].
  - by eapply unrelate_post_inv.
Qed.

(** In a registry that satisfies the invariants, an entity is in the
    source set of at most one target per relation name. *)
Lemma one_target_per_name (w : World) (e : Z) (r : string) (y1 y2 : Z) :
  wf w → e ∈ sources w r y1 → e ∈ sources w r y2 → y1 = y2.
Proof.
  intros Hwf H1%(wf_current_target _ _ _ _ Hwf)
    H2%(wf_current_target _ _ _ _ Hwf).
  congruence.
Qed.

(** After a successful [relate] in such a registry the entity is in the
    source set of the new target and of no other, whatever its former
    target was. *)
Lemma relate_post_unique e r x w w' :
  wf w' → relate_post e r x w w' →
  current_target w' e r = Some x ∧ ∀ y, e ∈ sources w' r y ↔ y = x.
Proof.
  intros Hwf (_ & _ & _ & Hct & _).
  assert (Hcur : current_target w' e r = Some x).
  { rewrite Hct. by rewrite decide_True. }
  split; [done|]. intros y.
  apply wf_views in Hwf as (_ & _ & _ & Hr & _).
  rewrite <- (Hr e r y), Hcur. split; congruence.
Qed.

(** X28: in a registry that is in order, for a live entity and two
    distinct live targets, [relate] to the first and then [relate] to
    the second both succeed.  After each call the entity's current
    target for the name is the target of the call and the entity is in
    the source set of that target and of no other, whatever edge it
    had before: the new edge replaces the prior one.  In particular,
    after the second call the entity is not in the source set of the
    first target.  The registry is in order again. *)
Theorem relate_replaces_target (s : Store) (self : Entity) (r : string)
    (a b : Z) :
  in_order s (world self) →
  eid self ∈ entities (world_at s (world self)) →
  a ∈ entities (world_at s (world self)) →
  b ∈ entities (world_at s (world self)) →
  a ≠ b →
  ∃ s1 s2,
    relate self r a s = (Ret tt, s1) ∧
    current_target (world_at s1 (world self)) (eid self) r = Some a ∧
    (∀ y, eid self ∈ sources (world_at s1 (world self)) r y ↔ y = a) ∧
    relate self r b s1 = (Ret tt, s2) ∧
    current_target (world_at s2 (world self)) (eid self) r = Some b ∧
    (eid self ∉ sources (world_at s2 (world self)) r a) ∧
    (∀ y, eid self ∈ sources (world_at s2 (world self)) r y ↔ y = b) ∧
    in_order s2 (world self).
Proof.
  destruct self as [e l]; simpl. intros [Hg Hwf] He Ha Hb Hab.
  (* the first call *)
  destruct (relate_ok s l l e r a) as (s1 & Hrun1 & [Hg1 _] & Hpost1);
    [done | done | by apply wf_has_rels | |].
  { intros old Hold. apply wf_views in Hwf as (_ & _ & _ & Hr & _).
    by apply (Hr e r old). }
  pose proof (relate_post_wf _ _ _ _ _ Hwf Ha Hpost1) as Hwf1.
  assert (Hents1 : entities (world_at s1 l) = entities (world_at s l)).
  { by destruct Hpost1 as ((? & _) & _). }
  destruct (relate_post_unique _ _ _ _ _ Hwf1 Hpost1) as [Hcur1 Huniq1].
  (* the second call *)
  destruct (relate_ok s1 l l e r b) as (s2 & Hrun2 & [Hg2 _] & Hpost2).
  { congruence. }
  { by rewrite Hents1. }
  { apply wf_has_rels; [done | by rewrite Hents1]. }
  { intros old Hold. apply wf_views in Hwf1 as (_ & _ & _ & Hr & _).
    by apply (Hr e r old). }
  assert (Hwf2 : wf (world_at s2 l)).
  { eapply relate_post_wf; [exact Hwf1 | by rewrite Hents1 | exact Hpost2]. }
  destruct (relate_post_unique _ _ _ _ _ Hwf2 Hpost2) as [Hcur2 Huniq2].
  exists s1, s2. split_and!; try done.
  - intros Hin%Huniq2. done.
  - split; [congruence | done].
Qed.

Lemma relate_replaces_target_witness :
  ∃ s1 s2,
    relate (mkEntity 0 W0) "parent" 1 four_entities = (Ret tt, s1) ∧
    relate (mkEntity 0 W0) "parent" 2 s1 = (Ret tt, s2) ∧
    current_target (world_at s2 W0) 0 "parent" = Some 2 ∧
    (0 ∉ sources (world_at s2 W0) "parent" 1).
Proof.
  destruct (relate_replaces_target four_entities (mkEntity 0 W0) "parent"
              1 2) as (s1 & s2 & H1 & _ & _ & H2 & H3 & H4 & _);
    [by_evaluation.. | discriminate |].
  exists s1, s2. repeat split; assumption.
Defined.

(** * Deleting an entity *)

(** ** The facet removals the cascade is made of *)

Lemma delitem_run (s : Store) (l : loc) (e : Z) (c : Component) d cs :
  components (world_at s l) !! c = Some d → is_Some (d !! e) →
  eid_comps (world_at s l) !! e = Some cs → c ∈ cs →
  Entity_delitem (mkEntity e l) c s =
    (Ret tt,
     set_world l
       (with_eid_comps (insert e (cs ∖ {[c]}))
          (with_components (insert c (delete e d)) (world_at s l))) s).
Proof.
  intros Hd [v Hv] Hcs Hc.
  unfold Entity_delitem, dd_components, getattr_components. mrun.
  rewrite Hd. mrun. rewrite Hv. mrun. rewrite Hcs. mrun. reflexivity.
Qed.

Lemma delitem_ok (s : Store) (l : loc) (e : Z) (c : Component) :
  c ∈ components_of (world_at s l) e →
  e ∈ component_holders (world_at s l) c →
  ∃ s', Entity_delitem (mkEntity e l) c s = (Ret tt, s') ∧
    only_changes l s s' ∧
    delitem_post e c (world_at s l) (world_at s' l).
Proof.
  intros (cs & Hcs & Hc)%elem_of_components_of
    (d & v & Hd & Hv)%elem_of_component_holders.
  eexists. split; [by eapply delitem_run|].
  split; [apply only_changes_set_world|].
  rewrite world_at_set_world. set (w := world_at s l) in *.
  unfold delitem_post. unfold_views. rewrite Hd, Hcs. simpl.
  repeat split; try done.
  - apply dom_insert_lookup_L; eauto.
  - intros e'. destruct (decide (e' = e)) as [->|Hne].
    + by rewrite lookup_insert_eq.
    + by rewrite lookup_insert_ne.
  - intros c'. destruct (decide (c' = c)) as [->|Hne].
    + rewrite lookup_insert_eq; simpl. apply dom_delete_L.
    + by rewrite lookup_insert_ne.
Qed.

Lemma untag_ok (s : Store) (l : loc) (e : Z) (t : Tag) :
  t ∈ tags_of (world_at s l) e →
  e ∈ tag_holders (world_at s l) t →
  ∃ s', untag (mkEntity e l) t s = (Ret tt, s') ∧
    only_changes l s s' ∧
    untag_post e t (world_at s l) (world_at s' l).
Proof.
  intros (ts & Hts & Ht)%elem_of_tags_of (b & Hb & He)%elem_of_tag_holders.
  eexists. split; [by eapply untag_run|].
  split; [apply only_changes_set_world|].
  rewrite world_at_set_world. set (w := world_at s l) in *.
  unfold untag_post. unfold_views. rewrite Hb, Hts. simpl.
  repeat split; try done.
  - apply dom_insert_lookup_L; eauto.
  - intros e'. destruct (decide (e' = e)) as [->|Hne].
    + by rewrite lookup_insert_eq.
    + by rewrite lookup_insert_ne.
  - intros t'. destruct (decide (t' = t)) as [->|Hne].
    + destruct (decide (b ∖ {[e]} = ∅)) as [Hempty|Hempty].
      * by rewrite lookup_delete_eq.
      * by rewrite lookup_insert_eq.
    + destruct (decide (b ∖ {[e]} = ∅)) as [Hempty|Hempty].
      * by rewrite lookup_delete_ne.
      * by rewrite lookup_insert_ne.
Qed.

Lemma delitem_post_inv e c w w' :
  inv_views w → delitem_post e c w w' → inv_views w'.
Proof.
  intros (Hc & Ht & Hr & Hl)
    ((He & _) & (Ht1 & Ht2) & (Hr1 & Hr2) & Hco & Hch).
  unfold inv_views, inv_c, inv_t, inv_r, live_r.
  split; [|split; [|split]].
  - intros e' c'. rewrite Hco, Hch.
    specialize (Hc e' c').
    destruct (decide (e' = e)) as [->|?], (decide (c' = c)) as [->|?];
      set_solver.
  - intros. rewrite Ht1, Ht2. apply Ht.
  - intros. rewrite Hr1, Hr2. apply Hr.
  - intros e' r y. rewrite Hr1, He. apply Hl.
Qed.

Lemma untag_post_inv e t w w' :
  inv_views w → untag_post e t w w' → inv_views w'.
Proof.
  intros (Hc & Ht & Hr & Hl)
    ((He & _) & (Hc1 & Hc2) & (Hr1 & Hr2) & Hto & Hth).
  unfold inv_views, inv_c, inv_t, inv_r, live_r.
  split; [|split; [|split]].
  - intros. rewrite Hc1, Hc2. apply Hc.
  - intros e' t'. rewrite Hto, Hth.
    specialize (Ht e' t').
    destruct (decide (e' = e)) as [->|?], (decide (t' = t)) as [->|?];
      set_solver.
  - intros. rewrite Hr1, Hr2. apply Hr.
  - intros e' r y. rewrite Hr1, He. apply Hl.
Qed.

(** ** The loop rule

    A [for] loop whose body succeeds from every state that satisfies
    the invariant, writes registry [l] only and re-establishes the
    invariant for the remaining elements, succeeds. *)
Lemma for_each_loop {A} (l : loc) (I : list A → World → Prop)
    (body : A → M unit) (s0 : Store) :
  (∀ x xs s, ambient s = ambient s0 → I (x :: xs) (world_at s l) →
     ∃ s', body x s = (Ret tt, s') ∧ only_changes l s s' ∧
           I xs (world_at s' l)) →
  ∀ xs s, ambient s = ambient s0 → I xs (world_at s l) →
    ∃ s', for_each xs body s = (Ret tt, s') ∧ only_changes l s s' ∧
          I [] (world_at s' l).
Proof.
  intros Hbody. induction xs as [|x xs IH]; intros s Hamb HI; simpl.
  - exists s. split; [done|]. split; [apply only_changes_refl | done].
  - destruct (Hbody x xs s Hamb HI) as (s1 & Hrun & Hch & HI1).
    destruct (IH s1) as (s2 & Hrest & Hch2 & HI2); [|done|].
    { destruct Hch as [-> _]. done. }
    exists s2. rewrite (bind_run _ _ _ _ _ Hrun).
    split; [done|]. split; [by eapply only_changes_trans | done].
Qed.

(** ** Bookkeeping *)

Lemma base_eq_trans a b c : base_eq a b → base_eq b c → base_eq a c.
Proof. unfold base_eq. intros. destruct_and!. repeat split; congruence. Qed.

Lemma comp_eq_trans a b c : comp_eq a b → comp_eq b c → comp_eq a c.
Proof.
  intros [H1 H2] [H3 H4]. split; intros; [by rewrite H3 | by rewrite H4].
Qed.

Lemma tag_eq_trans a b c : tag_eq a b → tag_eq b c → tag_eq a c.
Proof.
  intros [H1 H2] [H3 H4]. split; intros; [by rewrite H3 | by rewrite H4].
Qed.

Lemma rel_eq_trans a b c : rel_eq a b → rel_eq b c → rel_eq a c.
Proof.
  intros [H1 H2] [H3 H4]. split; intros; [by rewrite H3 | by rewrite H4].
Qed.

Lemma shrinks_refl w : shrinks w w.
Proof. by split. Qed.

Lemma shrinks_trans a b c : shrinks a b → shrinks b c → shrinks a c.
Proof. intros [H1 H2] [H3 H4]. split; [congruence | eauto]. Qed.

Lemma rel_eq_shrinks w w' : base_eq w w' → rel_eq w w' → shrinks w w'.
Proof.
  intros (He & _) [Hct _]. split; [done|]. intros e r y. by rewrite Hct.
Qed.

Lemma unrelate_post_shrinks e r x w w' :
  unrelate_post e r x w w' → shrinks w w'.
Proof.
  intros ((He & _) & _ & _ & Hct & _). split; [done|].
  intros e' r' y. rewrite Hct. by case_decide.
Qed.

Lemma inv_views_same_views w w' :
  entities w' = entities w → comp_eq w w' → tag_eq w w' → rel_eq w w' →
  inv_views w → inv_views w'.
Proof.
  intros He (Hc1 & Hc2) (Ht1 & Ht2) (Hr1 & Hr2) (Hc & Ht & Hr & Hl).
  unfold inv_views, inv_c, inv_t, inv_r, live_r.
  repeat split; intros.
  - rewrite Hc1, Hc2 in *. by apply Hc.
  - rewrite Hc1, Hc2 in *. by apply Hc.
  - rewrite Ht1, Ht2 in *. by apply Ht.
  - rewrite Ht1, Ht2 in *. by apply Ht.
  - rewrite Hr1, Hr2 in *. by apply Hr.
  - rewrite Hr1, Hr2 in *. by apply Hr.
  - rewrite He. rewrite Hr1 in *. eauto.
Qed.

Lemma detached_base_eq e w w' :
  base_eq w w' → inv_views w' → detached e w → detached e w'.
Proof.
  intros (He & Hn & Hd1 & Hd2 & Hd3) Hinv (Hlive & D0 & D1 & D2 & D3 & _).
  unfold detached, ids_fresh in *. rewrite He, Hn, Hd1, Hd2, Hd3. done.
Qed.

Lemma delitem_post_wf e c w w' : wf w → delitem_post e c w w' → wf w'.
Proof.
  rewrite !wf_views. intros [HF HI] Hpost. split.
  - eapply base_eq_facets; [apply Hpost | done].
  - by eapply delitem_post_inv.
Qed.

Lemma untag_post_wf e t w w' : wf w → untag_post e t w w' → wf w'.
Proof.
  rewrite !wf_views. intros [HF HI] Hpost. split.
  - eapply base_eq_facets; [apply Hpost | done].
  - by eapply untag_post_inv.
Qed.

Lemma getattr_components_run s l e cs :
  eid_comps (world_at s l) !! e = Some cs →
  getattr_components (mkEntity e l) s = (Ret cs, s).
Proof. intros H. unfold getattr_components. mrun. by rewrite H. Qed.

Lemma getattr_tags_run s l e ts :
  eid_tags (world_at s l) !! e = Some ts →
  getattr_tags (mkEntity e l) s = (Ret ts, s).
Proof. intros H. unfold getattr_tags. mrun. by rewrite H. Qed.

Lemma getattr_relations_run s l e rs :
  eid_rels (world_at s l) !! e = Some rs →
  getattr_relations (mkEntity e l) s = (Ret rs, s).
Proof. intros H. unfold getattr_relations. mrun. by rewrite H. Qed.

Lemma Entity_init_dead s l e :
  e ∉ entities (world_at s l) → Entity_init e l s = (Raise NameError, s).
Proof. intros H. unfold Entity_init. mrun. by rewrite decide_False. Qed.

Lemma Entity_init_run s l e :
  e ∈ entities (world_at s l) → Entity_init e l s = (Ret (mkEntity e l), s).
Proof. intros H. unfold Entity_init. mrun. by rewrite decide_True. Qed.

Lemma elem_of_keys {V} (m : gmap string V) r : r ∈ keys m ↔ is_Some (m !! r).
Proof.
  unfold keys. rewrite list_elem_of_fmap. split.
  - intros ([r' v] & -> & Hin). apply elem_of_map_to_list in Hin. eauto.
  - intros [v Hv]. exists (r, v). split; [done|].
    by apply elem_of_map_to_list.
Qed.

Lemma NoDup_keys {V} (m : gmap string V) : NoDup (keys m).
Proof. apply NoDup_fst_map_to_list. Qed.

(** ** The phases of [delete_entity] *)

Section Cascade.
Variable l : loc.
Variable e : Z.

(** Lines 106-107: every component of [e] is removed. *)
Lemma clear_components (s : Store) (cs : gset Component)
    (ks : list Component) :
  wf (world_at s l) →
  eid_comps (world_at s l) !! e = Some cs →
  NoDup ks → (∀ c, c ∈ ks ↔ c ∈ cs) →
  ∃ s', for_each ks (Entity_delitem (mkEntity e l)) s = (Ret tt, s') ∧
    only_changes l s s' ∧ wf (world_at s' l) ∧
    base_eq (world_at s l) (world_at s' l) ∧
    tag_eq (world_at s l) (world_at s' l) ∧
    rel_eq (world_at s l) (world_at s' l) ∧
    components_of (world_at s' l) e = ∅.
Proof.
  intros Hwf Hcs Hnodup Henum.
  pose (I := λ (xs : list Component) (w : World),
          wf w ∧ base_eq (world_at s l) w ∧ tag_eq (world_at s l) w ∧
          rel_eq (world_at s l) w ∧
          NoDup xs ∧ ∀ c, c ∈ components_of w e ↔ c ∈ xs).
  destruct (for_each_loop l I (Entity_delitem (mkEntity e l)) s)
    with (xs := ks) (s := s)
    as (s' & Hrun & Hch & Hwf' & Hb & Ht & Hr & _ & Hall).
  - intros x xs s1 _ (Hwf1 & Hb1 & Ht1 & Hr1 & Hnd & Hin).
    apply NoDup_cons in Hnd as [Hx Hnd].
    assert (Hxe : x ∈ components_of (world_at s1 l) e)
      by (apply Hin; left).
    destruct (delitem_ok s1 l e x) as (s2 & Hrun & Hch & Hpost);
      [done | |].
    { apply wf_views in Hwf1 as (_ & Hc & _). by apply (Hc e x). }
    exists s2. split; [done|]. split; [done|].
    pose proof Hpost as (Hb2 & Ht2 & Hr2 & Hco & _).
    split; [by eapply delitem_post_wf|].
    split; [by eapply base_eq_trans|].
    split; [by eapply tag_eq_trans|].
    split; [by eapply rel_eq_trans|].
    split; [done|].
    intros c. rewrite Hco, decide_True by done.
    rewrite elem_of_difference, Hin, elem_of_cons, elem_of_singleton.
    split; [naive_solver|]. intros Hc. split; [by right|].
    by intros ->.
  - done.
  - unfold I. split_and!; try done.
    intros c. rewrite Henum, elem_of_components_of. split.
    + intros (cs' & Hcs' & Hc). congruence.
    + eauto.
  - exists s'. split_and!; try done.
    apply elem_of_equiv_empty_L. intros c Hc%Hall.
    by apply elem_of_nil in Hc.
Qed.
(** Lines 108-109: every tag of [e] is removed. *)
Lemma clear_tags (s : Store) (ts : gset Tag) (ks : list Tag) :
  wf (world_at s l) →
  eid_tags (world_at s l) !! e = Some ts →
  NoDup ks → (∀ t, t ∈ ks ↔ t ∈ ts) →
  ∃ s', for_each ks (untag (mkEntity e l)) s = (Ret tt, s') ∧
    only_changes l s s' ∧ wf (world_at s' l) ∧
    base_eq (world_at s l) (world_at s' l) ∧
    comp_eq (world_at s l) (world_at s' l) ∧
    rel_eq (world_at s l) (world_at s' l) ∧
    tags_of (world_at s' l) e = ∅.
Proof.
  intros Hwf Hts Hnodup Henum.
  pose (I := λ (xs : list Tag) (w : World),
          wf w ∧ base_eq (world_at s l) w ∧ comp_eq (world_at s l) w ∧
          rel_eq (world_at s l) w ∧
          NoDup xs ∧ ∀ t, t ∈ tags_of w e ↔ t ∈ xs).
  destruct (for_each_loop l I (untag (mkEntity e l)) s)
    with (xs := ks) (s := s)
    as (s' & Hrun & Hch & Hwf' & Hb & Hc & Hr & _ & Hall).
  - intros x xs s1 _ (Hwf1 & Hb1 & Hc1 & Hr1 & Hnd & Hin).
    apply NoDup_cons in Hnd as [Hx Hnd].
    assert (Hxe : x ∈ tags_of (world_at s1 l) e) by (apply Hin; left).
    destruct (untag_ok s1 l e x) as (s2 & Hrun & Hch & Hpost);
      [done | |].
    { apply wf_views in Hwf1 as (_ & _ & Ht & _). by apply (Ht e x). }
    exists s2. split; [done|]. split; [done|].
    pose proof Hpost as (Hb2 & Hc2 & Hr2 & Hto & _).
    unfold I. split_and!; try done.
    + by eapply untag_post_wf.
    + by eapply base_eq_trans.
    + by eapply comp_eq_trans.
    + by eapply rel_eq_trans.
    + intros t. rewrite Hto, decide_True by done.
      rewrite elem_of_difference, Hin, elem_of_cons, elem_of_singleton.
      split; [naive_solver|]. intros Ht. split; [by right|].
      by intros ->.
  - done.
  - unfold I. split_and!; try done.
    intros t. rewrite Henum, elem_of_tags_of. split.
    + intros (ts' & Hts' & Ht). congruence.
    + eauto.
  - exists s'. split_and!; try done.
    apply elem_of_equiv_empty_L. intros t Ht%Hall.
    by apply elem_of_nil in Ht.
Qed.

(** Lines 110-111: every edge that leaves [e] is removed. *)
Lemma clear_outgoing (s : Store) (rs : gmap string Z)
    (ks : list string) :
  ambient s = Some l →
  wf (world_at s l) →
  eid_rels (world_at s l) !! e = Some rs →
  NoDup ks → (∀ r, r ∈ ks ↔ is_Some (rs !! r)) →
  ∃ s', for_each ks (detach_outgoing (mkEntity e l)) s = (Ret tt, s') ∧
    only_changes l s s' ∧ wf (world_at s' l) ∧
    base_eq (world_at s l) (world_at s' l) ∧
    comp_eq (world_at s l) (world_at s' l) ∧
    tag_eq (world_at s l) (world_at s' l) ∧
    shrinks (world_at s l) (world_at s' l) ∧
    ∀ r, current_target (world_at s' l) e r = None.
Proof.
  intros Hamb Hwf Hrs Hnodup Henum.
  pose (I := λ (xs : list string) (w : World),
          wf w ∧ base_eq (world_at s l) w ∧ comp_eq (world_at s l) w ∧
          tag_eq (world_at s l) w ∧ shrinks (world_at s l) w ∧
          NoDup xs ∧ ∀ r, is_Some (current_target w e r) ↔ r ∈ xs).
  destruct (for_each_loop l I (detach_outgoing (mkEntity e l)) s)
    with (xs := ks) (s := s)
    as (s' & Hrun & Hch & Hwf' & Hb & Hc & Ht & Hsh & _ & Hall).
  - intros r xs s1 Hamb1 (Hwf1 & Hb1 & Hc1 & Ht1 & Hsh1 & Hnd & Hin).
    apply NoDup_cons in Hnd as [Hx Hnd].
    assert (Hcur : is_Some (current_target (world_at s1 l) e r))
      by (apply Hin; left).
    pose proof Hcur as [x Hx'].
    pose proof Hx' as (rs1 & Hrs1 & Hr1)%current_target_Some.
    pose proof Hwf1 as (_ & _ & _ & Hinv & Hlive)%wf_views.
    assert (Hbody : detach_outgoing (mkEntity e l) r s1
                    = unrelate (mkEntity e l) r x s1).
    { unfold detach_outgoing.
      rewrite (bind_run _ _ _ _ _ (getattr_relations_run _ _ _ _ Hrs1)).
      rewrite Hr1. reflexivity. }
    rewrite Hbody.
    destruct (unrelate_ok s1 l l e r x) as (s2 & Hrun & Hch & Hpost).
    { congruence. }
    { by apply (Hlive e r x). }
    { by apply (Hinv e r x). }
    { done. }
    exists s2. split; [done|]. split; [done|].
    pose proof Hpost as (Hb2 & Hc2 & Ht2 & Hct & _).
    unfold I. split_and!; try done.
    + eapply unrelate_post_wf; [done | | done]. by apply (Hinv e r x).
    + by eapply base_eq_trans.
    + by eapply comp_eq_trans.
    + by eapply tag_eq_trans.
    + eapply shrinks_trans; [done|]. by eapply unrelate_post_shrinks.
    + intros r'. rewrite Hct. destruct (decide (r' = r)) as [->|Hne].
      * rewrite decide_True by done. split.
        -- by intros [? ?].
        -- done.
      * rewrite decide_False by naive_solver.
        rewrite Hin, elem_of_cons. naive_solver.
  - done.
  - unfold I. split_and!; try done.
    intros r. rewrite Henum. unfold current_target. by rewrite Hrs.
  - exists s'. split_and!; try done.
    intros r. destruct (current_target (world_at s' l) e r) eqn:Hcur;
      [|done].
    assert (r ∈ @nil string) as Hr%elem_of_nil by (apply Hall; eauto).
    done.
Qed.
(** Lines 112-114: the per-entity records of [e] are deleted. *)
Lemma del_records_run {B} (k : M B) (s : Store) :
  is_Some (eid_comps (world_at s l) !! e) →
  is_Some (eid_tags (world_at s l) !! e) →
  is_Some (eid_rels (world_at s l) !! e) →
  (let! _ := del_eid_comps l e in
   let! _ := del_eid_tags l e in
   let! _ := del_eid_rels l e in k) s =
  k (set_world l
       (with_eid_rels (delete e)
          (with_eid_tags (delete e)
             (with_eid_comps (delete e) (world_at s l)))) s).
Proof.
  intros [cs Hcs] [ts Hts] [rs Hrs].
  unfold del_eid_comps, del_eid_tags, del_eid_rels. mrun.
  rewrite Hcs. mrun. rewrite Hts. mrun. rewrite Hrs. mrun. reflexivity.
Qed.

Lemma detached_after_drop (w : World) :
  wf w → e ∈ entities w →
  components_of w e = ∅ → tags_of w e = ∅ →
  (∀ r, current_target w e r = None) →
  let w' := with_eid_rels (delete e)
              (with_eid_tags (delete e) (with_eid_comps (delete e) w)) in
  detached e w' ∧ shrinks w w'.
Proof.
  intros ((F0 & F1 & F2 & F3) & Hinv)%wf_views He Hc Ht Hr w'.
  assert (Hce : comp_eq w w').
  { split; [|done]. intros e'. unfold w', components_of in *; simpl.
    destruct (decide (e' = e)) as [->|Hne].
    - by rewrite lookup_delete_eq, Hc.
    - by rewrite lookup_delete_ne. }
  assert (Hte : tag_eq w w').
  { split; [|done]. intros e'. unfold w', tags_of in *; simpl.
    destruct (decide (e' = e)) as [->|Hne].
    - by rewrite lookup_delete_eq, Ht.
    - by rewrite lookup_delete_ne. }
  assert (Hre : rel_eq w w').
  { split; [|done]. intros e' r. unfold w', current_target in *; simpl.
    destruct (decide (e' = e)) as [->|Hne].
    - rewrite lookup_delete_eq, Hr. simpl. by rewrite lookup_empty.
    - by rewrite lookup_delete_ne. }
  split.
  - unfold detached, w'; simpl. rewrite !dom_delete_L, F1, F2, F3.
    split_and!; try done.
    by apply (inv_views_same_views w).
  - split; [done|]. intros e' r y. destruct Hre as [Hct _].
    by rewrite Hct.
Qed.

(** The inner loop of lines 116-118: every source that points at [e]
    under the name [r] is detached. *)
Lemma detach_sources (s : Store) (r : string) (ks : list Z) :
  ambient s = Some l →
  detached e (world_at s l) →
  NoDup ks → (∀ cid, cid ∈ ks ↔ cid ∈ sources (world_at s l) r e) →
  ∃ s', for_each ks (detach_incoming r e) s = (Ret tt, s') ∧
    only_changes l s s' ∧ detached e (world_at s' l) ∧
    shrinks (world_at s l) (world_at s' l) ∧
    sources (world_at s' l) r e = ∅ ∧
    ∀ r', r' ≠ r →
          sources (world_at s' l) r' e = sources (world_at s l) r' e.
Proof.
  intros Hamb Hdet Hnodup Henum.
  pose (I := λ (xs : list Z) (w : World),
          detached e w ∧ shrinks (world_at s l) w ∧ NoDup xs ∧
          (∀ cid, cid ∈ sources w r e ↔ cid ∈ xs) ∧
          ∀ r', r' ≠ r → sources w r' e = sources (world_at s l) r' e).
  destruct (for_each_loop l I (detach_incoming r e) s)
    with (xs := ks) (s := s)
    as (s' & Hrun & Hch & Hdet' & Hsh & _ & Hall & Hother).
  - intros cid xs s1 Hamb1 (Hdet1 & Hsh1 & Hnd & Hin & Hoth).
    apply NoDup_cons in Hnd as [Hx Hnd].
    assert (Hsrc : cid ∈ sources (world_at s1 l) r e)
      by (apply Hin; left).
    pose proof Hdet1 as (Hlive & _ & _ & _ & D3 & Hinv).
    pose proof Hinv as (_ & _ & Hr & _).
    assert (Hcur : current_target (world_at s1 l) cid r = Some e)
      by (by apply (Hr cid r e)).
    assert (Hcid : cid ∈ entities (world_at s1 l)).
    { apply current_target_Some in Hcur as (rs & Hrs & _).
      assert (cid ∈ dom (eid_rels (world_at s1 l))) as Hd
        by (apply elem_of_dom; eauto).
      rewrite D3 in Hd. set_solver. }
    assert (Hbody : detach_incoming r e cid s1
                    = unrelate (mkEntity cid l) r e s1).
    { unfold detach_incoming.
      erewrite run_bind_global by (rewrite Hamb1; exact Hamb).
      by rewrite (bind_run _ _ _ _ _ (Entity_init_run _ _ _ Hcid)). }
    rewrite Hbody.
    destruct (unrelate_ok s1 l l cid r e) as (s2 & Hrun & Hch & Hpost);
      [congruence | done | done | by rewrite Hcur |].
    exists s2. split; [done|]. split; [done|].
    pose proof Hpost as (Hb2 & _ & _ & _ & Hsrc2).
    unfold I. split_and!.
    + eapply detached_base_eq; [done | | done].
      by eapply unrelate_post_inv.
    + eapply shrinks_trans; [done|]. by eapply unrelate_post_shrinks.
    + done.
    + intros cid'. rewrite Hsrc2, decide_True by done.
      rewrite elem_of_difference, Hin, elem_of_cons, elem_of_singleton.
      split; [naive_solver|]. intros Hc. split; [by right|].
      by intros ->.
    + intros r' Hne. rewrite Hsrc2, decide_False by naive_solver.
      by apply Hoth.
  - done.
  - unfold I. split_and!; done.
  - exists s'. split_and!; try done.
    apply elem_of_equiv_empty_L. intros cid Hc%Hall.
    by apply elem_of_nil in Hc.
Qed.

(** The body of the loop of line 115. *)
Lemma detach_relation_ok (s : Store) (r : string) :
  ambient s = Some l →
  detached e (world_at s l) →
  ∃ s', detach_relation l e r s = (Ret tt, s') ∧
    only_changes l s s' ∧ detached e (world_at s' l) ∧
    shrinks (world_at s l) (world_at s' l) ∧
    sources (world_at s' l) r e = ∅ ∧
    ∀ r', r' ≠ r →
          sources (world_at s' l) r' e = sources (world_at s l) r' e.
Proof.
  intros Hamb Hdet.
  destruct (dd_relations_view l r s) as (d & s1 & Hrun & Hd & Hch & Hv).
  pose proof Hv as (Hb & Hc & Ht & Hr).
  assert (Hdet1 : detached e (world_at s1 l)).
  { eapply detached_base_eq; [done | | done].
    destruct Hdet as (_ & _ & _ & _ & _ & Hinv).
    eapply inv_views_same_views; [apply Hb | done..]. }
  destruct (detach_sources s1 r (elements (sources (world_at s1 l) r e)))
    as (s2 & Hrun2 & Hch2 & Hdet2 & Hsh2 & Hempty & Hoth);
    [|done|apply NoDup_elements|intros cid; apply elem_of_elements|].
  { destruct Hch as [-> _]. done. }
  exists s2. unfold detach_relation.
  rewrite (bind_run _ _ _ _ _ Hrun), Hd.
  rewrite <- (same_views_sources _ _ r e Hv).
  split_and!; try done.
  - by eapply only_changes_trans.
  - eapply shrinks_trans; [|done]. by apply rel_eq_shrinks.
  - intros r' Hne. rewrite Hoth by done. by apply same_views_sources.
Qed.

(** Lines 115-118: every edge that points at [e] is removed. *)
Lemma clear_incoming (s : Store) (names : list string) :
  ambient s = Some l →
  detached e (world_at s l) →
  (∀ r, r ∉ names → sources (world_at s l) r e = ∅) →
  ∃ s', for_each names (detach_relation l e) s = (Ret tt, s') ∧
    only_changes l s s' ∧ detached e (world_at s' l) ∧
    shrinks (world_at s l) (world_at s' l) ∧
    ∀ r, sources (world_at s' l) r e = ∅.
Proof.
  intros Hamb Hdet Hrest.
  pose (I := λ (xs : list string) (w : World),
          detached e w ∧ shrinks (world_at s l) w ∧
          ∀ r, r ∉ xs → sources w r e = ∅).
  destruct (for_each_loop l I (detach_relation l e) s)
    with (xs := names) (s := s) as (s' & Hrun & Hch & Hdet' & Hsh & Hall).
  - intros r xs s1 Hamb1 (Hdet1 & Hsh1 & Hdone).
    destruct (detach_relation_ok s1 r)
      as (s2 & Hrun & Hch & Hdet2 & Hsh2 & Hempty & Hoth);
      [congruence | done |].
    exists s2. split; [done|]. split; [done|].
    unfold I. split_and!; try done.
    + by eapply shrinks_trans.
    + intros r' Hnot. destruct (decide (r' = r)) as [->|Hne]; [done|].
      rewrite Hoth by done. apply Hdone.
      rewrite elem_of_cons. naive_solver.
  - done.
  - unfold I. split_and!; done.
  - exists s'. split_and!; try done.
    intros r. apply Hall. apply not_elem_of_nil.
Qed.

(** Line 119: with no edge left at [e], taking it out of the live
    set leaves a registry that satisfies the invariants. *)
Lemma removed_wf (w : World) :
  detached e w → (∀ r, sources w r e = ∅) →
  wf (with_entities (λ _, entities w ∖ {[e]}) w).
Proof.
  intros (Hlive & D0 & D1 & D2 & D3 & Hc & Ht & Hr & Hl) Hnone.
  apply wf_views. split.
  { unfold facets_registered; simpl. split_and!; try done.
    intros x Hx. apply D0. set_solver. }
  unfold inv_views, inv_c, inv_t, inv_r, live_r. split_and!; try done.
  intros e' r y Hcur. simpl. apply elem_of_difference. split.
  - by apply (Hl e' r y).
  - intros ->%elem_of_singleton.
    apply (Hr e' r e) in Hcur. rewrite Hnone in Hcur. set_solver.
Qed.
End Cascade.

(** ** The cascade *)

(** In a registry that is in order, deleting a live entity succeeds:
    no edge points at it any more, no other entity gains a current
    target or changes one, only the deleted id leaves the live set,
    and the registry is in order again. *)
Lemma delete_entity_ok (s : Store) (self : loc) (e2 : Z) :
  in_order s self →
  e2 ∈ entities (world_at s self) →
  ∃ s',
    delete_entity self e2 s = (Ret tt, s') ∧
    only_changes self s s' ∧
    (∀ r, sources (world_at s' self) r e2 = ∅) ∧
    (∀ e r y, current_target (world_at s' self) e r = Some y →
              current_target (world_at s self) e r = Some y ∧ y ≠ e2) ∧
    entities (world_at s' self) = entities (world_at s self) ∖ {[e2]} ∧
    in_order s' self.
Proof.
  intros [Hamb Hwf] Hlive.
  (* lines 105-107 *)
  destruct (wf_has_comps _ _ Hwf Hlive) as [cs Hcs].
  destruct (clear_components self e2 s cs (elements cs) Hwf Hcs)
    as (s1 & Hrun1 & Hch1 & Hwf1 & Hb1 & _ & Hr1 & Hnoc);
    [apply NoDup_elements | intros c; apply elem_of_elements |].
  assert (Hlive1 : e2 ∈ entities (world_at s1 self)).
  { destruct Hb1 as (-> & _). done. }
  (* lines 108-109 *)
  destruct (wf_has_tags _ _ Hwf1 Hlive1) as [ts Hts].
  destruct (clear_tags self e2 s1 ts (elements ts) Hwf1 Hts)
    as (s2 & Hrun2 & Hch2 & Hwf2 & Hb2 & Hc2 & Hr2 & Hnot);
    [apply NoDup_elements | intros t; apply elem_of_elements |].
  assert (Hlive2 : e2 ∈ entities (world_at s2 self)).
  { destruct Hb2 as (-> & _). done. }
  (* lines 110-111 *)
  destruct (wf_has_rels _ _ Hwf2 Hlive2) as [rs Hrs].
  assert (Hamb2 : ambient s2 = Some self).
  { destruct Hch1 as [Ha1 _], Hch2 as [Ha2 _]. congruence. }
  destruct (clear_outgoing self e2 s2 rs (keys rs) Hamb2 Hwf2 Hrs)
    as (s3 & Hrun3 & Hch3 & Hwf3 & Hb3 & Hc3 & Ht3 & Hsh3 & Hnor);
    [apply NoDup_keys | intros r'; apply elem_of_keys |].
  assert (Hlive3 : e2 ∈ entities (world_at s3 self)).
  { destruct Hb3 as (-> & _). done. }
  assert (Hamb3 : ambient s3 = Some self).
  { destruct Hch3 as [Ha3 _]. congruence. }
  (* lines 112-114 *)
  set (w4 := with_eid_rels (delete e2)
               (with_eid_tags (delete e2)
                  (with_eid_comps (delete e2) (world_at s3 self)))).
  destruct (detached_after_drop e2 (world_at s3 self)) as [Hdet4 Hsh4];
    [done | done | | | done |].
  { destruct Hc3 as [Hc3 _]. by rewrite Hc3, (proj1 Hc2). }
  { destruct Ht3 as [Ht3 _]. by rewrite Ht3. }
  fold w4 in Hdet4, Hsh4.
  (* lines 115-118 *)
  destruct (clear_incoming self e2 (set_world self w4 s3)
              (keys (relations w4)))
    as (s5 & Hrun5 & Hch5 & Hdet5 & Hsh5 & Hnone).
  { done. }
  { by rewrite world_at_set_world. }
  { rewrite world_at_set_world. intros r' Hnot'.
    unfold sources. rewrite elem_of_keys, <- eq_None_not_Some in Hnot'.
    by rewrite Hnot'. }
  rewrite world_at_set_world in Hsh5.
  (* line 119 *)
  pose proof Hdet5 as (Hlive5 & _).
  eexists. split.
  { unfold delete_entity.
    rewrite (bind_run _ _ _ _ _ (Entity_init_run _ _ _ Hlive)).
    rewrite (bind_run _ _ _ _ _ (getattr_components_run _ _ _ _ Hcs)).
    rewrite (bind_run _ _ _ _ _ Hrun1).
    rewrite (bind_run _ _ _ _ _ (getattr_tags_run _ _ _ _ Hts)).
    rewrite (bind_run _ _ _ _ _ Hrun2).
    rewrite (bind_run _ _ _ _ _ (getattr_relations_run _ _ _ _ Hrs)).
    rewrite (bind_run _ _ _ _ _ Hrun3).
    rewrite del_records_run;
      [| by apply wf_has_comps | by apply wf_has_tags
       | by apply wf_has_rels].
    fold w4. rewrite run_bind_read, world_at_set_world.
    rewrite (bind_run _ _ _ _ _ Hrun5).
    rewrite run_bind_read, run_bind_set_remove by done.
    rewrite run_modify. reflexivity. }
  rewrite world_at_set_world.
  set (w5 := world_at s5 self) in *.
  assert (Hsh : shrinks (world_at s self) w5).
  { eapply shrinks_trans; [by apply rel_eq_shrinks|].
    eapply shrinks_trans; [by apply rel_eq_shrinks|].
    eapply shrinks_trans; [done|].
    eapply shrinks_trans; done. }
  destruct Hsh as [Hents Hmono].
  assert (Hsrc : ∀ r, sources (with_entities (λ _, entities w5 ∖ {[e2]}) w5)
                        r e2 = ∅).
  { intros r. unfold sources; simpl. apply Hnone. }
  split_and!.
  - eapply only_changes_trans; [|apply only_changes_set_world].
    eapply only_changes_trans; [exact Hch1|].
    eapply only_changes_trans; [exact Hch2|].
    eapply only_changes_trans; [exact Hch3|].
    eapply only_changes_trans; [apply only_changes_set_world | exact Hch5].
  - exact Hsrc.
  - intros e r y Hy.
    assert (Hy5 : current_target w5 e r = Some y) by exact Hy.
    split; [by apply Hmono|]. intros ->.
    destruct Hdet5 as (_ & _ & _ & _ & _ & _ & _ & Hinv & _).
    apply (Hinv e r e2) in Hy5. rewrite Hnone in Hy5. set_solver.
  - simpl. by rewrite Hents.
  - split.
    + rewrite ambient_set_world. destruct Hch5 as [-> _].
      by rewrite ambient_set_world.
    + rewrite world_at_set_world. by apply removed_wf.
Qed.

(** X27: in a registry that is in order, when the current target of
    [e1] for the name [r] is [e2] (both are then live),
    [delete_entity] of [e2] succeeds; afterwards [e1] is not in the
    source set of [e2] under [r], [e1] has no current target for [r],
    and the live set has lost [e2] and nothing else, so that [e1] is
    still live unless it is [e2] itself.  The registry is in order
    again. *)
Theorem delete_entity_detaches (s : Store) (self : loc) (e1 e2 : Z)
    (r : string) :
  in_order s self →
  current_target (world_at s self) e1 r = Some e2 →
  ∃ s',
    delete_entity self e2 s = (Ret tt, s') ∧
    (e1 ∉ sources (world_at s' self) r e2) ∧
    current_target (world_at s' self) e1 r = None ∧
    entities (world_at s' self) = entities (world_at s self) ∖ {[e2]} ∧
    (e1 ≠ e2 → e1 ∈ entities (world_at s' self)) ∧
    in_order s' self.
Proof.
  intros Hord Hcur. pose proof Hord as [Hamb Hwf].
  pose proof Hwf as (HF & _ & _ & Hinv & Hl)%wf_views.
  assert (Hlive2 : e2 ∈ entities (world_at s self))
    by (by apply (Hl e1 r e2)).
  assert (Hlive1 : e1 ∈ entities (world_at s self)).
  { by apply (wf_source_live _ e1 r e2), (Hinv e1 r e2). }
  destruct (delete_entity_ok s self e2 Hord Hlive2)
    as (s' & Hrun & _ & Hnone & Hmono & Hents & Hord').
  exists s'. split_and!; try done.
  - rewrite Hnone. set_solver.
  - destruct (current_target (world_at s' self) e1 r) as [y|] eqn:Hy;
      [|done].
    destruct (Hmono _ _ _ Hy) as [Hy0 Hne]. congruence.
  - intros Hne. rewrite Hents. set_solver.
Qed.

Lemma delete_entity_detaches_witness :
  ∃ s',
    delete_entity W0 2 likes_store = (Ret tt, s') ∧
    (1 ∉ sources (world_at s' W0) "likes" 2) ∧
    current_target (world_at s' W0) 1 "likes" = None ∧
    entities (world_at s' W0) = entities (world_at likes_store W0) ∖ {[2]}.
Proof.
  destruct (delete_entity_detaches likes_store W0 1 2 "likes")
    as (s' & H1 & H2 & H3 & H4 & _); [by_evaluation.. |].
  exists s'. repeat split; assumption.
Defined.

(** * The invariants are kept

    Every public operation on the registry bound to [world] leaves it
    in order, whether it returns or raises, with one exception: an
    [unrelate] that raises. *)

Lemma inv_views_mono w w' :
  entities w ⊆ entities w' → comp_eq w w' → tag_eq w w' → rel_eq w w' →
  inv_views w → inv_views w'.
Proof.
  intros He (Hc1 & Hc2) (Ht1 & Ht2) (Hr1 & Hr2) (Hc & Ht & Hr & Hl).
  unfold inv_views, inv_c, inv_t, inv_r, live_r.
  repeat split; intros.
  - rewrite Hc1, Hc2 in *. by apply Hc.
  - rewrite Hc1, Hc2 in *. by apply Hc.
  - rewrite Ht1, Ht2 in *. by apply Ht.
  - rewrite Ht1, Ht2 in *. by apply Ht.
  - rewrite Hr1, Hr2 in *. by apply Hr.
  - rewrite Hr1, Hr2 in *. by apply Hr.
  - apply He. rewrite Hr1 in *. eauto.
Qed.

(** ** [create_entity] *)

Lemma create_entity_wf (w : World) :
  wf w →
  wf (mkWorld (entities w ∪ {[next_id w]}) (components w) (tags w)
              (relations w) (<[next_id w := ∅]> (eid_comps w))
              (<[next_id w := ∅]> (eid_tags w))
              (<[next_id w := ∅]> (eid_rels w)) (next_id w + 1)).
Proof.
  intros ((F0 & F1 & F2 & F3) & Hinv)%wf_views.
  assert (Hnew : next_id w ∉ entities w).
  { intros Hin. apply F0 in Hin. lia. }
  apply wf_views. split.
  - unfold facets_registered, ids_fresh; simpl.
    rewrite !dom_insert_L, F1, F2, F3.
    split_and!; [|apply union_comm_L..].
    intros x [Hx | ->%elem_of_singleton]%elem_of_union.
    + apply F0 in Hx. lia.
    + lia.
  - eapply inv_views_mono; [| | | | exact Hinv]; simpl.
    + set_solver.
    + split; [|done]. intros e. unfold components_of; simpl.
      destruct (decide (e = next_id w)) as [->|Hne].
      * rewrite lookup_insert_eq. simpl.
        rewrite <- F1 in Hnew. apply not_elem_of_dom in Hnew.
        by rewrite Hnew.
      * by rewrite lookup_insert_ne.
    + split; [|done]. intros e. unfold tags_of; simpl.
      destruct (decide (e = next_id w)) as [->|Hne].
      * rewrite lookup_insert_eq. simpl.
        rewrite <- F2 in Hnew. apply not_elem_of_dom in Hnew.
        by rewrite Hnew.
      * by rewrite lookup_insert_ne.
    + split; [|done]. intros e r. unfold current_target; simpl.
      destruct (decide (e = next_id w)) as [->|Hne].
      * rewrite lookup_insert_eq. simpl.
        rewrite <- F3 in Hnew. apply not_elem_of_dom in Hnew.
        by rewrite Hnew.
      * by rewrite lookup_insert_ne.
Qed.

(** ** Components *)

Lemma setitem_run (s : Store) (l : loc) (e : Z) (c : Component)
    (v : Value) cs :
  eid_comps (world_at s l) !! e = Some cs →
  Entity_setitem (mkEntity e l) c v s =
    (Ret tt,
     set_world l
       (with_components
          (insert c (<[e := v]> (default ∅ (components (world_at s l) !! c))))
          (with_eid_comps (insert e (cs ∪ {[c]})) (world_at s l))) s).
Proof.
  intros Hcs. unfold Entity_setitem, dd_components, getattr_components.
  mrun. rewrite Hcs. mrun.
  destruct (components (world_at s l) !! c) as [d|] eqn:Hd; mrun.
  - reflexivity.
  - unfold with_components, with_eid_comps; simpl.
    by rewrite insert_insert_eq.
Qed.

Lemma setitem_ok (s : Store) (l : loc) (e : Z) (c : Component) (v : Value) :
  is_Some (eid_comps (world_at s l) !! e) →
  ∃ s', Entity_setitem (mkEntity e l) c v s = (Ret tt, s') ∧
    only_changes l s s' ∧
    setitem_post e c (world_at s l) (world_at s' l).
Proof.
  intros [cs Hcs]. eexists. split; [by eapply setitem_run|].
  split; [apply only_changes_set_world|].
  rewrite world_at_set_world. set (w := world_at s l) in *.
  unfold setitem_post. unfold_views. rewrite Hcs. simpl.
  repeat split; try done.
  - apply dom_insert_lookup_L; eauto.
  - intros e'. destruct (decide (e' = e)) as [->|Hne].
    + by rewrite lookup_insert_eq.
    + by rewrite lookup_insert_ne.
  - intros c'. destruct (decide (c' = c)) as [->|Hne].
    + rewrite lookup_insert_eq; simpl. rewrite dom_insert_L.
      apply union_comm_L.
    + by rewrite lookup_insert_ne.
Qed.

Lemma setitem_post_wf e c w w' : wf w → setitem_post e c w w' → wf w'.
Proof.
  rewrite !wf_views. intros [HF (Hc & Ht & Hr & Hl)] Hpost. split.
  { eapply base_eq_facets; [apply Hpost | done]. }
  destruct Hpost as ((He & _) & (Ht1 & Ht2) & (Hr1 & Hr2) & Hco & Hch).
  unfold inv_views, inv_c, inv_t, inv_r, live_r.
  split; [|split; [|split]].
  - intros e' c'. rewrite Hco, Hch. specialize (Hc e' c').
    destruct (decide (e' = e)) as [->|?], (decide (c' = c)) as [->|?];
      set_solver.
  - intros. rewrite Ht1, Ht2. apply Ht.
  - intros. rewrite Hr1, Hr2. apply Hr.
  - intros e' r y. rewrite Hr1, He. apply Hl.
Qed.

(** ** Tags *)

Lemma tag_run (s : Store) (l : loc) (e : Z) (t : Tag) ts :
  eid_tags (world_at s l) !! e = Some ts → t ∉ ts →
  tag (mkEntity e l) t s =
    (Ret tt,
     set_world l
       (with_tags
          (insert t (default ∅ (tags (world_at s l) !! t) ∪ {[e]}))
          (with_eid_tags (insert e (ts ∪ {[t]})) (world_at s l))) s).
Proof.
  intros Hts Ht. unfold tag, getattr_tags, dd_tags.
  mrun. rewrite Hts. mrun. rewrite decide_False by done. mrun.
  rewrite Hts. mrun.
  destruct (tags (world_at s l) !! t) as [b|] eqn:Hb; mrun.
  - reflexivity.
  - unfold with_tags, with_eid_tags; simpl. by rewrite insert_insert_eq.
Qed.

Lemma tag_ok (s : Store) (l : loc) (e : Z) (t : Tag) ts :
  eid_tags (world_at s l) !! e = Some ts → t ∉ ts →
  ∃ s', tag (mkEntity e l) t s = (Ret tt, s') ∧
    only_changes l s s' ∧
    tag_post e t (world_at s l) (world_at s' l).
Proof.
  intros Hts Ht. eexists. split; [by eapply tag_run|].
  split; [apply only_changes_set_world|].
  rewrite world_at_set_world. set (w := world_at s l) in *.
  unfold tag_post. unfold_views. rewrite Hts. simpl.
  repeat split; try done.
  - apply dom_insert_lookup_L; eauto.
  - intros e'. destruct (decide (e' = e)) as [->|Hne].
    + by rewrite lookup_insert_eq.
    + by rewrite lookup_insert_ne.
  - intros t'. destruct (decide (t' = t)) as [->|Hne].
    + by rewrite lookup_insert_eq.
    + by rewrite lookup_insert_ne.
Qed.

Lemma tag_post_wf e t w w' : wf w → tag_post e t w w' → wf w'.
Proof.
  rewrite !wf_views. intros [HF (Hc & Ht & Hr & Hl)] Hpost. split.
  { eapply base_eq_facets; [apply Hpost | done]. }
  destruct Hpost as ((He & _) & (Hc1 & Hc2) & (Hr1 & Hr2) & Hto & Hth).
  unfold inv_views, inv_c, inv_t, inv_r, live_r.
  split; [|split; [|split]].
  - intros. rewrite Hc1, Hc2. apply Hc.
  - intros e' t'. rewrite Hto, Hth. specialize (Ht e' t').
    destruct (decide (e' = e)) as [->|?], (decide (t' = t)) as [->|?];
      set_solver.
  - intros. rewrite Hr1, Hr2. apply Hr.
  - intros e' r y. rewrite Hr1, He. apply Hl.
Qed.

(** ** One step *)

Lemma step_create (s : Store) (l : loc) :
  wf (world_at s l) → wf (world_at (create_entity l s).2 l).
Proof.
  intros Hwf. rewrite create_entity_run. simpl.
  rewrite world_at_set_world. by apply create_entity_wf.
Qed.

Lemma step_handle (s : Store) (l : loc) (e : Z) : (Entity_init e l s).2 = s.
Proof. unfold Entity_init. mrun. by case_decide. Qed.

Lemma step_len (s : Store) (self : Entity) : (Entity_len self s).2 = s.
Proof.
  unfold Entity_len, getattr_components. mrun.
  by destruct (eid_comps (world_at s (world self)) !! eid self).
Qed.

Lemma step_getitem (s : Store) (self : Entity) (c : Component) :
  wf (world_at s (world self)) →
  wf (world_at (Entity_getitem self c s).2 (world self)).
Proof.
  intros Hwf. unfold Entity_getitem.
  destruct (dd_components_view (world self) c s)
    as (d & s' & Hrun & _ & _ & Hv).
  rewrite (bind_run _ _ _ _ _ Hrun).
  assert ((getitem (d !! eid self) s').2 = s') as ->
    by (by destruct (d !! eid self)).
  by eapply wf_same_views.
Qed.

Lemma step_setitem (s : Store) (self : Entity) (c : Component) (v : Value) :
  wf (world_at s (world self)) →
  wf (world_at (Entity_setitem self c v s).2 (world self)).
Proof.
  destruct self as [e l]; simpl. intros Hwf.
  destruct (eid_comps (world_at s l) !! e) as [cs|] eqn:Hcs.
  - destruct (setitem_ok s l e c v) as (s' & -> & _ & Hpost); [eauto|].
    by eapply setitem_post_wf.
  - unfold Entity_setitem, getattr_components. mrun. by rewrite Hcs.
Qed.

Lemma step_delitem (s : Store) (self : Entity) (c : Component) :
  wf (world_at s (world self)) →
  wf (world_at (Entity_delitem self c s).2 (world self)).
Proof.
  destruct self as [e l]; simpl. intros Hwf.
  destruct (decide (e ∈ component_holders (world_at s l) c)) as [Hin|Hnot].
  - destruct (delitem_ok s l e c) as (s' & -> & _ & Hpost); [|done|].
    + apply wf_views in Hwf as (_ & Hc & _). by apply (Hc e c).
    + by eapply delitem_post_wf.
  - unfold Entity_delitem, dd_components. mrun.
    unfold component_holders in Hnot.
    destruct (components (world_at s l) !! c) as [d|] eqn:Hd; mrun.
    + simpl in Hnot. apply not_elem_of_dom in Hnot. by rewrite Hnot.
    + rewrite lookup_empty. mrun. simpl. rewrite world_at_set_world.
      eapply wf_same_views; [|done]. by apply same_views_touch_components.
Qed.

Lemma step_tag (s : Store) (self : Entity) (t : Tag) :
  wf (world_at s (world self)) →
  wf (world_at (tag self t s).2 (world self)).
Proof.
  destruct self as [e l]; simpl. intros Hwf.
  destruct (eid_tags (world_at s l) !! e) as [ts|] eqn:Hts.
  - destruct (decide (t ∈ ts)) as [Ht|Ht].
    + unfold tag, getattr_tags. mrun. rewrite Hts. mrun.
      by rewrite decide_True.
    + destruct (tag_ok s l e t ts) as (s' & -> & _ & Hpost); [done..|].
      by eapply tag_post_wf.
  - unfold tag, getattr_tags. mrun. by rewrite Hts.
Qed.

Lemma step_untag (s : Store) (self : Entity) (t : Tag) :
  wf (world_at s (world self)) →
  wf (world_at (untag self t s).2 (world self)).
Proof.
  destruct self as [e l]; simpl. intros Hwf.
  destruct (eid_tags (world_at s l) !! e) as [ts|] eqn:Hts.
  - destruct (decide (t ∈ ts)) as [Ht|Ht].
    + assert (Hin : t ∈ tags_of (world_at s l) e).
      { apply elem_of_tags_of. eauto. }
      destruct (untag_ok s l e t) as (s' & -> & _ & Hpost); [done| |].
      * apply wf_views in Hwf as (_ & _ & Hi & _). by apply (Hi e t).
      * by eapply untag_post_wf.
    + unfold untag, getattr_tags. mrun. rewrite Hts. mrun.
      by rewrite decide_False.
  - unfold untag, getattr_tags. mrun. by rewrite Hts.
Qed.

Lemma step_relate (s : Store) (self : Entity) (r : string) (x : Z) :
  in_order s (world self) →
  wf (world_at (relate self r x s).2 (world self)).
Proof.
  destruct self as [e l]; simpl. intros [Hg Hwf].
  destruct (decide (x ∈ entities (world_at s l))) as [Hx|Hx].
  - destruct (eid_rels (world_at s l) !! e) as [rs|] eqn:Hrs.
    + destruct (relate_ok s l l e r x) as (s' & -> & _ & Hpost);
        [done | done | eauto | |].
      * intros old Hold.
        apply wf_views in Hwf as (_ & _ & _ & Hr & _). by apply (Hr e r old).
      * by eapply relate_post_wf.
    + unfold relate, dd_relations, getattr_relations. mrun.
      rewrite decide_True by done. mrun.
      destruct (relations (world_at s l) !! r) as [d|] eqn:Hd; mrun.
      * by rewrite Hrs.
      * rewrite Hrs. simpl. rewrite world_at_set_world.
        eapply wf_same_views; [|done]. by apply same_views_touch_relations.
  - unfold relate. mrun. by rewrite decide_False.
Qed.

Lemma step_unrelate (s : Store) (self : Entity) (r : string) (x : Z) :
  in_order s (world self) →
  (unrelate self r x s).1 = Ret tt →
  wf (world_at (unrelate self r x s).2 (world self)).
Proof.
  destruct self as [e l]; simpl. intros [Hg Hwf] Hret.
  destruct (decide (x ∈ entities (world_at s l))) as [Hx|Hx].
  - destruct (decide (e ∈ sources (world_at s l) r x)) as [Hin|Hnot].
    + destruct (unrelate_ok s l l e r x) as (s' & Hrun & _ & Hpost);
        [done | done | done | |].
      * by rewrite (wf_current_target _ _ _ _ Hwf Hin).
      * rewrite Hrun. simpl. by eapply unrelate_post_wf.
    + destruct (unrelate_not_current s (mkEntity e l) r x)
        as (s' & Hrun); [done | done | |].
      * intros Hcur. apply Hnot.
        apply wf_views in Hwf as (_ & _ & _ & Hr & _). by apply (Hr e r x).
      * by rewrite Hrun in Hret.
  - by rewrite (unrelate_not_live s l (mkEntity e l) r x Hg Hx).
Qed.

Lemma step_delete (s : Store) (l : loc) (e : Z) :
  in_order s l → wf (world_at (delete_entity l e s).2 l).
Proof.
  intros Hord. destruct (decide (e ∈ entities (world_at s l))) as [He|He].
  - destruct (delete_entity_ok s l e Hord He) as (s' & -> & _ & _ & _ & _ & Hord').
    apply Hord'.
  - unfold delete_entity.
    rewrite (bind_raise _ _ _ _ _ (Entity_init_dead _ _ _ He)). apply Hord.
Qed.

(** [query] reads; what it writes are empty [defaultdict] entries. *)
Lemma query_views (s : Store) (self : loc) (comps : list Component)
    (tags : list Tag) (rels : list (string * Z)) :
  same_views (world_at s self)
             (world_at (query self comps tags rels s).2 self).
Proof.
  unfold query.
  destruct (comprehension_views self
              (λ comp, let! d := dd_components self comp in ret (dom d))
              component_holders comps) with (s := s) as (s1 & Hc & Hv1).
  { intros w w' c Hv. by apply same_views_component_holders. }
  { intros c s0. destruct (dd_components_view self c s0)
      as (d & s' & Hrun & Hd & _ & Hv).
    exists s'. by rewrite (bind_run _ _ _ _ _ Hrun), <- Hd. }
  destruct (comprehension_views self (dd_tags self) tag_holders tags)
    with (s := s1) as (s2 & Ht & Hv2).
  { intros w w' t Hv. by apply same_views_tag_holders. }
  { intros t s0. destruct (dd_tags_view self t s0) as (s' & Hrun & _ & Hv).
    eauto. }
  destruct (comprehension_views self
              (λ rel, let! d := dd_relations self rel.1 in
                      ret (default ∅ (d !! rel.2)))
              (λ w rel, sources w rel.1 rel.2) rels)
    with (s := s2) as (s3 & Hr & Hv3).
  { intros w w' rel Hv. by apply same_views_sources. }
  { intros rel s0. destruct (dd_relations_view self rel.1 s0)
      as (d & s' & Hrun & Hd & _ & Hv).
    exists s'. by rewrite (bind_run _ _ _ _ _ Hrun), <- Hd. }
  rewrite (bind_run _ _ _ _ _ Hc), (bind_run _ _ _ _ _ Ht),
    (bind_run _ _ _ _ _ Hr).
  destruct (intersection_or_empty_sorted
              (component_holders (world_at s self) <$> comps) s3)
    as (Ic & HIc & _).
  destruct (intersection_or_empty_sorted
              (tag_holders (world_at s1 self) <$> tags) s3)
    as (It & HIt & _).
  destruct (intersection_or_empty_sorted
              ((λ rel, sources (world_at s2 self) rel.1 rel.2) <$> rels) s3)
    as (Ir & HIr & _).
  cbv zeta.
  rewrite (bind_run _ _ _ _ _ HIc), (bind_run _ _ _ _ _ HIt),
    (bind_run _ _ _ _ _ HIr).
  match goal with
  | |- same_views _ (world_at (set_intersection ?q s3).2 _) =>
      assert ((set_intersection q s3).2 = s3) as -> by (by destruct q)
  end.
  eapply same_views_trans; [|exact Hv3].
  eapply same_views_trans; [exact Hv1 | exact Hv2].
Qed.

Lemma bind_ret_snd {A} (m : M A) (s : Store) :
  (bind m (λ _, ret tt) s).2 = (m s).2.
Proof. unfold bind. by destruct (m s) as [[a|x] s']. Qed.

Lemma call_ambient (o : op) (s : Store) : ambient (call o s).2 = ambient s.
Proof.
  assert (Hp : preserves (λ _ _, True) (call o)).
  { destruct o;
      frame_with (λ _ : World, I) (λ (_ _ _ : World) (_ _ : True), I)
                 ltac:(done). }
  apply Hp.
Qed.

(** Every public operation on the registry bound to [world] keeps it in
    order, except an [unrelate] that raises. *)
Theorem in_order_exec (o : op) (s : Store) :
  in_order s (registry_of o) →
  (∀ e r x, o = OpUnrelate e r x → succeeds o s) →
  in_order (exec o s) (registry_of o).
Proof.
  intros Hord Hun. pose proof Hord as [Hg Hwf].
  unfold exec, perform, attempt; simpl.
  split; [by rewrite call_ambient|].
  destruct o; simpl in *; rewrite ?bind_ret_snd.
  - by apply step_create.
  - by apply step_delete.
  - by rewrite step_handle.
  - by apply step_getitem.
  - by apply step_setitem.
  - by apply step_delitem.
  - by rewrite step_len.
  - by apply step_tag.
  - by apply step_untag.
  - by apply step_relate.
  - apply step_unrelate; [done|]. by apply (Hun e r target).
  - eapply wf_same_views; [apply query_views | done].
Qed.

(** ** Runs *)

Lemma World_init_wf : wf World_init.
Proof. by_evaluation. Qed.

Lemma in_order_exec_all (ops : list op) (s : Store) (l : loc) :
  in_order s l →
  Forall (λ o, registry_of o = l) ops →
  unrelates_succeed ops s →
  in_order (exec_all ops s) l.
Proof.
  revert s. induction ops as [|o ops IH]; intros s Hord Hall Hrun.
  - exact Hord.
  - apply Forall_cons in Hall as [<- Hall]. destruct Hrun as [Hun Hrun].
    change (exec_all (o :: ops) s) with (exec_all ops (exec o s)).
    apply IH; [by apply in_order_exec | done | done].
Qed.

(** X26: a registry constructed empty and bound to [world] is in
    order after every run of public operations on it in which no
    [unrelate] raises. *)
Theorem in_order_reachable (ops : list op) (l : loc) :
  Forall (λ o, registry_of o = l) ops →
  unrelates_succeed ops (fresh_store (Some l)) →
  in_order (exec_all ops (fresh_store (Some l))) l.
Proof.
  apply in_order_exec_all. split; [done|].
  rewrite world_at_fresh. apply World_init_wf.
Qed.

(** * Evaluating the code on the scenarios *)

(** The query example of the specification, section 8. *)
Example query_hp_enemy :
  (query W0 [hp] [enemy] [] hp_enemy_store).1 = Ret {[2]}.
Proof. by_evaluation. Qed.

(** The cascade, run on the scenario: entity 2 is deleted, entities 1
    and 3 lose their edge to it, entity 0 is no longer a target. *)
Example delete_entity_likes :
  let s' := (delete_entity W0 2 likes_store).2 in
  (delete_entity W0 2 likes_store).1 = Ret tt ∧
  entities (world_at s' W0) = {[0; 1; 3]} ∧
  eid_rels (world_at s' W0) = {[0 := ∅; 1 := ∅; 3 := ∅]} ∧
  relations (world_at s' W0) = {["likes" := ∅; "parent" := ∅]} ∧
  wf (world_at s' W0).
Proof. repeat split; by_evaluation. Qed.

(** * The degenerate query *)

(** C2 (code side): with no criteria at all, no operand set is
    collected, the final [set.intersection] is applied to no argument
    and raises [TypeError]; the registry is left as it was.  The
    specification asks for the empty set instead. *)
Theorem query_no_criteria_raises (s : Store) (self : loc) :
  query self [] [] [] s = (Raise TypeError, s).
Proof. reflexivity. Qed.

(** * Deleting an id that is not live *)

(** C7: for an id outside the live set, [delete_entity] raises the
    "does not exist" [NameError] of the handle constructor and the
    whole store, hence every table of the registry, is unchanged. *)
Theorem delete_entity_not_found (s : Store) (self : loc) (eid : Z) :
  eid ∉ entities (world_at s self) →
  delete_entity self eid s = (Raise NameError, s).
Proof.
  intros Hdead. unfold delete_entity.
  by rewrite (bind_raise _ _ _ _ _ (Entity_init_dead _ _ _ Hdead)).
Qed.

Lemma delete_entity_not_found_witness :
  (7 ∉ entities (world_at hp_enemy_store W0)) ∧
  delete_entity W0 7 hp_enemy_store = (Raise NameError, hp_enemy_store).
Proof.
  assert (H : 7 ∉ entities (world_at hp_enemy_store W0)) by by_evaluation.
  split; [exact H | exact (delete_entity_not_found _ _ _ H)].
Defined.

(** * Which registry validates a relation target *)

(** C3 (code side): [relate] and [unrelate] test the target against
    the registry bound to the global name [world], not against
    [self.world].  With two registries the answer differs in both
    directions: a target that is live in the handle's registry is
    rejected, and a target that is not live there is accepted. *)
Theorem relate_validates_against_global :
  ((1 ∈ entities (world_at target_only_in_own W1)) ∧
   (relate (mkEntity 0 W1) "r" 1 target_only_in_own).1 = Raise NameError) ∧
  ((1 ∉ entities (world_at target_only_in_global W1)) ∧
   (relate (mkEntity 0 W1) "r" 1 target_only_in_global).1 = Ret tt) ∧
  ((1 ∈ entities (world_at edge_after_global_delete W1)) ∧
   current_target (world_at edge_after_global_delete W1) 0 "r" = Some 1 ∧
   (unrelate (mkEntity 0 W1) "r" 1 edge_after_global_delete).1
     = Raise NameError) ∧
  ((1 ∉ entities (world_at edge_to_foreign_target W1)) ∧
   (unrelate (mkEntity 0 W1) "r" 1 edge_to_foreign_target).1 = Ret tt).
Proof. repeat split; by_evaluation. Qed.

(** * Empty tag buckets *)

(** C9 (code side): [query] reads [self.tags[tag]] on the
    [defaultdict], which stores an empty bucket for a tag nobody has.
    One query on an empty registry leaves the key in the table. *)
Theorem query_leaves_empty_tag_bucket :
  let s := exec (OpQuery W0 [] [TagStr "ghost"] []) (fresh_store (Some W0)) in
  (query W0 [] [TagStr "ghost"] [] (fresh_store (Some W0))).1 = Ret ∅ ∧
  tags (world_at s W0) !! TagStr "ghost" = Some ∅.
Proof. split; by_evaluation. Qed.

(** * A failing [unrelate] *)

(** C6 (code side): entity 0 points at 1, entity 3 points at 2, and
    entity 0 is asked to drop an edge to 2.  The bucket of 2 exists, so
    line 73 passes; line 74 deletes the current-target record of
    entity 0; line 75 raises [KeyError].  The failed call has changed
    the tables: entity 0 has lost its record while it is still in the
    source set of 1, and the registry, in order before the call, no
    longer satisfies invariant 3. *)
Theorem unrelate_wrong_target_mutates :
  let s' := (unrelate (mkEntity 0 W0) "r" 2 two_edges).2 in
  in_order two_edges W0 ∧
  (2 ∈ entities (world_at two_edges W0)) ∧
  current_target (world_at two_edges W0) 0 "r" = Some 1 ∧
  (unrelate (mkEntity 0 W0) "r" 2 two_edges).1 = Raise KeyError ∧
  current_target (world_at s' W0) 0 "r" = None ∧
  (0 ∈ sources (world_at s' W0) "r" 1) ∧
  eid_rels (world_at s' W0) ≠ eid_rels (world_at two_edges W0) ∧
  ¬ wf (world_at s' W0).
Proof. split_and!; by_evaluation. Qed.
(** * Component storage *)

Lemma getitem_outcome (s : Store) (self : Entity) (c : Component) :
  (Entity_getitem self c s).1
  = lookup_outcome (component_value (world_at s (world self)) c (eid self)).
Proof.
  unfold Entity_getitem, dd_components, component_value. mrun.
  destruct (components (world_at s (world self)) !! c) as [d|]; mrun; simpl.
  - by destruct (d !! eid self).
  - by rewrite lookup_empty.
Qed.

Lemma component_value_only_changes l s s' l' c e :
  only_changes l s s' → l' ≠ l →
  component_value (world_at s' l') c e = component_value (world_at s l') c e.
Proof. intros [_ H] Hne. by rewrite H. Qed.

Lemma component_value_holders w c e :
  is_Some (component_value w c e) ↔ e ∈ component_holders w c.
Proof.
  unfold component_value, component_holders. by rewrite elem_of_dom.
Qed.

(** X1: reading a slot returns the stored value, or raises [KeyError]
    when the entity has no value under the key.  The read changes no
    view and writes to the registry of the handle only; it leaves the
    store as it was when the table of the key exists, and stores an
    empty table under the key otherwise. *)
Theorem getitem_reads_slot (s : Store) (self : Entity) (c : Component) :
  let w := world_at s (world self) in
  ∃ s', Entity_getitem self c s
        = (lookup_outcome (component_value w c (eid self)), s') ∧
    only_changes (world self) s s' ∧
    same_views w (world_at s' (world self)) ∧
    (is_Some (components w !! c) → s' = s) ∧
    (components w !! c = None →
     world_at s' (world self) = with_components (insert c ∅) w).
Proof.
  intros w. unfold Entity_getitem, dd_components, component_value. mrun.
  fold w. destruct (components w !! c) as [d|] eqn:Hd; mrun; simpl.
  - exists s. split; [by destruct (d !! eid self)|].
    split_and!; eauto using only_changes_refl, same_views_refl.
    done.
  - eexists. split; [by rewrite lookup_empty|].
    rewrite world_at_set_world.
    split_and!; eauto using only_changes_set_world.
    + by apply same_views_touch_components.
    + by intros [? ?].
Qed.

(** What [entity[c] = v] does to the slots. *)
Lemma setitem_values (s : Store) (l : loc) (e : Z) (c : Component)
    (v : Value) :
  is_Some (eid_comps (world_at s l) !! e) →
  ∃ s', Entity_setitem (mkEntity e l) c v s = (Ret tt, s') ∧
    only_changes l s s' ∧
    ∀ c' e', component_value (world_at s' l) c' e' =
             if decide (c' = c ∧ e' = e) then Some v
             else component_value (world_at s l) c' e'.
Proof.
  intros [cs Hcs]. eexists. split; [by apply setitem_run|].
  split; [apply only_changes_set_world|].
  intros c' e'. rewrite world_at_set_world. unfold component_value; simpl.
  destruct (decide (c' = c)) as [->|Hc].
  - rewrite lookup_insert_eq; simpl.
    destruct (decide (e' = e)) as [->|He].
    + by rewrite lookup_insert_eq, decide_True.
    + by rewrite lookup_insert_ne, decide_False by naive_solver.
  - by rewrite lookup_insert_ne, decide_False by naive_solver.
Qed.

(** X2: a value that was set is the value read back, and the write
    changes no other slot: reading any other key of the entity, any
    slot of another entity, or through a handle on another registry,
    has the outcome it had before. *)
Theorem setitem_then_getitem (s : Store) (self : Entity) (c : Component)
    (v : Value) :
  is_Some (eid_comps (world_at s (world self)) !! eid self) →
  ∃ s', Entity_setitem self c v s = (Ret tt, s') ∧
    Entity_getitem self c s' = (Ret v, s') ∧
    ∀ (h : Entity) (c' : Component),
      ¬ (world h = world self ∧ eid h = eid self ∧ c' = c) →
      (Entity_getitem h c' s').1 = (Entity_getitem h c' s).1.
Proof.
  destruct self as [e l]; simpl. intros Hrec.
  destruct (setitem_values s l e c v Hrec) as (s' & Hrun & Hch & Hval).
  exists s'. split; [done|]. split.
  - destruct (Hrec) as [cs Hcs].
    rewrite (setitem_run _ _ _ _ _ _ Hcs) in Hrun.
    injection Hrun as <-.
    unfold Entity_getitem, dd_components. mrun.
    rewrite lookup_insert_eq. mrun. by rewrite lookup_insert_eq.
  - intros [e' l'] c' Hne; simpl in Hne. rewrite !getitem_outcome; simpl.
    destruct (decide (l' = l)) as [->|Hl].
    + rewrite Hval, decide_False; [done|]. naive_solver.
    + by rewrite (component_value_only_changes _ _ _ _ _ _ Hch Hl).
Qed.

Lemma setitem_then_getitem_witness :
  ∃ s', Entity_setitem (mkEntity 3 W0) hp (VInt 7) hp_enemy_store
        = (Ret tt, s') ∧
    Entity_getitem (mkEntity 3 W0) hp s' = (Ret (VInt 7), s') ∧
    (Entity_getitem (mkEntity 1 W0) hp s').1 = Ret (VInt 10).
Proof.
  assert (H : is_Some (eid_comps (world_at hp_enemy_store W0) !! 3)).
  { exists ∅. by_evaluation. }
  destruct (setitem_then_getitem hp_enemy_store (mkEntity 3 W0) hp (VInt 7) H)
    as (s' & Hrun & Hget & Hframe).
  exists s'. split; [exact Hrun|]. split; [exact Hget|].
  rewrite (Hframe (mkEntity 1 W0) hp).
  - by_evaluation.
  - simpl. intros (_ & Habs & _). discriminate Habs.
Defined.

(** X3: writing a slot twice leaves the store that writing the last
    value alone leaves: the second write replaces the first and adds
    nothing to the entity's component set. *)
Theorem setitem_last_wins (s : Store) (self : Entity) (c : Component)
    (v1 v2 : Value) :
  is_Some (eid_comps (world_at s (world self)) !! eid self) →
  ∃ s1 s2,
    Entity_setitem self c v1 s = (Ret tt, s1) ∧
    Entity_setitem self c v2 s1 = (Ret tt, s2) ∧
    Entity_setitem self c v2 s = (Ret tt, s2).
Proof.
  destruct self as [e l]; simpl. intros [cs Hcs].
  eexists _, _. split; [by apply setitem_run|].
  rewrite (setitem_run s l e c v2 cs Hcs). split; [|reflexivity].
  erewrite setitem_run
    by (rewrite world_at_set_world; simpl; apply lookup_insert_eq).
  rewrite world_at_set_world, set_world_set_world.
  do 2 f_equal. unfold with_components, with_eid_comps; simpl.
  rewrite lookup_insert_eq; simpl. rewrite !insert_insert_eq.
  do 2 f_equal. set_solver.
Qed.

Lemma setitem_last_wins_witness :
  ∃ s1 s2,
    Entity_setitem (mkEntity 1 W0) hp (VInt 11) hp_enemy_store = (Ret tt, s1) ∧
    Entity_setitem (mkEntity 1 W0) hp (VStr "full") s1 = (Ret tt, s2) ∧
    Entity_setitem (mkEntity 1 W0) hp (VStr "full") hp_enemy_store
    = (Ret tt, s2).
Proof.
  apply (setitem_last_wins hp_enemy_store (mkEntity 1 W0) hp).
  exists {[hp]}. by_evaluation.
Defined.

(** What a successful [del entity[c]] does to the slots. *)
Lemma delitem_values (s : Store) (l : loc) (e : Z) (c : Component) :
  c ∈ components_of (world_at s l) e →
  e ∈ component_holders (world_at s l) c →
  ∃ s', Entity_delitem (mkEntity e l) c s = (Ret tt, s') ∧
    only_changes l s s' ∧
    delitem_post e c (world_at s l) (world_at s' l) ∧
    ∀ c' e', component_value (world_at s' l) c' e' =
             if decide (c' = c ∧ e' = e) then None
             else component_value (world_at s l) c' e'.
Proof.
  intros Hc He.
  destruct (delitem_ok s l e c Hc He) as (s' & Hrun & Hch & Hpost).
  exists s'. split_and!; try done.
  apply elem_of_components_of in Hc as (cs & Hcs & Hin).
  apply elem_of_component_holders in He as (d & v & Hd & Hv).
  rewrite (delitem_run s l e c d cs) in Hrun by eauto.
  injection Hrun as <-.
  intros c' e'. rewrite world_at_set_world. unfold component_value; simpl.
  destruct (decide (c' = c)) as [->|Hne].
  - rewrite lookup_insert_eq, Hd; simpl.
    destruct (decide (e' = e)) as [->|He'].
    + by rewrite lookup_delete_eq, decide_True.
    + by rewrite lookup_delete_ne, decide_False by naive_solver.
  - by rewrite lookup_insert_ne, decide_False by naive_solver.
Qed.

(** Deleting a component nobody stored for the entity. *)
Lemma delitem_absent (s : Store) (l : loc) (e : Z) (c : Component) :
  e ∉ component_holders (world_at s l) c →
  ∃ s', Entity_delitem (mkEntity e l) c s = (Raise KeyError, s') ∧
    only_changes l s s' ∧
    same_views (world_at s l) (world_at s' l).
Proof.
  intros Hnot.
  destruct (dd_components_view l c s) as (d & s' & Hrun & Hd & Hch & Hv).
  exists s'. split_and!; try done.
  unfold Entity_delitem. rewrite (bind_run _ _ _ _ _ Hrun); simpl.
  rewrite <- Hd in Hnot. apply not_elem_of_dom in Hnot.
  rewrite Hnot. by mrun.
Qed.

(** X4: in a registry that satisfies the invariants, [del entity[c]]
    returns exactly when the entity holds the key.  It then removes the
    key from the entity's component set and the entity from the holders
    of the key, the slot reads as absent afterwards, every other slot
    reads as before, and the invariants still hold.  When the entity
    does not hold the key, [KeyError] is raised and no view changes. *)
Theorem delitem_removes_or_raises (s : Store) (self : Entity)
    (c : Component) :
  let w := world_at s (world self) in
  wf w →
  (c ∈ components_of w (eid self) →
   ∃ s', Entity_delitem self c s = (Ret tt, s') ∧
     only_changes (world self) s s' ∧
     delitem_post (eid self) c w (world_at s' (world self)) ∧
     (Entity_getitem self c s').1 = Raise KeyError ∧
     (∀ (h : Entity) (c' : Component),
        ¬ (world h = world self ∧ eid h = eid self ∧ c' = c) →
        (Entity_getitem h c' s').1 = (Entity_getitem h c' s).1) ∧
     wf (world_at s' (world self))) ∧
  (c ∉ components_of w (eid self) →
   ∃ s', Entity_delitem self c s = (Raise KeyError, s') ∧
     only_changes (world self) s s' ∧
     same_views w (world_at s' (world self))).
Proof.
  destruct self as [e l]; simpl. intros Hwf.
  pose proof Hwf as (_ & Hinv & _)%wf_views. split.
  - intros Hc.
    destruct (delitem_values s l e c Hc) as (s' & Hrun & Hch & Hpost & Hval).
    { by apply (Hinv e c). }
    exists s'. split_and!; try done.
    + rewrite getitem_outcome; simpl. by rewrite Hval, decide_True.
    + intros [e' l'] c' Hne; simpl in Hne. rewrite !getitem_outcome; simpl.
      destruct (decide (l' = l)) as [->|Hl].
      * rewrite Hval, decide_False; [done|]. naive_solver.
      * by rewrite (component_value_only_changes _ _ _ _ _ _ Hch Hl).
    + by eapply delitem_post_wf.
  - intros Hc. apply delitem_absent. by rewrite <- (Hinv e c).
Qed.

Lemma delitem_removes_or_raises_witness :
  (∃ s', Entity_delitem (mkEntity 2 W0) hp hp_enemy_store = (Ret tt, s') ∧
     (Entity_getitem (mkEntity 2 W0) hp s').1 = Raise KeyError ∧
     (Entity_getitem (mkEntity 1 W0) hp s').1 = Ret (VInt 10)) ∧
  (∃ s', Entity_delitem (mkEntity 3 W0) hp hp_enemy_store
         = (Raise KeyError, s')).
Proof.
  assert (Hwf : wf (world_at hp_enemy_store W0)) by by_evaluation.
  destruct (delitem_removes_or_raises hp_enemy_store (mkEntity 2 W0) hp Hwf)
    as [Hdel _].
  destruct (delitem_removes_or_raises hp_enemy_store (mkEntity 3 W0) hp Hwf)
    as [_ Hraise].
  split.
  - destruct Hdel as (s' & Hrun & _ & _ & Hget & Hframe & _);
      [by_evaluation|].
    exists s'. split; [exact Hrun|]. split; [exact Hget|].
    rewrite (Hframe (mkEntity 1 W0) hp).
    + by_evaluation.
    + simpl. intros (_ & Habs & _). discriminate Habs.
  - destruct Hraise as (s' & Hrun & _); [by_evaluation|].
    by exists s'.
Defined.

(** X5: setting a component the entity does not hold and deleting it
    again restores the registry, except that the table of the key now
    exists: a key that had no table is left with an empty one. *)
Theorem setitem_delitem_restores (s : Store) (self : Entity) (c : Component)
    (v : Value) :
  let w := world_at s (world self) in
  is_Some (eid_comps w !! eid self) →
  c ∉ components_of w (eid self) →
  eid self ∉ component_holders w c →
  ∃ s1 s2,
    Entity_setitem self c v s = (Ret tt, s1) ∧
    Entity_delitem self c s1 = (Ret tt, s2) ∧
    only_changes (world self) s s2 ∧
    world_at s2 (world self)
    = with_components (insert c (default ∅ (components w !! c))) w.
Proof.
  destruct self as [e l]; simpl. intros [cs Hcs] Hc He.
  assert (Hin : c ∉ cs).
  { intros Hin. apply Hc, elem_of_components_of. eauto. }
  eexists _, _. split; [by apply setitem_run|].
  rewrite (delitem_run _ l e c
             (<[e := v]> (default ∅ (components (world_at s l) !! c)))
             (cs ∪ {[c]})).
  - split; [reflexivity|]. rewrite set_world_set_world.
    split; [apply only_changes_set_world|].
    rewrite !world_at_set_world.
    destruct (world_at s l) as [en co ta re ec et er ni] eqn:Hw.
    unfold with_components, with_eid_comps; simpl in *.
    rewrite !insert_insert_eq. f_equal.
    + f_equal. apply delete_insert_id.
      unfold component_holders in He; simpl in He.
      by apply not_elem_of_dom in He.
    + apply insert_id. rewrite Hcs. f_equal. set_solver.
  - rewrite world_at_set_world; simpl. apply lookup_insert_eq.
  - rewrite lookup_insert_eq. eauto.
  - rewrite world_at_set_world; simpl. apply lookup_insert_eq.
  - set_solver.
Qed.

Lemma setitem_delitem_restores_witness :
  ∃ s1 s2,
    Entity_setitem (mkEntity 3 W0) hp (VInt 1) hp_enemy_store = (Ret tt, s1) ∧
    Entity_delitem (mkEntity 3 W0) hp s1 = (Ret tt, s2) ∧
    world_at s2 W0 = world_at hp_enemy_store W0.
Proof.
  destruct (setitem_delitem_restores hp_enemy_store (mkEntity 3 W0) hp
              (VInt 1)) as (s1 & s2 & H1 & H2 & _ & Hw).
  - exists ∅. by_evaluation.
  - by_evaluation.
  - by_evaluation.
  - exists s1, s2. split; [exact H1|]. split; [exact H2|].
    cbn [world eid] in Hw. rewrite Hw. by_evaluation.
Defined.

(** In a registry that satisfies the invariants, whoever holds a
    component, has a tag or is the source of an edge is live. *)
Lemma wf_components_of_live w e c :
  wf w → c ∈ components_of w e → e ∈ entities w.
Proof.
  intros ((_ & F1 & _) & _)%wf_views (cs & Hcs & _)%elem_of_components_of.
  rewrite <- F1. apply elem_of_dom. eauto.
Qed.

Lemma wf_tags_of_live w e t : wf w → t ∈ tags_of w e → e ∈ entities w.
Proof.
  intros ((_ & _ & F2 & _) & _)%wf_views (ts & Hts & _)%elem_of_tags_of.
  rewrite <- F2. apply elem_of_dom. eauto.
Qed.

Lemma wf_component_holders_live w c e :
  wf w → e ∈ component_holders w c → e ∈ entities w.
Proof.
  intros Hwf He. pose proof Hwf as (_ & Hc & _)%wf_views.
  apply (Hc e c) in He. by eapply wf_components_of_live.
Qed.

Lemma wf_tag_holders_live w t e :
  wf w → e ∈ tag_holders w t → e ∈ entities w.
Proof.
  intros Hwf He. pose proof Hwf as (_ & _ & Ht & _)%wf_views.
  apply (Ht e t) in He. by eapply wf_tags_of_live.
Qed.

Lemma wf_dead_no_records w e :
  wf w → e ∉ entities w →
  eid_comps w !! e = None ∧ eid_tags w !! e = None ∧ eid_rels w !! e = None.
Proof.
  intros ((_ & F1 & F2 & F3) & _)%wf_views He.
  rewrite <- !not_elem_of_dom, F1, F2, F3. done.
Qed.

(** X6: for a live entity of a registry that satisfies the invariants,
    iterating the handle yields, without repetition, exactly the keys
    under which [entity[c]] returns a value; [len] is the number of
    keys yielded, and the attribute [components] is the set of them. *)
Theorem iter_yields_held_keys (s : Store) (self : Entity) :
  let w := world_at s (world self) in
  wf w → eid self ∈ entities w →
  ∃ ks, Entity_iter self s = (Ret ks, s) ∧
    NoDup ks ∧
    Entity_len self s = (Ret (length ks), s) ∧
    Entity_getattr self "components" s
    = (Ret (AttrComponents (list_to_set ks)), s) ∧
    ∀ c, c ∈ ks ↔ ∃ v, (Entity_getitem self c s).1 = Ret v.
Proof.
  destruct self as [e l]; simpl. intros Hwf Hlive.
  destruct (wf_has_comps _ _ Hwf Hlive) as [cs Hcs].
  pose proof (getattr_components_run s l e cs Hcs) as Hattr.
  exists (elements cs). split_and!.
  - unfold Entity_iter. by rewrite (bind_run _ _ _ _ _ Hattr).
  - apply NoDup_elements.
  - unfold Entity_len. by rewrite (bind_run _ _ _ _ _ Hattr).
  - unfold Entity_getattr. rewrite decide_True by done.
    rewrite (bind_run _ _ _ _ _ Hattr). by rewrite list_to_set_elements_L.
  - intros c. rewrite elem_of_elements, getitem_outcome; simpl.
    pose proof Hwf as (_ & Hc & _)%wf_views.
    assert (c ∈ cs ↔ c ∈ components_of (world_at s l) e) as ->.
    { rewrite elem_of_components_of. split; [eauto|].
      intros (cs' & Hcs' & Hin). congruence. }
    rewrite (Hc e c), <- component_value_holders.
    destruct (component_value (world_at s l) c e) as [v|]; simpl; split.
    + eauto.
    + done.
    + by intros [? ?].
    + by intros [? ?].
Qed.

Lemma iter_yields_held_keys_witness :
  ∃ ks, Entity_iter (mkEntity 2 W0) likes_store = (Ret ks, likes_store) ∧
    Entity_len (mkEntity 2 W0) likes_store = (Ret (length ks), likes_store) ∧
    ∀ c, c ∈ ks ↔
         ∃ v, (Entity_getitem (mkEntity 2 W0) c likes_store).1 = Ret v.
Proof.
  destruct (iter_yields_held_keys likes_store (mkEntity 2 W0))
    as (ks & Hiter & _ & Hlen & _ & Hkeys).
  - by_evaluation.
  - by_evaluation.
  - exists ks. split; [exact Hiter|]. split; [exact Hlen | exact Hkeys].
Defined.

Lemma len_run s l e (n : nat) :
  Entity_len (mkEntity e l) s = (Ret n, s) →
  ∃ cs, eid_comps (world_at s l) !! e = Some cs ∧ size cs = n.
Proof.
  unfold Entity_len, getattr_components. mrun.
  destruct (eid_comps (world_at s l) !! e) as [cs|]; mrun; [|done].
  intros [= <-]. eauto.
Qed.

(** X7: [len] counts the keys the entity holds: setting a component
    adds one when the key is new and nothing when it is overwritten,
    and deleting a held component takes one away. *)
Theorem len_counts_keys (s : Store) (self : Entity) (c : Component)
    (v : Value) (n : nat) :
  let w := world_at s (world self) in
  Entity_len self s = (Ret n, s) →
  (∃ s', Entity_setitem self c v s = (Ret tt, s') ∧
     Entity_len self s'
     = (Ret (if decide (c ∈ components_of w (eid self)) then n else S n),
        s')) ∧
  (c ∈ components_of w (eid self) →
   eid self ∈ component_holders w c →
   ∃ s', Entity_delitem self c s = (Ret tt, s') ∧
     Entity_len self s' = (Ret (pred n), s')).
Proof.
  destruct self as [e l]; simpl. intros (cs & Hcs & <-)%len_run.
  assert (Hof : components_of (world_at s l) e = cs).
  { unfold components_of. by rewrite Hcs. }
  rewrite Hof. split.
  - eexists. split; [by apply setitem_run|].
    unfold Entity_len. erewrite bind_run; last first.
    { apply getattr_components_run. rewrite world_at_set_world; simpl.
      apply lookup_insert_eq. }
    unfold ret. do 2 f_equal.
    destruct (decide (c ∈ cs)) as [Hin|Hin].
    + f_equal. set_solver.
    + rewrite size_union, size_singleton by set_solver. lia.
  - intros Hin (d & v' & Hd & Hv)%elem_of_component_holders.
    eexists. split; [eapply delitem_run; eauto|].
    unfold Entity_len. erewrite bind_run; last first.
    { apply getattr_components_run. rewrite world_at_set_world; simpl.
      apply lookup_insert_eq. }
    unfold ret. do 2 f_equal.
    rewrite size_difference, size_singleton by set_solver. lia.
Qed.

Lemma len_counts_keys_witness :
  (∃ s', Entity_setitem (mkEntity 2 W0) ("mana", "int")%string (VInt 4)
           hp_enemy_store = (Ret tt, s') ∧
         Entity_len (mkEntity 2 W0) s' = (Ret 2%nat, s')) ∧
  (∃ s', Entity_setitem (mkEntity 2 W0) hp (VInt 4) hp_enemy_store
         = (Ret tt, s') ∧
         Entity_len (mkEntity 2 W0) s' = (Ret 1%nat, s')) ∧
  (∃ s', Entity_delitem (mkEntity 2 W0) hp hp_enemy_store = (Ret tt, s') ∧
         Entity_len (mkEntity 2 W0) s' = (Ret 0%nat, s')).
Proof.
  assert (Hlen : Entity_len (mkEntity 2 W0) hp_enemy_store
                 = (Ret 1%nat, hp_enemy_store)) by by_evaluation.
  split_and!.
  - destruct (len_counts_keys hp_enemy_store (mkEntity 2 W0)
                ("mana", "int")%string (VInt 4) 1 Hlen) as [Hset _].
    exact Hset.
  - destruct (len_counts_keys hp_enemy_store (mkEntity 2 W0) hp (VInt 4) 1
                Hlen) as [Hset _].
    exact Hset.
  - destruct (len_counts_keys hp_enemy_store (mkEntity 2 W0) hp (VInt 4) 1
                Hlen) as [_ Hdel].
    apply Hdel; by_evaluation.
Defined.

(** * Handles and the life of an entity *)

(** X8: the live test is made when a handle is constructed, never
    again.  In a registry in order, a handle whose id is not live (the
    entity was deleted, or never created) cannot be constructed anew
    ([NameError]), and every operation through it raises [KeyError]:
    the per-entity records are gone.  [setitem], [tag], [untag], [len]
    and iteration leave the store as it was. *)
Theorem stale_handle_raises (s : Store) (self : Entity) :
  let w := world_at s (world self) in
  in_order s (world self) → eid self ∉ entities w →
  Entity_init (eid self) (world self) s = (Raise NameError, s) ∧
  Entity_len self s = (Raise KeyError, s) ∧
  Entity_iter self s = (Raise KeyError, s) ∧
  (∀ c, (Entity_getitem self c s).1 = Raise KeyError) ∧
  (∀ c v, Entity_setitem self c v s = (Raise KeyError, s)) ∧
  (∀ c, (Entity_delitem self c s).1 = Raise KeyError) ∧
  (∀ t, tag self t s = (Raise KeyError, s)) ∧
  (∀ t, untag self t s = (Raise KeyError, s)) ∧
  (∀ r x, x ∈ entities w → (relate self r x s).1 = Raise KeyError) ∧
  (∀ r x, x ∈ entities w → (unrelate self r x s).1 = Raise KeyError).
Proof.
  destruct self as [e l]; simpl. intros Hord Hdead.
  pose proof Hord as [Hg Hwf].
  destruct (wf_dead_no_records _ _ Hwf Hdead) as (Hcs & Hts & Hrs).
  assert (Hnoc : ∀ c, e ∉ component_holders (world_at s l) c).
  { intros c Hc. by apply Hdead, (wf_component_holders_live _ c). }
  split_and!.
  - by apply Entity_init_dead.
  - unfold Entity_len, getattr_components. mrun. by rewrite Hcs.
  - unfold Entity_iter, getattr_components. mrun. by rewrite Hcs.
  - intros c. rewrite getitem_outcome; simpl.
    destruct (component_value (world_at s l) c e) eqn:Hv; [|done].
    exfalso. apply (Hnoc c), component_value_holders. eauto.
  - intros c v. unfold Entity_setitem, getattr_components. mrun.
    by rewrite Hcs.
  - intros c. by destruct (delitem_absent s l e c (Hnoc c)) as (s' & -> & _).
  - intros t. unfold tag, getattr_tags. mrun. by rewrite Hts.
  - intros t. unfold untag, getattr_tags. mrun. by rewrite Hts.
  - intros r x Hx. unfold relate, dd_relations, getattr_relations. mrun.
    rewrite decide_True by done. mrun.
    destruct (relations (world_at s l) !! r) as [d|] eqn:Hd; mrun;
      by rewrite Hrs.
  - intros r x Hx.
    destruct (unrelate_not_current s (mkEntity e l) r x) as (s' & ->);
      [done | done | | done].
    simpl. unfold current_target. by rewrite Hrs.
Qed.

Lemma stale_handle_raises_witness :
  Entity_init 7 W0 likes_store = (Raise NameError, likes_store) ∧
  Entity_setitem (mkEntity 7 W0) hp (VInt 1) likes_store
  = (Raise KeyError, likes_store) ∧
  (relate (mkEntity 7 W0) "likes" 2 likes_store).1 = Raise KeyError ∧
  (unrelate (mkEntity 7 W0) "likes" 2 likes_store).1 = Raise KeyError.
Proof.
  destruct (stale_handle_raises likes_store (mkEntity 7 W0))
    as (Hinit & _ & _ & _ & Hset & _ & _ & _ & Hrel & Hunrel).
  - by_evaluation.
  - by_evaluation.
  - split; [exact Hinit|]. split; [apply Hset|].
    split; [apply Hrel | apply Hunrel]; by_evaluation.
Defined.

(** X9: in a registry that satisfies the invariants, [create_entity]
    returns a handle on the registry whose id was not live; the id
    joins the live set, a handle for it can be constructed, the new
    entity holds no component, has no tag and no current target, no
    view of any other entity changes, no other registry is written,
    and the invariants still hold. *)
Theorem create_entity_fresh (s : Store) (self : loc) :
  let w := world_at s self in
  wf w →
  ∃ h s', create_entity self s = (Ret h, s') ∧
    (let w' := world_at s' self in
     world h = self ∧ (eid h ∉ entities w) ∧
     entities w' = entities w ∪ {[eid h]} ∧
     Entity_init (eid h) self s' = (Ret h, s') ∧
     Entity_len h s' = (Ret 0%nat, s') ∧
     tags_of w' (eid h) = ∅ ∧
     (∀ r, current_target w' (eid h) r = None) ∧
     comp_eq w w' ∧ tag_eq w w' ∧ rel_eq w w' ∧
     only_changes self s s' ∧ wf w').
Proof.
  intros w Hwf. pose proof (create_entity_wf w Hwf) as Hwf'.
  pose proof Hwf as ((F0 & F1 & F2 & F3) & _)%wf_views.
  assert (Hnew : next_id w ∉ entities w).
  { intros Hin. apply F0 in Hin. lia. }
  pose proof Hnew as Hc. rewrite <- F1 in Hc. apply not_elem_of_dom in Hc.
  pose proof Hnew as Ht. rewrite <- F2 in Ht. apply not_elem_of_dom in Ht.
  pose proof Hnew as Hr. rewrite <- F3 in Hr. apply not_elem_of_dom in Hr.
  eexists _, _. split; [apply create_entity_run|].
  fold w. cbv zeta. rewrite world_at_set_world. cbn [world eid].
  split_and!; try done.
  - apply Entity_init_run. rewrite world_at_set_world; simpl. set_solver.
  - unfold Entity_len. erewrite bind_run; last first.
    { apply getattr_components_run. rewrite world_at_set_world; simpl.
      apply lookup_insert_eq. }
    by rewrite size_empty.
  - unfold tags_of; simpl. by rewrite lookup_insert_eq.
  - intros r. unfold current_target; simpl. by rewrite lookup_insert_eq.
  - split; [|done]. intros e. unfold components_of; simpl.
    destruct (decide (e = next_id w)) as [->|Hne].
    + by rewrite lookup_insert_eq, Hc.
    + by rewrite lookup_insert_ne.
  - split; [|done]. intros e. unfold tags_of; simpl.
    destruct (decide (e = next_id w)) as [->|Hne].
    + by rewrite lookup_insert_eq, Ht.
    + by rewrite lookup_insert_ne.
  - split; [|done]. intros e r. unfold current_target; simpl.
    destruct (decide (e = next_id w)) as [->|Hne].
    + by rewrite lookup_insert_eq, Hr.
    + by rewrite lookup_insert_ne.
  - apply only_changes_set_world.
Qed.

Lemma create_entity_fresh_witness :
  ∃ h s', create_entity W0 likes_store = (Ret h, s') ∧
    (eid h ∉ entities (world_at likes_store W0)) ∧
    Entity_init (eid h) W0 s' = (Ret h, s') ∧
    Entity_len h s' = (Ret 0%nat, s').
Proof.
  destruct (create_entity_fresh likes_store W0)
    as (h & s' & Hrun & _ & Hnew & _ & Hinit & Hlen & _).
  - by_evaluation.
  - exists h, s'. split; [exact Hrun|]. split; [exact Hnew|].
    split; [exact Hinit | exact Hlen].
Defined.

(** X10: in a registry in order, deleting a live entity leaves nothing
    of it: a handle for the id can no longer be constructed and a
    second deletion fails, both with [NameError] and no effect; the id
    has no per-entity record, holds no component, has no tag, is the
    source of no edge and the target of none. *)
Theorem deleted_entity_is_gone (s : Store) (self : loc) (e : Z) :
  in_order s self → e ∈ entities (world_at s self) →
  ∃ s', delete_entity self e s = (Ret tt, s') ∧
    (let w' := world_at s' self in
     Entity_init e self s' = (Raise NameError, s') ∧
     delete_entity self e s' = (Raise NameError, s') ∧
     eid_comps w' !! e = None ∧ eid_tags w' !! e = None ∧
     eid_rels w' !! e = None ∧
     (∀ c, e ∉ component_holders w' c) ∧
     (∀ t, e ∉ tag_holders w' t) ∧
     (∀ r x, e ∉ sources w' r x) ∧
     (∀ r, sources w' r e = ∅)).
Proof.
  intros Hord Hlive.
  destruct (delete_entity_ok s self e Hord Hlive)
    as (s' & Hrun & _ & Hnone & _ & Hents & [_ Hwf']).
  exists s'. split; [done|]. cbv zeta.
  assert (Hdead : e ∉ entities (world_at s' self)) by (rewrite Hents; set_solver).
  destruct (wf_dead_no_records _ _ Hwf' Hdead) as (Hcs & Hts & Hrs).
  split_and!; try done.
  - by apply Entity_init_dead.
  - unfold delete_entity.
    by rewrite (bind_raise _ _ _ _ _ (Entity_init_dead _ _ _ Hdead)).
  - intros c Hc. by apply Hdead, (wf_component_holders_live _ c).
  - intros t Ht. by apply Hdead, (wf_tag_holders_live _ t).
  - intros r x Hx. by apply Hdead, (wf_source_live _ e r x).
Qed.

Lemma deleted_entity_is_gone_witness :
  ∃ s', delete_entity W0 2 likes_store = (Ret tt, s') ∧
    Entity_init 2 W0 s' = (Raise NameError, s') ∧
    delete_entity W0 2 s' = (Raise NameError, s') ∧
    (∀ c, 2 ∉ component_holders (world_at s' W0) c) ∧
    (∀ r x, 2 ∉ sources (world_at s' W0) r x).
Proof.
  destruct (deleted_entity_is_gone likes_store W0 2)
    as (s' & Hrun & Hinit & Hdel & _ & _ & _ & Hc & _ & Hsrc & _).
  - by_evaluation.
  - by_evaluation.
  - exists s'. split; [exact Hrun|]. split; [exact Hinit|].
    split; [exact Hdel|]. split; [exact Hc | exact Hsrc].
Defined.

(** * Which registries an operation writes *)

Section Confined.
Variable g : option loc.
Variable L : loc → Prop.

Lemma confined_refl s : confined L s s.
Proof. by split. Qed.

Lemma confined_trans s1 s2 s3 :
  confined L s1 s2 → confined L s2 s3 → confined L s1 s3.
Proof.
  intros [Ha1 H1] [Ha2 H2]. split; [congruence|].
  intros l Hl. by rewrite H2, H1.
Qed.

Lemma writes_in_ret {A} (a : A) : writes_in g L (ret a).
Proof. intros s _. apply confined_refl. Qed.

Lemma writes_in_raise {A} (e : exn) : writes_in g L (@raise A e).
Proof. intros s _. apply confined_refl. Qed.

Lemma writes_in_read l : writes_in g L (read l).
Proof. intros s _. apply confined_refl. Qed.

Lemma writes_in_getitem {A} (o : option A) : writes_in g L (getitem o).
Proof. destruct o; [apply writes_in_ret | apply writes_in_raise]. Qed.

Lemma writes_in_set_remove `{Countable K} (x : K) (X : gset K) :
  writes_in g L (set_remove x X).
Proof.
  unfold set_remove. case_decide; [apply writes_in_ret | apply writes_in_raise].
Qed.

Lemma writes_in_modify l f : L l → writes_in g L (modify l f).
Proof.
  intros Hl s _. unfold modify; simpl. split; [apply ambient_set_world|].
  intros l' Hl'. apply world_at_set_world_ne. by intros ->.
Qed.

Lemma writes_in_bind {A B} (m : M A) (k : A → M B) :
  writes_in g L m → (∀ a, writes_in g L (k a)) → writes_in g L (bind m k).
Proof.
  intros Hm Hk s Hg. unfold bind.
  specialize (Hm s Hg). destruct (m s) as [[a|e] s1]; simpl in *; [|done].
  eapply confined_trans; [exact Hm|]. apply Hk.
  destruct Hm as [-> _]. done.
Qed.

(** The global name evaluates to the registry the store binds it to. *)
Lemma writes_in_global {B} (k : loc → M B) :
  (∀ l, g = Some l → writes_in g L (k l)) →
  writes_in g L (bind global_world k).
Proof.
  intros Hk s Hg. unfold bind, global_world.
  destruct (ambient s) as [l|] eqn:Ha; [|apply confined_refl].
  apply Hk; congruence.
Qed.

(** A handle that is constructed is the handle for the id asked for,
    on the registry asked for. *)
Lemma writes_in_init {B} e l (k : Entity → M B) :
  writes_in g L (k (mkEntity e l)) →
  writes_in g L (bind (Entity_init e l) k).
Proof.
  intros Hk s Hg. unfold Entity_init. rewrite run_bind_bind, run_bind_read.
  destruct (decide (e ∈ entities (world_at s l))).
  - rewrite run_bind_ret. by apply Hk.
  - rewrite run_bind_raise. apply confined_refl.
Qed.

Lemma writes_in_for_each {A} (xs : list A) (body : A → M unit) :
  (∀ x, writes_in g L (body x)) → writes_in g L (for_each xs body).
Proof.
  intros Hbody. induction xs as [|x xs IH]; simpl.
  - apply writes_in_ret.
  - apply writes_in_bind; [apply Hbody | intros _; exact IH].
Qed.

Lemma writes_in_comprehension {A B} (f : A → M B) (xs : list A) :
  (∀ x, writes_in g L (f x)) → writes_in g L (comprehension f xs).
Proof.
  intros Hf. induction xs as [|x xs IH]; simpl.
  - apply writes_in_ret.
  - apply writes_in_bind; [apply Hf | intros y].
    apply writes_in_bind; [exact IH | intros ys; apply writes_in_ret].
Qed.
End Confined.

(** Walks through the code of an operation; [tac] shows that the
    registry of each [modify] is one the operation may write. *)
Ltac confine tac :=
  repeat lazymatch goal with
  | |- writes_in _ _ (bind global_world _) => apply writes_in_global
  | |- writes_in _ _ (bind (Entity_init _ _) _) => apply writes_in_init
  | |- writes_in _ _ (bind _ _) => apply writes_in_bind
  | |- ∀ _, _ => intros ?
  | |- writes_in _ _ (ret _) => apply writes_in_ret
  | |- writes_in _ _ (raise _) => apply writes_in_raise
  | |- writes_in _ _ (read _) => apply writes_in_read
  | |- writes_in _ _ (getitem _) => apply writes_in_getitem
  | |- writes_in _ _ (set_remove _ _) => apply writes_in_set_remove
  | |- writes_in _ _ (modify _ _) => apply writes_in_modify; tac
  | |- writes_in _ _ (for_each _ _) => apply writes_in_for_each
  | |- writes_in _ _ (comprehension _ _) => apply writes_in_comprehension
  | |- writes_in _ _ (match ?x with _ => _ end) => destruct x
  | |- writes_in _ _ (let _ := _ in _) => cbv zeta
  | |- writes_in _ _ ?m => let h := head_of m in unfold h
  end.

(** Every operation but [delete_entity] writes its own registry only. *)
Lemma call_writes_own (o : op) (g : option loc) :
  (∀ w e, o ≠ OpDelete w e) →
  writes_in g (λ l, l = registry_of o) (call o).
Proof.
  intros Hnot. destruct o; try (by destruct (Hnot _ _ eq_refl));
    cbn [registry_of]; confine ltac:(reflexivity).
Qed.

Lemma delete_entity_writes (self : loc) (e : Z) (g : option loc) :
  writes_in g (own_or_global g self) (delete_entity self e).
Proof.
  confine ltac:(first [by left | by right]).
Qed.

Lemma call_only_changes (o : op) (s : Store) :
  (∀ w e, o ≠ OpDelete w e) → only_changes (registry_of o) s (call o s).2.
Proof. intros Hnot. by apply (call_writes_own o (ambient s) Hnot). Qed.

(** X11: an operation never writes a registry other than the one it is
    called on, however it ends, with one exception: [delete_entity]
    may also write the registry bound to the global name [world], on
    which line 117 constructs the handles of the sources it detaches. *)
Theorem writes_stay_in_registry (o : op) (s : Store) (l : loc) :
  l ≠ registry_of o →
  (∀ w e, o = OpDelete w e → ambient s ≠ Some l) →
  world_at (exec o s) l = world_at s l.
Proof.
  intros Hl Hdel. unfold exec, perform, attempt; simpl.
  assert ((∃ w e, o = OpDelete w e) ∨ (∀ w e, o ≠ OpDelete w e))
    as [(w & e & ->)|Hnot].
  { destruct o; try (right; by intros); left; eauto. }
  - apply (delete_entity_writes w e (ambient s) s eq_refl).
    intros [->|Hg]; [done|]. by apply (Hdel w e).
  - by apply (call_only_changes o s).
Qed.

Lemma writes_stay_in_registry_witness :
  world_at (exec (OpRelate (mkEntity 0 W1) "r" 1) target_only_in_global) W0
  = world_at target_only_in_global W0 ∧
  world_at (exec (OpDelete W0 1) target_only_in_global) W1
  = world_at target_only_in_global W1.
Proof.
  split.
  - apply writes_stay_in_registry; [done | discriminate].
  - apply writes_stay_in_registry; [done|]. intros _ _ _. by_evaluation.
Defined.

(** The exception is real.  Both registries have the edge 0 --r--> 1
    and entity 1 of registry [1] is deleted.  The sources found in
    registry [1] are detached through handles on the registry bound to
    [world]: registry [0] loses its edge, and registry [1] keeps an
    edge to an entity that is no longer live. *)
Example delete_entity_writes_global :
  let s' := (delete_entity W1 1 twin_edges).2 in
  (delete_entity W1 1 twin_edges).1 = Ret tt ∧
  current_target (world_at twin_edges W0) 0 "r" = Some 1 ∧
  current_target (world_at s' W0) 0 "r" = None ∧
  current_target (world_at s' W1) 0 "r" = Some 1 ∧
  (1 ∉ entities (world_at s' W1)) ∧
  ¬ wf (world_at s' W1).
Proof. split_and!; by_evaluation. Qed.

(** * Ids are not reused *)

Section FrameSteps.
Variable R : World → World → Prop.
Hypothesis R_refl : ∀ w, R w w.

Lemma store_rel_set_world l w' s :
  R (world_at s l) w' → store_rel R s (set_world l w' s).
Proof.
  intros Hw. split; [apply ambient_set_world|]. intros l'.
  destruct (decide (l = l')) as [->|Hne].
  - by rewrite world_at_set_world.
  - rewrite world_at_set_world_ne by done. apply R_refl.
Qed.

(** The handle [delete_entity] works with is the handle for its
    argument. *)
Lemma preserves_init {B} e l (k : Entity → M B) :
  preserves R (k (mkEntity e l)) → preserves R (bind (Entity_init e l) k).
Proof.
  intros Hk s. unfold Entity_init. rewrite run_bind_bind, run_bind_read.
  destruct (decide (e ∈ entities (world_at s l))).
  - rewrite run_bind_ret. apply Hk.
  - rewrite run_bind_raise. by apply store_rel_refl.
Qed.

(** Line 119. *)
Lemma preserves_remove_live l e :
  (∀ w, R w (with_entities (λ _, entities w ∖ {[e]}) w)) →
  preserves R (let! w := read l in
               let! ents := set_remove e (entities w) in
               modify l (with_entities (λ _, ents))).
Proof.
  intros Hf s. rewrite run_bind_read.
  destruct (decide (e ∈ entities (world_at s l))) as [He|He].
  - rewrite run_bind_set_remove, run_modify by done. simpl.
    apply store_rel_set_world, Hf.
  - unfold set_remove. rewrite decide_False by done.
    rewrite run_bind_raise. by apply store_rel_refl.
Qed.
End FrameSteps.

(** As [frame_with], with [special] tried first on every goal. *)
Ltac frame_except Hrefl Htrans tac special :=
  repeat first
    [ special
    | lazymatch goal with
      | |- preserves _ (bind _ _) => apply (preserves_bind _ Htrans)
      | |- ∀ _, _ => intros ?
      | |- preserves _ (ret _) => apply (preserves_ret _ Hrefl)
      | |- preserves _ (raise _) => apply (preserves_raise _ Hrefl)
      | |- preserves _ (read _) => apply (preserves_read _ Hrefl)
      | |- preserves _ global_world => apply (preserves_global_world _ Hrefl)
      | |- preserves _ (getitem _) => apply (preserves_getitem _ Hrefl)
      | |- preserves _ (set_remove _ _) =>
          apply (preserves_set_remove _ Hrefl)
      | |- preserves _ (modify _ _) => apply (preserves_modify _ Hrefl); tac
      | |- preserves _ (for_each _ _) =>
          apply (preserves_for_each _ Hrefl Htrans)
      | |- preserves _ (comprehension _ _) =>
          apply (preserves_comprehension _ Hrefl Htrans)
      | |- preserves _ (match ?x with _ => _ end) => destruct x
      | |- preserves _ (let _ := _ in _) => cbv zeta
      | |- preserves _ ?m => let h := head_of m in unfold h
      end ].

Lemma grows_refl w : grows w w.
Proof. split; [lia | auto]. Qed.

Lemma grows_trans a b c : grows a b → grows b c → grows a c.
Proof.
  intros [Hab Hab'] [Hbc Hbc']. split; [lia|].
  intros z [Hz|Hz]%Hbc'; [|right; lia].
  apply Hab' in Hz as [Hz|Hz]; [by left | right; lia].
Qed.

(** A [modify] that writes neither the live set nor the counter. *)
Ltac keeps_live := intros []; split; simpl; [lia | by left].

Lemma create_entity_grows (l : loc) : preserves grows (create_entity l).
Proof.
  intros s. rewrite create_entity_run. simpl.
  apply store_rel_set_world; [apply grows_refl|].
  split; simpl; [lia|].
  intros z [Hz | ->%elem_of_singleton]%elem_of_union; [by left | right; lia].
Qed.

Lemma delete_entity_grows (l : loc) (e : Z) :
  preserves grows (delete_entity l e).
Proof.
  unfold delete_entity. apply (preserves_init _ grows_refl).
  frame_except grows_refl grows_trans keeps_live
    ltac:(idtac; lazymatch goal with
          | |- preserves _ (bind (read _) (λ _, bind (set_remove _ _) _)) =>
              apply (preserves_remove_live _ grows_refl);
              intros w; split; simpl; [lia | intros z Hz; left; set_solver]
          end).
Qed.

Lemma call_grows (o : op) : preserves grows (call o).
Proof.
  destruct o;
    frame_except grows_refl grows_trans keeps_live
      ltac:(idtac; lazymatch goal with
            | |- preserves _ (create_entity _) => apply create_entity_grows
            | |- preserves _ (delete_entity _ _) => apply delete_entity_grows
            end).
Qed.

Lemma exec_all_grows (ops : list op) (s : Store) (l : loc) :
  grows (world_at s l) (world_at (exec_all ops s) l).
Proof.
  revert s. induction ops as [|o ops IH]; intros s.
  - apply grows_refl.
  - change (exec_all (o :: ops) s) with (exec_all ops (exec o s)).
    eapply grows_trans; [|apply IH]. apply (call_grows o s).
Qed.

(** X12: ids are never reused.  Over any run of public operations, on
    whatever registries and whether they return or raise, the counter
    of a registry does not go back, every id live at the end was live
    at the start or was handed out by the counter during the run, and
    an id below the counter that is not live is never live again. *)
Theorem ids_never_reused (ops : list op) (s : Store) (l : loc) :
  let w := world_at s l in
  let w' := world_at (exec_all ops s) l in
  next_id w ≤ next_id w' ∧
  (∀ z, z ∈ entities w' → z ∈ entities w ∨ next_id w ≤ z < next_id w') ∧
  (∀ z, z < next_id w → z ∉ entities w → z ∉ entities w') ∧
  (ids_fresh w → ids_fresh w').
Proof.
  intros w w'. destruct (exec_all_grows ops s l) as [Hn Hz].
  fold w w' in Hn, Hz. split_and!; try done.
  - intros z Hlt Hdead [Hin|Hin]%Hz; [done | lia].
  - intros Hfresh z [Hin|Hin]%Hz; [|lia]. apply Hfresh in Hin. lia.
Qed.

(** * The ways [unrelate] ends *)

Lemma unrelate_rejected (s : Store) (self : Entity) (r : string) (x : Z) :
  ¬ accepted s x → unrelate self r x s = (Raise NameError, s).
Proof.
  intros Hnot. destruct (ambient s) as [g|] eqn:Hg.
  - apply (unrelate_not_live s g); [done|]. intros Hx. apply Hnot.
    by exists g.
  - unfold unrelate, bind, global_world. by rewrite Hg.
Qed.

(** Line 73 or line 74 raises: nothing was written but, possibly, an
    empty table for the name. *)
Lemma unrelate_clean_failure (s : Store) (l : loc) (e : Z) (r : string)
    (x : Z) :
  let w := world_at s l in
  accepted s x →
  ¬ (has_bucket w r x ∧ is_Some (current_target w e r)) →
  ∃ s', unrelate (mkEntity e l) r x s = (Raise KeyError, s') ∧
    only_changes l s s' ∧ same_views w (world_at s' l).
Proof.
  intros w (g & Hg & Hx) Hnot.
  unfold unrelate, dd_relations, getattr_relations. mrun.
  rewrite decide_True by done. mrun. fold w.
  unfold has_bucket, current_target in Hnot.
  destruct (relations w !! r) as [d|] eqn:Hd; mrun.
  - simpl in Hnot.
    destruct (d !! x) as [srcs|] eqn:Hsrcs; mrun.
    + fold w. destruct (eid_rels w !! e) as [rs|] eqn:Hrs; mrun.
      * simpl in Hnot. destruct (rs !! r) as [old|] eqn:Hold; mrun.
        -- destruct Hnot. eauto.
        -- exists s. eauto using only_changes_refl, same_views_refl.
      * exists s. eauto using only_changes_refl, same_views_refl.
    + exists s. eauto using only_changes_refl, same_views_refl.
  - rewrite lookup_empty. mrun. eexists. split; [reflexivity|].
    split; [apply only_changes_set_world|].
    rewrite world_at_set_world. by apply same_views_touch_relations.
Qed.

(** Line 75 raises, after line 74 has deleted the record. *)
Lemma unrelate_dirty_failure (s : Store) (l : loc) (e : Z) (r : string)
    (x : Z) :
  let w := world_at s l in
  accepted s x → has_bucket w r x → is_Some (current_target w e r) →
  e ∉ sources w r x →
  ∃ s', unrelate (mkEntity e l) r x s = (Raise KeyError, s') ∧
    only_changes l s s' ∧ unrecorded e r w (world_at s' l).
Proof.
  intros w (g & Hg & Hx) Hb (rs & Hrs & [old Hold])%current_target_is_Some
    Hnot.
  unfold unrelate, dd_relations, getattr_relations. mrun.
  rewrite decide_True by done. mrun. fold w.
  unfold has_bucket in Hb. unfold sources in Hnot.
  destruct (relations w !! r) as [d|] eqn:Hd; mrun;
    [|simpl in Hb; rewrite lookup_empty in Hb; by destruct Hb].
  simpl in Hb, Hnot. destruct Hb as [srcs Hsrcs].
  rewrite Hsrcs in Hnot |- *. simpl in Hnot. mrun. fold w.
  rewrite Hrs. mrun. rewrite Hold. mrun.
  unfold set_remove. rewrite decide_False by done. mrun.
  eexists. split; [reflexivity|].
  split; [apply only_changes_set_world|].
  rewrite world_at_set_world. unfold unrecorded. unfold_views.
  repeat split; try done.
  - apply dom_insert_lookup_L; eauto.
  - intros e' r'. case_decide as Hc.
    + destruct Hc as [-> ->].
      rewrite lookup_insert_eq; simpl. by rewrite lookup_delete_eq.
    + destruct (decide (e' = e)) as [->|Hne'].
      * rewrite lookup_insert_eq, Hrs; simpl.
        rewrite lookup_delete_ne by naive_solver. done.
      * by rewrite lookup_insert_ne.
Qed.

(** * What [delete_entity] leaves of the other entities *)

Lemma spares_refl e w : spares e w w.
Proof. unfold spares. by split_and!. Qed.

Lemma spares_trans e a b c : spares e a b → spares e b c → spares e a c.
Proof.
  intros (A1 & A2 & A3 & A4 & A5 & A6) (B1 & B2 & B3 & B4 & B5 & B6).
  unfold spares. split_and!.
  - intros e' Hne. by rewrite B1, A1.
  - congruence.
  - intros c' e' Hne. by rewrite B3, A3.
  - intros e' Hne. by rewrite B4, A4.
  - intros e' Hne. by rewrite B5, A5.
  - intros r y Hne. by rewrite B6, A6.
Qed.

(** A [modify] that leaves the records of the other entities alone. *)
Ltac spares_modify :=
  intros [];
  unfold spares, component_value, components_of, tags_of, sources; simpl;
  split_and!; intros; try done;
  rewrite ?lookup_insert_ne, ?lookup_delete_ne by done; done.

Lemma store_rel_only_changes (R : World → World → Prop) l s s' :
  (∀ w, R w w) → only_changes l s s' →
  R (world_at s l) (world_at s' l) → store_rel R s s'.
Proof.
  intros Hrefl [Ha Hother] Hl. split; [done|]. intros l'.
  destruct (decide (l' = l)) as [->|Hne]; [done|].
  rewrite Hother by done. apply Hrefl.
Qed.

(** Lines 31-32, on any path. *)
Lemma delitem_spares (e : Z) (l : loc) (c : Component) :
  preserves (spares e) (Entity_delitem (mkEntity e l) c).
Proof.
  intros s. unfold Entity_delitem, dd_components, getattr_components. mrun.
  set (w := world_at s l).
  destruct (components w !! c) as [d|] eqn:Hd; mrun.
  - destruct (d !! e) as [v|] eqn:Hv; mrun;
      [|by apply store_rel_refl, spares_refl].
    fold w.
    assert (Hw : spares e w (with_components (insert c (delete e d)) w)).
    { unfold spares, component_value, components_of, tags_of, sources; simpl.
      split_and!; intros; try done.
      destruct (decide (c0 = c)) as [->|Hne].
      - rewrite lookup_insert_eq, Hd; simpl. by rewrite lookup_delete_ne.
      - by rewrite lookup_insert_ne. }
    destruct (eid_comps w !! e) as [cs|] eqn:Hcs; mrun;
      [|by apply store_rel_set_world; [apply spares_refl|]].
    destruct (decide (c ∈ cs)) as [Hin|Hin].
    + rewrite run_bind_set_remove by done. mrun. simpl.
      apply store_rel_set_world; [apply spares_refl|].
      eapply spares_trans; [exact Hw|].
      generalize (with_components (insert c (delete e d)) w).
      spares_modify.
    + unfold set_remove. rewrite decide_False by done. mrun. simpl.
      by apply store_rel_set_world; [apply spares_refl|].
  - rewrite lookup_empty. mrun. simpl.
    apply store_rel_set_world; [apply spares_refl|]. fold w.
    unfold spares, component_value, components_of, tags_of, sources; simpl.
    split_and!; intros; try done.
    destruct (decide (c0 = c)) as [->|Hne].
    + by rewrite lookup_insert_eq, Hd.
    + by rewrite lookup_insert_ne.
Qed.

(** [spares] for a computation that writes the relation tables only. *)
Lemma spares_of_fields e w w' :
  same_but_relations w w' →
  (∀ r y, y ≠ e → sources w' r y ∖ {[e]} = sources w r y ∖ {[e]}) →
  spares e w w'.
Proof.
  intros (E1 & E2 & E3 & E4 & E5 & E6) Hsrc.
  unfold spares, component_value, components_of, tags_of.
  rewrite E1, E2, E4, E5, E6. by split_and!.
Qed.

Lemma dd_relations_spares (e : Z) (l : loc) (r : string) :
  preserves (spares e) (dd_relations l r).
Proof.
  intros s. unfold dd_relations. mrun.
  destruct (relations (world_at s l) !! r) as [d|] eqn:Hd; mrun.
  - by apply store_rel_refl, spares_refl.
  - simpl. apply store_rel_set_world; [apply spares_refl|].
    pose proof (same_views_touch_relations _ _ Hd) as (_ & _ & _ & _ & Hsrc).
    apply spares_of_fields; [done|]. intros r' y _. by rewrite Hsrc.
Qed.

Lemma accepted_dec (s : Store) (x : Z) : accepted s x ∨ ¬ accepted s x.
Proof.
  unfold accepted. destruct (ambient s) as [g|] eqn:Hg.
  - destruct (decide (x ∈ entities (world_at s g))) as [Hx|Hx].
    + left. eauto.
    + right. intros (g' & [= <-] & Hx'). done.
  - right. by intros (g' & [=] & _).
Qed.

(** [unrelate], on any path, takes at most [self] out of the source
    set of the target, and writes no other source set. *)
Lemma unrelate_sources (s : Store) (self : Entity) (r : string) (x : Z)
    (r' : string) (y : Z) :
  let w := world_at s (world self) in
  let w' := world_at (unrelate self r x s).2 (world self) in
  sources w' r' y = sources w r' y ∨
  (r' = r ∧ y = x ∧ sources w' r x = sources w r x ∖ {[eid self]}).
Proof.
  destruct self as [e l]; simpl. set (w := world_at s l).
  destruct (accepted_dec s x) as [Hacc|Hacc];
    [|left; by rewrite unrelate_rejected].
  destruct (decide (is_Some (default ∅ (relations w !! r) !! x) ∧
                    is_Some (current_target w e r))) as [[Hb Ht]|Hnot].
  - destruct (decide (e ∈ sources w r x)) as [Hin|Hin].
    + destruct Hacc as (g & Hg & Hx).
      destruct (unrelate_ok s g l e r x) as (s' & -> & _ & Hpost);
        [done..|].
      destruct Hpost as (_ & _ & _ & _ & Hsrc). simpl. fold w in Hsrc.
      rewrite !Hsrc. destruct (decide (r' = r ∧ y = x)) as [[-> ->]|Hc].
      * right. by rewrite decide_True.
      * left. done.
    + destruct (unrelate_dirty_failure s l e r x) as (s' & -> & _ & Hpost);
        [done..|].
      destruct Hpost as (_ & _ & _ & Hsrc & _). left. apply Hsrc.
  - destruct (unrelate_clean_failure s l e r x) as (s' & -> & _ & Hv);
      [done..|].
    left. by apply same_views_sources.
Qed.

Lemma unrelate_spares (e : Z) (self : Entity) (r : string) (x : Z) :
  eid self = e ∨ x = e → preserves (spares e) (unrelate self r x).
Proof.
  intros Hex s.
  apply (store_rel_only_changes _ (world self)); [apply spares_refl | |].
  { apply (call_only_changes (OpUnrelate self r x)). discriminate. }
  apply spares_of_fields; [apply unrelate_writes_relations_only|].
  intros r' y Hy.
  destruct (unrelate_sources s self r x r' y) as [->|(-> & -> & ->)];
    [done|].
  destruct Hex as [->| ->]; [set_solver | done].
Qed.

Lemma delete_entity_spares (l : loc) (e : Z) :
  preserves (spares e) (delete_entity l e).
Proof.
  unfold delete_entity. apply (preserves_init _ (spares_refl e)).
  frame_except (spares_refl e) (spares_trans e) spares_modify
    ltac:(idtac; lazymatch goal with
          | |- preserves _ (Entity_delitem _ _) => apply delitem_spares
          | |- preserves _ (dd_relations _ _) => apply dd_relations_spares
          | |- preserves _ (unrelate _ _ _) =>
              apply unrelate_spares; first [by left | by right]
          | |- preserves _ (bind (read _) (λ _, bind (set_remove _ _) _)) =>
              apply (preserves_remove_live _ (spares_refl e));
              intros w; unfold spares; simpl; split_and!; try done;
              intros; set_solver
          end).
Qed.

(** X13: [delete_entity] never touches the facets of another entity.
    However the call ends, and on every registry of the store, an
    entity other than the one deleted is live exactly if it was, holds
    the component keys and the tags it held, and each of its slots
    reads as it did. *)
Theorem delete_entity_spares_others (s : Store) (self : loc) (e : Z)
    (h : Entity) :
  let s' := (delete_entity self e s).2 in
  let w := world_at s (world h) in
  let w' := world_at s' (world h) in
  eid h ≠ e →
  (eid h ∈ entities w' ↔ eid h ∈ entities w) ∧
  components_of w' (eid h) = components_of w (eid h) ∧
  tags_of w' (eid h) = tags_of w (eid h) ∧
  (∀ c, (Entity_getitem h c s').1 = (Entity_getitem h c s).1).
Proof.
  intros s' w w' Hne.
  destruct (delete_entity_spares self e s) as [_ Hsp].
  destruct (Hsp (world h)) as (H1 & _ & H3 & H4 & H5 & _).
  split_and!; auto.
  intros c. rewrite !getitem_outcome. by rewrite H3.
Qed.

Lemma delete_entity_spares_others_witness :
  let s' := (delete_entity W0 2 likes_store).2 in
  (1 ∈ entities (world_at s' W0) ↔ 1 ∈ entities (world_at likes_store W0)) ∧
  components_of (world_at s' W0) 1 = components_of (world_at likes_store W0) 1 ∧
  tags_of (world_at s' W0) 1 = tags_of (world_at likes_store W0) 1 ∧
  (∀ c, (Entity_getitem (mkEntity 1 W0) c s').1
        = (Entity_getitem (mkEntity 1 W0) c likes_store).1).
Proof.
  apply (delete_entity_spares_others likes_store W0 2 (mkEntity 1 W0)).
  discriminate.
Defined.

(** X14: what a successful [delete_entity] leaves, through the views.
    In a registry in order, deleting a live entity takes it, and only
    it, out of the live set, out of the holders of every component key
    and every tag, and out of every source set; the source sets of
    which it was the target are empty; an entity that pointed at it
    has no current target for that name any more; every other current
    target, component set and tag set is as it was. *)
Theorem delete_entity_views (s : Store) (self : loc) (e : Z) :
  let w := world_at s self in
  in_order s self → e ∈ entities w →
  ∃ s', delete_entity self e s = (Ret tt, s') ∧
    (let w' := world_at s' self in
     entities w' = entities w ∖ {[e]} ∧
     (∀ c, component_holders w' c = component_holders w c ∖ {[e]}) ∧
     (∀ t, tag_holders w' t = tag_holders w t ∖ {[e]}) ∧
     (∀ r y, sources w' r y =
             if decide (y = e) then ∅ else sources w r y ∖ {[e]}) ∧
     (∀ e', components_of w' e' =
            if decide (e' = e) then ∅ else components_of w e') ∧
     (∀ e', tags_of w' e' = if decide (e' = e) then ∅ else tags_of w e') ∧
     (∀ e' r, current_target w' e' r =
              if decide (e' = e ∨ current_target w e' r = Some e) then None
              else current_target w e' r)).
Proof.
  intros w Hord Hlive. pose proof Hord as [_ Hwf].
  destruct (delete_entity_ok s self e Hord Hlive)
    as (s' & Hrun & _ & Hnone & _ & Hents & [_ Hwf']).
  exists s'. split; [done|]. cbv zeta.
  destruct (delete_entity_spares self e s) as [_ Hsp].
  specialize (Hsp self). rewrite Hrun in Hsp. simpl in Hsp.
  subst w. set (w := world_at s self) in *.
  set (w' := world_at s' self) in *.
  destruct Hsp as (_ & _ & _ & Hco & Hto & Hsrc).
  assert (Hdead : e ∉ entities w') by (rewrite Hents; set_solver).
  destruct (wf_dead_no_records _ _ Hwf' Hdead) as (Hcs & Hts & Hrs).
  pose proof Hwf as (_ & Hc & Ht & Hr & _)%wf_views.
  pose proof Hwf' as (_ & Hc' & Ht' & Hr' & _)%wf_views.
  assert (Hsources : ∀ r y, sources w' r y =
            if decide (y = e) then ∅ else sources w r y ∖ {[e]}).
  { intros r y. destruct (decide (y = e)) as [->|Hy]; [apply Hnone|].
    rewrite <- (Hsrc r y Hy). apply set_eq. intros z.
    rewrite elem_of_difference, elem_of_singleton. split; [|tauto].
    intros Hz. split; [done|]. intros ->.
    by apply Hdead, (wf_source_live _ e r y). }
  split_and!; try done.
  - intros c. apply set_eq. intros z.
    rewrite elem_of_difference, elem_of_singleton.
    destruct (decide (z = e)) as [->|Hz].
    + split; [|tauto]. intros Hin. exfalso.
      by apply Hdead, (wf_component_holders_live _ c).
    + rewrite <- (Hc' z c), <- (Hc z c), (Hco z Hz). tauto.
  - intros t. apply set_eq. intros z.
    rewrite elem_of_difference, elem_of_singleton.
    destruct (decide (z = e)) as [->|Hz].
    + split; [|tauto]. intros Hin. exfalso.
      by apply Hdead, (wf_tag_holders_live _ t).
    + rewrite <- (Ht' z t), <- (Ht z t), (Hto z Hz). tauto.
  - intros e'. destruct (decide (e' = e)) as [->|Hz]; [|by apply Hco].
    unfold components_of. by rewrite Hcs.
  - intros e'. destruct (decide (e' = e)) as [->|Hz]; [|by apply Hto].
    unfold tags_of. by rewrite Hts.
  - intros e' r.
    assert (Hiff : ∀ y, current_target w' e' r = Some y ↔
              e' ≠ e ∧ y ≠ e ∧ current_target w e' r = Some y).
    { intros y. rewrite (Hr' e' r y), (Hr e' r y), Hsources.
      destruct (decide (y = e)) as [->|Hy]; set_solver. }
    destruct (decide (e' = e ∨ current_target w e' r = Some e)) as [Hd|Hd].
    + destruct (current_target w' e' r) as [y|] eqn:Hcur; [|done].
      destruct (proj1 (Hiff y) eq_refl) as (? & ? & ?).
      destruct Hd; congruence.
    + destruct (current_target w e' r) as [y|] eqn:Hcur.
      * apply Hiff. split_and!; [naive_solver| |done].
        intros ->. naive_solver.
      * destruct (current_target w' e' r) as [y|] eqn:Hcur'; [|done].
        by destruct (proj1 (Hiff y) eq_refl) as (? & ? & ?).
Qed.

Lemma delete_entity_views_witness :
  ∃ s', delete_entity W0 2 likes_store = (Ret tt, s') ∧
    entities (world_at s' W0) = entities (world_at likes_store W0) ∖ {[2]} ∧
    (∀ r y, sources (world_at s' W0) r y =
            if decide (y = 2) then ∅
            else sources (world_at likes_store W0) r y ∖ {[2]}).
Proof.
  destruct (delete_entity_views likes_store W0 2)
    as (s' & Hrun & Hents & _ & _ & Hsrc & _).
  - by_evaluation.
  - by_evaluation.
  - exists s'. split; [exact Hrun|]. split; [exact Hents | exact Hsrc].
Defined.

(** * Relations *)

(** X15: the three ways [unrelate] ends in a registry in order.  A
    target that is not live is rejected with [NameError] and nothing
    is written.  When the target is the entity's current target for
    the name, the call returns: the record is cleared, the entity
    leaves the source set of the target, the bucket of the target is
    kept exactly when other sources remain in it, nothing else changes
    and the registry is in order again.  Any other live target is
    rejected with [KeyError]. *)
Theorem unrelate_outcomes (s : Store) (self : Entity) (r : string) (x : Z) :
  let w := world_at s (world self) in
  in_order s (world self) →
  (x ∉ entities w → unrelate self r x s = (Raise NameError, s)) ∧
  (x ∈ entities w → current_target w (eid self) r = Some x →
   ∃ s', unrelate self r x s = (Ret tt, s') ∧
     only_changes (world self) s s' ∧
     unrelate_post (eid self) r x w (world_at s' (world self)) ∧
     (has_bucket (world_at s' (world self)) r x ↔
      sources w r x ≠ {[eid self]}) ∧
     in_order s' (world self)) ∧
  (x ∈ entities w → current_target w (eid self) r ≠ Some x →
   ∃ s', unrelate self r x s = (Raise KeyError, s') ∧
     only_changes (world self) s s').
Proof.
  destruct self as [e l]; simpl. intros [Hg Hwf].
  pose proof Hwf as (_ & _ & _ & Hr & _)%wf_views.
  split_and!.
  - intros Hx. by apply (unrelate_not_live s l).
  - intros Hx Hcur.
    assert (Hin : e ∈ sources (world_at s l) r x) by (by apply (Hr e r x)).
    destruct (unrelate_ok s l l e r x) as (s' & Hrun & Hch & Hpost);
      [done | done | done | by rewrite Hcur |].
    exists s'. split_and!; try done.
    + pose proof Hin as (d & srcs & Hd & Hsrcs & He)%elem_of_sources.
      pose proof Hcur as (rs & Hrs & Hrsr)%current_target_Some.
      rewrite (unrelate_run s l l e r x d srcs rs) in Hrun by eauto.
      injection Hrun as <-. rewrite world_at_set_world.
      unfold has_bucket, sources; simpl.
      rewrite lookup_insert_eq, Hd; simpl. rewrite Hsrcs; simpl.
      destruct (decide (srcs ∖ {[e]} = ∅)) as [Hempty|Hempty].
      * rewrite lookup_delete_eq. split.
        -- by intros ?%is_Some_None.
        -- intros Hne. destruct Hne. apply set_eq. intros z.
           rewrite elem_of_singleton. split; [|by intros ->].
           intros Hz. destruct (decide (z = e)) as [|Hne]; [done|].
           assert (z ∈ srcs ∖ {[e]}) as Hin' by set_solver.
           rewrite Hempty in Hin'. set_solver.
      * rewrite lookup_insert_eq. split; [|eauto].
        intros _ ->. clear -Hempty. set_solver.
    + split; [destruct Hch as [-> _]; done|].
      by eapply unrelate_post_wf.
  - intros Hx Hcur.
    destruct (unrelate_not_current s (mkEntity e l) r x) as (s' & Hrun);
      [done..|].
    exists s'. split; [done|].
    replace s' with (unrelate (mkEntity e l) r x s).2 by (by rewrite Hrun).
    apply (call_only_changes (OpUnrelate (mkEntity e l) r x)). discriminate.
Qed.

Lemma unrelate_outcomes_witness :
  unrelate (mkEntity 1 W0) "likes" 7 likes_store
  = (Raise NameError, likes_store) ∧
  (∃ s', unrelate (mkEntity 1 W0) "likes" 2 likes_store = (Ret tt, s') ∧
     has_bucket (world_at s' W0) "likes" 2) ∧
  (∃ s', unrelate (mkEntity 2 W0) "likes" 0 likes_store = (Ret tt, s') ∧
     ¬ has_bucket (world_at s' W0) "likes" 0) ∧
  (∃ s', unrelate (mkEntity 1 W0) "likes" 0 likes_store
         = (Raise KeyError, s')).
Proof.
  assert (Hord : in_order likes_store W0) by by_evaluation.
  destruct (unrelate_outcomes likes_store (mkEntity 1 W0) "likes" 7 Hord)
    as (Hdead & _ & _).
  destruct (unrelate_outcomes likes_store (mkEntity 1 W0) "likes" 2 Hord)
    as (_ & Hret1 & _).
  destruct (unrelate_outcomes likes_store (mkEntity 2 W0) "likes" 0 Hord)
    as (_ & Hret2 & _).
  destruct (unrelate_outcomes likes_store (mkEntity 1 W0) "likes" 0 Hord)
    as (_ & _ & Hraise).
  split_and!.
  - apply Hdead. by_evaluation.
  - destruct Hret1 as (s' & Hrun & _ & _ & Hb & _); [by_evaluation..|].
    exists s'. split; [exact Hrun|]. apply Hb. by_evaluation.
  - destruct Hret2 as (s' & Hrun & _ & _ & Hb & _); [by_evaluation..|].
    exists s'. split; [exact Hrun|]. intros Hhas. apply Hb in Hhas.
    apply Hhas. by_evaluation.
  - destruct Hraise as (s' & Hrun & _); [by_evaluation..|].
    by exists s'.
Defined.

(** X16: when [unrelate] raises [KeyError] in a registry in order, the
    registry stays in order unless the entity has a current target for
    the name and the table has a bucket for the target asked for.  Then
    line 74 has deleted the record before line 75 raised: the entity
    has lost its current target while it is still in the source set of
    that target, and invariant 3 no longer holds. *)
Theorem unrelate_failure_effect (s : Store) (self : Entity) (r : string)
    (x : Z) :
  let w := world_at s (world self) in
  in_order s (world self) → x ∈ entities w →
  current_target w (eid self) r ≠ Some x →
  ∃ s', unrelate self r x s = (Raise KeyError, s') ∧
    (let w' := world_at s' (world self) in
     (has_bucket w r x ∧ is_Some (current_target w (eid self) r) →
      unrecorded (eid self) r w w' ∧ ¬ wf w') ∧
     (¬ (has_bucket w r x ∧ is_Some (current_target w (eid self) r)) →
      same_views w w' ∧ in_order s' (world self))).
Proof.
  destruct self as [e l]; simpl. intros [Hg Hwf] Hx Hcur.
  pose proof Hwf as (_ & _ & _ & Hr & _)%wf_views.
  assert (Hacc : accepted s x) by (by exists l).
  assert (Hnot : e ∉ sources (world_at s l) r x).
  { intros Hin. by apply (Hr e r x) in Hin. }
  destruct (decide (is_Some (default ∅ (relations (world_at s l) !! r) !! x)
                    ∧ is_Some (current_target (world_at s l) e r)))
    as [[Hb Ht]|Hno].
  - destruct (unrelate_dirty_failure s l e r x) as (s' & Hrun & _ & Hpost);
      [done..|].
    exists s'. split; [done|]. split; [|by intros []].
    intros _. split; [done|]. intros Hwf'.
    destruct Hpost as (_ & _ & _ & Hsrc & Hct).
    destruct Ht as [y Hy].
    apply (Hr e r y) in Hy. rewrite <- Hsrc in Hy.
    apply (wf_current_target _ _ _ _ Hwf') in Hy.
    rewrite Hct, decide_True in Hy by done. done.
  - destruct (unrelate_clean_failure s l e r x) as (s' & Hrun & Hch & Hv);
      [done..|].
    exists s'. split; [done|]. split; [by intros ?|].
    intros _. split; [done|]. split.
    + destruct Hch as [-> _]. done.
    + by eapply wf_same_views.
Qed.

Lemma unrelate_failure_effect_witness :
  (∃ s', unrelate (mkEntity 0 W0) "r" 2 two_edges = (Raise KeyError, s') ∧
         unrecorded 0 "r" (world_at two_edges W0) (world_at s' W0) ∧
         ¬ wf (world_at s' W0)) ∧
  (∃ s', unrelate (mkEntity 1 W0) "r" 2 two_edges = (Raise KeyError, s') ∧
         in_order s' W0).
Proof.
  assert (Hord : in_order two_edges W0) by by_evaluation.
  split.
  - destruct (unrelate_failure_effect two_edges (mkEntity 0 W0) "r" 2 Hord)
      as (s' & Hrun & Hdirty & _); [by_evaluation..|].
    exists s'. split; [exact Hrun|]. apply Hdirty.
    split; [exists {[3]}|exists 1]; by_evaluation.
  - destruct (unrelate_failure_effect two_edges (mkEntity 1 W0) "r" 2 Hord)
      as (s' & Hrun & _ & Hclean); [by_evaluation..|].
    exists s'. split; [exact Hrun|]. apply Hclean.
    intros [_ [y Hy]]. revert Hy. by_evaluation.
Defined.

(** X17: the three ways [relate] ends in a registry in order.  A
    target that is not live is rejected with [NameError] and nothing
    is written.  Through a handle whose entity is not live the call
    raises [KeyError] and changes no view.  Otherwise it returns: the
    target is the entity's current target for the name, the entity has
    joined the source set of the target and left that of its former
    target, nothing else has changed, and the registry is in order
    again; relating to the current target once more changes no view. *)
Theorem relate_outcomes (s : Store) (self : Entity) (r : string) (x : Z) :
  let w := world_at s (world self) in
  in_order s (world self) →
  (x ∉ entities w → relate self r x s = (Raise NameError, s)) ∧
  (x ∈ entities w → eid self ∉ entities w →
   ∃ s', relate self r x s = (Raise KeyError, s') ∧
     only_changes (world self) s s' ∧
     same_views w (world_at s' (world self))) ∧
  (x ∈ entities w → eid self ∈ entities w →
   ∃ s', relate self r x s = (Ret tt, s') ∧
     only_changes (world self) s s' ∧
     relate_post (eid self) r x w (world_at s' (world self)) ∧
     (current_target w (eid self) r = Some x →
      same_views w (world_at s' (world self))) ∧
     in_order s' (world self)).
Proof.
  destruct self as [e l]; simpl. intros [Hg Hwf].
  pose proof Hwf as (_ & _ & _ & Hr & _)%wf_views.
  split_and!.
  - intros Hx. unfold relate. mrun. by rewrite decide_False.
  - intros Hx He.
    destruct (wf_dead_no_records _ _ Hwf He) as (_ & _ & Hrs).
    unfold relate, dd_relations, getattr_relations. mrun.
    rewrite decide_True by done. mrun.
    destruct (relations (world_at s l) !! r) as [d|] eqn:Hd; mrun.
    + rewrite Hrs. mrun. exists s.
      eauto using only_changes_refl, same_views_refl.
    + rewrite Hrs. mrun. eexists. split; [reflexivity|].
      split; [apply only_changes_set_world|].
      rewrite world_at_set_world. by apply same_views_touch_relations.
  - intros Hx He.
    destruct (relate_ok s l l e r x) as (s' & Hrun & Hch & Hpost);
      [done | done | by apply wf_has_rels | |].
    { intros old Hold. by apply (Hr e r old). }
    exists s'. do 3 (split; [done|]). split.
    + intros Hcur. destruct Hpost as (Hb & Hc & Ht & Hct & Hsrc).
      do 3 (split; [done|]). split.
      * intros e' r'. rewrite Hct. case_decide as Hd; [|done].
        by destruct Hd as [-> ->].
      * intros r' y. rewrite Hsrc.
        destruct (decide (r' = r)) as [->|]; [|done].
        destruct (decide (y = x)) as [->|Hy].
        -- apply (Hr e r x) in Hcur. set_solver.
        -- rewrite decide_False; [done|]. congruence.
    + split; [destruct Hch as [-> _]; done|].
      exact (relate_post_wf _ _ _ _ _ Hwf Hx Hpost).
Qed.

Lemma relate_outcomes_witness :
  relate (mkEntity 1 W0) "likes" 7 likes_store
  = (Raise NameError, likes_store) ∧
  (∃ s', relate (mkEntity 7 W0) "likes" 1 likes_store
         = (Raise KeyError, s')) ∧
  (∃ s', relate (mkEntity 1 W0) "likes" 2 likes_store = (Ret tt, s') ∧
     same_views (world_at likes_store W0) (world_at s' W0)).
Proof.
  assert (Hord : in_order likes_store W0) by by_evaluation.
  destruct (relate_outcomes likes_store (mkEntity 1 W0) "likes" 7 Hord)
    as (Hdead & _ & _).
  destruct (relate_outcomes likes_store (mkEntity 7 W0) "likes" 1 Hord)
    as (_ & Hstale & _).
  destruct (relate_outcomes likes_store (mkEntity 1 W0) "likes" 2 Hord)
    as (_ & _ & Hret).
  split_and!.
  - apply Hdead. by_evaluation.
  - destruct Hstale as (s' & Hrun & _); [by_evaluation..|]. by exists s'.
  - destruct Hret as (s' & Hrun & _ & _ & Hsame & _); [by_evaluation..|].
    exists s'. split; [exact Hrun|]. apply Hsame. by_evaluation.
Defined.

(** X18: [relate] does not prune.  When it moves an entity from a
    target to another, the bucket of the former target stays in the
    table with the sources that remain, empty if there are none;
    [unrelate] deletes the bucket in that case. *)
Theorem relate_keeps_old_bucket (s : Store) (self : Entity) (r : string)
    (a b : Z) :
  let w := world_at s (world self) in
  in_order s (world self) → b ∈ entities w →
  current_target w (eid self) r = Some a → a ≠ b →
  ∃ s', relate self r b s = (Ret tt, s') ∧
    default ∅ (relations (world_at s' (world self)) !! r) !! a
    = Some (sources w r a ∖ {[eid self]}).
Proof.
  destruct self as [e l]; simpl. intros [Hg Hwf] Hb Hcur Hab.
  pose proof Hwf as (_ & _ & _ & Hr & _)%wf_views.
  pose proof Hcur as (rs & Hrs & Hrsr)%current_target_Some.
  pose proof Hcur as (d0 & srcs & Hd0 & Hsrcs & He)%(Hr e r a)%elem_of_sources.
  eexists. split.
  - apply (relate_run s l l e r b d0 rs); try done.
    intros old Hold. assert (old = a) as -> by congruence. eauto.
  - rewrite world_at_set_world; simpl. rewrite lookup_insert_eq; simpl.
    rewrite Hrsr, lookup_insert_ne, lookup_insert_eq by done.
    unfold sources. by rewrite Hd0; simpl; rewrite Hsrcs.
Qed.

Lemma relate_keeps_old_bucket_witness :
  ∃ s', relate (mkEntity 2 W0) "likes" 1 likes_store = (Ret tt, s') ∧
    default ∅ (relations (world_at s' W0) !! "likes") !! 0 = Some ∅.
Proof.
  destruct (relate_keeps_old_bucket likes_store (mkEntity 2 W0) "likes" 0 1)
    as (s' & Hrun & Hb); [by_evaluation.. | done |].
  exists s'. split; [exact Hrun|]. cbn [world eid] in Hb. rewrite Hb.
  by_evaluation.
Defined.

(** X19: relating an entity that has no current target for the name
    and unrelating it again restores every view, and the registry is
    in order again. *)
Theorem relate_unrelate_restores (s : Store) (self : Entity) (r : string)
    (x : Z) :
  let w := world_at s (world self) in
  in_order s (world self) →
  eid self ∈ entities w → x ∈ entities w →
  current_target w (eid self) r = None →
  ∃ s1 s2,
    relate self r x s = (Ret tt, s1) ∧
    unrelate self r x s1 = (Ret tt, s2) ∧
    only_changes (world self) s s2 ∧
    same_views w (world_at s2 (world self)) ∧
    in_order s2 (world self).
Proof.
  destruct self as [e l]; simpl. intros [Hg Hwf] He Hx Hnone.
  pose proof Hwf as (_ & _ & _ & Hr & _)%wf_views.
  destruct (relate_ok s l l e r x) as (s1 & Hrun1 & Hch1 & Hpost1);
    [done | done | by apply wf_has_rels | |].
  { intros old Hold. by apply (Hr e r old). }
  pose proof (relate_post_wf _ _ _ _ _ Hwf Hx Hpost1) as Hwf1.
  pose proof Hpost1 as (Hb1 & Hc1 & Ht1 & Hct1 & Hsrc1).
  assert (Hg1 : ambient s1 = Some l) by (destruct Hch1 as [-> _]; done).
  assert (Hx1 : x ∈ entities (world_at s1 l)).
  { destruct Hb1 as (-> & _). done. }
  assert (Hcur1 : current_target (world_at s1 l) e r = Some x).
  { by rewrite Hct1, decide_True. }
  assert (Hin1 : e ∈ sources (world_at s1 l) r x).
  { rewrite Hsrc1, !decide_True by done. set_solver. }
  destruct (unrelate_ok s1 l l e r x) as (s2 & Hrun2 & Hch2 & Hpost2);
    [done | done | done | by rewrite Hcur1 |].
  pose proof Hpost2 as (Hb2 & Hc2 & Ht2 & Hct2 & Hsrc2).
  assert (Hv : same_views (world_at s l) (world_at s2 l)).
  { split_and!.
    - by eapply base_eq_trans.
    - by eapply comp_eq_trans.
    - by eapply tag_eq_trans.
    - split.
      + intros e' r'. rewrite Hct2, Hct1.
        case_decide as Hd; [|done]. by destruct Hd as [-> ->].
      + intros r' y. rewrite Hsrc2.
        destruct (decide (r' = r ∧ y = x)) as [[-> ->]|Hd].
        * rewrite Hsrc1, !decide_True by done.
          assert (e ∉ sources (world_at s l) r x).
          { intros Hin. apply (Hr e r x) in Hin. congruence. }
          set_solver.
        * rewrite Hsrc1. destruct (decide (r' = r)) as [->|]; [|done].
          rewrite decide_False by naive_solver.
          rewrite decide_False; [done|]. congruence. }
  exists s1, s2. do 2 (split; [done|]).
  split; [by eapply only_changes_trans|]. split; [done|]. split.
  - destruct Hch2 as [-> _]. done.
  - by eapply wf_same_views.
Qed.

Lemma relate_unrelate_restores_witness :
  ∃ s1 s2,
    relate (mkEntity 0 W0) "likes" 3 likes_store = (Ret tt, s1) ∧
    unrelate (mkEntity 0 W0) "likes" 3 s1 = (Ret tt, s2) ∧
    same_views (world_at likes_store W0) (world_at s2 W0).
Proof.
  destruct (relate_unrelate_restores likes_store (mkEntity 0 W0) "likes" 3)
    as (s1 & s2 & H1 & H2 & _ & Hv & _); [by_evaluation..|].
  exists s1, s2. split; [exact H1|]. split; [exact H2 | exact Hv].
Defined.

(** * Tags *)

(** X20: in a registry that satisfies the invariants, tagging a live
    entity with a tag it does not have returns; the tag joins the
    entity's tag set, the entity joins the holders of the tag, nothing
    else changes, and the invariants still hold. *)
Theorem tag_adds (s : Store) (self : Entity) (t : Tag) :
  let w := world_at s (world self) in
  wf w → eid self ∈ entities w → t ∉ tags_of w (eid self) →
  ∃ s', tag self t s = (Ret tt, s') ∧
    only_changes (world self) s s' ∧
    tag_post (eid self) t w (world_at s' (world self)) ∧
    wf (world_at s' (world self)).
Proof.
  destruct self as [e l]; simpl. intros Hwf He Ht.
  destruct (wf_has_tags _ _ Hwf He) as [ts Hts].
  destruct (tag_ok s l e t ts) as (s' & Hrun & Hch & Hpost); [done| |].
  { intros Hin. apply Ht, elem_of_tags_of. eauto. }
  exists s'. split_and!; try done. by eapply tag_post_wf.
Qed.

Lemma tag_adds_witness :
  ∃ s', tag (mkEntity 3 W0) enemy tagged_store = (Ret tt, s') ∧
    tag_post 3 enemy (world_at tagged_store W0) (world_at s' W0) ∧
    wf (world_at s' W0).
Proof.
  destruct (tag_adds tagged_store (mkEntity 3 W0) enemy)
    as (s' & Hrun & _ & Hpost & Hwf); [by_evaluation..|].
  exists s'. split; [exact Hrun|]. split; [exact Hpost | exact Hwf].
Defined.

(** X21: tagging an entity with a tag it does not have and untagging
    it again restores the registry, table for table, with one
    exception: an empty bucket that the tag had before (a query for
    the tag leaves one) has been pruned. *)
Theorem tag_untag_restores (s : Store) (self : Entity) (t : Tag) :
  let w := world_at s (world self) in
  is_Some (eid_tags w !! eid self) →
  t ∉ tags_of w (eid self) →
  eid self ∉ tag_holders w t →
  ∃ s1 s2,
    tag self t s = (Ret tt, s1) ∧
    untag self t s1 = (Ret tt, s2) ∧
    only_changes (world self) s s2 ∧
    world_at s2 (world self)
    = if decide (tags w !! t = Some ∅) then with_tags (delete t) w else w.
Proof.
  destruct self as [e l]; simpl. intros [ts Hts] Ht He.
  assert (Hin : t ∉ ts).
  { intros Hin. apply Ht, elem_of_tags_of. eauto. }
  set (b0 := default ∅ (tags (world_at s l) !! t)).
  assert (Hb0 : e ∉ b0) by done.
  eexists _, _. split; [by apply tag_run|].
  rewrite (untag_run _ l e t (ts ∪ {[t]}) (b0 ∪ {[e]})).
  - split; [reflexivity|]. rewrite set_world_set_world.
    split; [apply only_changes_set_world|].
    rewrite !world_at_set_world.
    assert ((b0 ∪ {[e]}) ∖ {[e]} = b0) as -> by set_solver.
    assert ((ts ∪ {[t]}) ∖ {[t]} = ts) as -> by set_solver.
    subst b0.
    destruct (world_at s l) as [en co ta re ec et er ni] eqn:Hw.
    unfold with_tags, with_eid_tags; simpl in *.
    rewrite insert_insert_eq, (insert_id et e ts) by done.
    destruct (ta !! t) as [b|] eqn:Hb; simpl.
    + destruct (decide (b = ∅)) as [->|Hne].
      * rewrite decide_True by done. by rewrite delete_insert_eq.
      * rewrite decide_False by congruence.
        by rewrite insert_insert_eq, insert_id.
    + rewrite decide_True by done.
      rewrite delete_insert_eq. f_equal. by apply delete_id.
  - rewrite world_at_set_world; simpl. apply lookup_insert_eq.
  - set_solver.
  - rewrite world_at_set_world; simpl. apply lookup_insert_eq.
  - set_solver.
Qed.

Lemma tag_untag_restores_witness :
  ∃ s1 s2,
    tag (mkEntity 3 W0) enemy tagged_store = (Ret tt, s1) ∧
    untag (mkEntity 3 W0) enemy s1 = (Ret tt, s2) ∧
    world_at s2 W0 = world_at tagged_store W0.
Proof.
  destruct (tag_untag_restores tagged_store (mkEntity 3 W0) enemy)
    as (s1 & s2 & H1 & H2 & _ & Hw).
  - exists ∅. by_evaluation.
  - by_evaluation.
  - by_evaluation.
  - exists s1, s2. split; [exact H1|]. split; [exact H2|].
    cbn [world eid] in Hw. rewrite Hw. by_evaluation.
Defined.

(** * More on the query engine *)

Lemma touched_nil `{Countable K} {V} `{Empty V} (m : gmap K V) :
  touched [] m m.
Proof.
  intros k. destruct (m !! k); [done|].
  rewrite decide_False; [done|]. apply not_elem_of_nil.
Qed.

Lemma touched_app `{Countable K} {V} `{Empty V} (ks1 ks2 : list K)
    (m m1 m2 : gmap K V) :
  touched ks1 m m1 → touched ks2 m1 m2 → touched (ks1 ++ ks2) m m2.
Proof.
  intros H1 H2 k. rewrite (H2 k), (H1 k).
  destruct (m !! k); [done|].
  destruct (decide (k ∈ ks1)) as [Hk1|Hk1].
  - rewrite decide_True; [done|]. apply elem_of_app. by left.
  - destruct (decide (k ∈ ks2)) as [Hk2|Hk2].
    + rewrite decide_True; [done|]. apply elem_of_app. by right.
    + rewrite decide_False; [done|]. rewrite elem_of_app. tauto.
Qed.

(** One read of a [defaultdict]. *)
Lemma touched_one `{Countable K} {V} `{Empty V} (k : K) (m : gmap K V) :
  touched [k] m (match m !! k with Some _ => m | None => <[k := ∅]> m end).
Proof.
  intros k'. destruct (m !! k) as [v|] eqn:Hk.
  - destruct (m !! k') eqn:Hk'; [done|].
    rewrite decide_False; [done|]. intros ->%list_elem_of_singleton.
    congruence.
  - destruct (decide (k' = k)) as [->|Hne].
    + rewrite lookup_insert_eq, Hk, decide_True; [done|].
      by apply list_elem_of_singleton.
    + rewrite lookup_insert_ne by done. destruct (m !! k'); [done|].
      rewrite decide_False; [done|]. by intros ?%list_elem_of_singleton.
Qed.

Lemma query_post_refl w : query_post [] [] [] w w.
Proof. unfold query_post. split_and!; try done; apply touched_nil. Qed.

Lemma query_post_app c1 t1 r1 c2 t2 r2 w w1 w2 :
  query_post c1 t1 r1 w w1 → query_post c2 t2 r2 w1 w2 →
  query_post (c1 ++ c2) (t1 ++ t2) (r1 ++ r2) w w2.
Proof.
  intros (A1 & A2 & A3 & A4 & A5 & A6 & A7 & A8)
    (B1 & B2 & B3 & B4 & B5 & B6 & B7 & B8).
  unfold query_post. rewrite fmap_app.
  split_and!; try congruence; by eapply touched_app.
Qed.

(** A comprehension whose element expression returns: the run, with
    what it leaves of the registry. *)
Lemma comprehension_run {A B} (l : loc) (f : A → M B)
    (Q : list A → World → World → Prop) :
  (∀ w, Q [] w w) →
  (∀ x xs w w1 w2, Q [x] w w1 → Q xs w1 w2 → Q (x :: xs) w w2) →
  (∀ x s, ∃ y s', f x s = (Ret y, s') ∧ only_changes l s s' ∧
                  Q [x] (world_at s l) (world_at s' l)) →
  ∀ xs s, ∃ ys s', comprehension f xs s = (Ret ys, s') ∧
                   only_changes l s s' ∧
                   Q xs (world_at s l) (world_at s' l).
Proof.
  intros Hnil Hcons Hf. induction xs as [|x xs IH]; intros s; simpl.
  - exists [], s. split_and!; [done | apply only_changes_refl | apply Hnil].
  - destruct (Hf x s) as (y & s1 & Hrun & Hch1 & HQ1).
    destruct (IH s1) as (ys & s2 & Hrest & Hch2 & HQ2).
    exists (y :: ys), s2.
    rewrite (bind_run _ _ _ _ _ Hrun), (bind_run _ _ _ _ _ Hrest).
    split_and!; [done | by eapply only_changes_trans | by eapply Hcons].
Qed.

(** What the three comprehensions of [query] and the code after them
    leave of the store. *)
Lemma query_effect (s : Store) (self : loc) (comps : list Component)
    (tags_ : list Tag) (rels : list (string * Z)) :
  let s' := (query self comps tags_ rels s).2 in
  only_changes self s s' ∧
  query_post comps tags_ rels (world_at s self) (world_at s' self).
Proof.
  unfold query.
  destruct (comprehension_run self
              (λ comp, let! d := dd_components self comp in ret (dom d))
              (λ xs, query_post xs [] []) query_post_refl) with
    (xs := comps) (s := s) as (cs & s1 & Hc & Hch1 & HQ1).
  { intros x xs w w1 w2 H1 H2.
    apply (query_post_app [x] [] [] xs [] [] w w1 w2 H1 H2). }
  { intros c s0. unfold dd_components. mrun.
    pose proof (touched_one c (components (world_at s0 self))) as Hone.
    destruct (components (world_at s0 self) !! c) as [d|] eqn:Hd; mrun.
    - eexists _, s0. split; [reflexivity|].
      split; [apply only_changes_refl|].
      unfold query_post. split_and!; try done; apply touched_nil.
    - eexists _, _. split; [reflexivity|].
      split; [apply only_changes_set_world|]. rewrite world_at_set_world.
      unfold query_post; simpl. split_and!; try done; apply touched_nil. }
  destruct (comprehension_run self (dd_tags self)
              (λ xs, query_post [] xs []) query_post_refl) with
    (xs := tags_) (s := s1) as (ts & s2 & Ht & Hch2 & HQ2).
  { intros x xs w w1 w2 H1 H2.
    apply (query_post_app [] [x] [] [] xs [] w w1 w2 H1 H2). }
  { intros t s0. unfold dd_tags. mrun.
    pose proof (touched_one t (tags (world_at s0 self))) as Hone.
    destruct (tags (world_at s0 self) !! t) as [b|] eqn:Hb; mrun.
    - eexists _, s0. split; [reflexivity|].
      split; [apply only_changes_refl|].
      unfold query_post. split_and!; try done; apply touched_nil.
    - eexists _, _. split; [reflexivity|].
      split; [apply only_changes_set_world|]. rewrite world_at_set_world.
      unfold query_post; simpl. split_and!; try done; apply touched_nil. }
  destruct (comprehension_run self
              (λ rel, let! d := dd_relations self rel.1 in
                      ret (default ∅ (d !! rel.2)))
              (λ xs, query_post [] [] xs) query_post_refl) with
    (xs := rels) (s := s2) as (rs & s3 & Hr & Hch3 & HQ3).
  { intros x xs w w1 w2 H1 H2.
    apply (query_post_app [] [] [x] [] [] xs w w1 w2 H1 H2). }
  { intros rel s0. unfold dd_relations. mrun.
    pose proof (touched_one rel.1 (relations (world_at s0 self))) as Hone.
    destruct (relations (world_at s0 self) !! rel.1) as [d|] eqn:Hd; mrun.
    - eexists _, s0. split; [reflexivity|].
      split; [apply only_changes_refl|].
      unfold query_post. split_and!; try done; apply touched_nil.
    - eexists _, _. split; [reflexivity|].
      split; [apply only_changes_set_world|]. rewrite world_at_set_world.
      unfold query_post; simpl. split_and!; try done; apply touched_nil. }
  rewrite (bind_run _ _ _ _ _ Hc), (bind_run _ _ _ _ _ Ht),
    (bind_run _ _ _ _ _ Hr).
  destruct (intersection_or_empty_sorted cs s3) as (Ic & HIc & _).
  destruct (intersection_or_empty_sorted ts s3) as (It & HIt & _).
  destruct (intersection_or_empty_sorted rs s3) as (Ir & HIr & _).
  cbv zeta.
  rewrite (bind_run _ _ _ _ _ HIc), (bind_run _ _ _ _ _ HIt),
    (bind_run _ _ _ _ _ HIr).
  match goal with
  | |- only_changes _ _ (set_intersection ?q s3).2 ∧ _ =>
      assert ((set_intersection q s3).2 = s3) as -> by (by destruct q)
  end.
  split.
  - eapply only_changes_trans; [|exact Hch3].
    eapply only_changes_trans; [exact Hch1 | exact Hch2].
  - pose proof (query_post_app _ _ _ _ _ _ _ _ _ HQ1 HQ2) as H12.
    pose proof (query_post_app _ _ _ _ _ _ _ _ _ H12 HQ3) as H123.
    by rewrite !app_nil_r in H123.
Qed.

(** X22: what a query writes.  However it ends, a query leaves the
    live set, the counter and the per-entity records as they were and
    writes no other registry; in each of the three [defaultdict]
    tables it stores an empty entry under every key it read that the
    table did not have, and changes nothing else. *)
Theorem query_writes_empty_entries (s : Store) (self : loc)
    (comps : list Component) (tags_ : list Tag) (rels : list (string * Z)) :
  let w := world_at s self in
  let s' := (query self comps tags_ rels s).2 in
  let w' := world_at s' self in
  only_changes self s s' ∧
  (∀ c, components w' !! c =
        match components w !! c with
        | Some d => Some d
        | None => if decide (c ∈ comps) then Some ∅ else None
        end) ∧
  (∀ t, tags w' !! t =
        match tags w !! t with
        | Some b => Some b
        | None => if decide (t ∈ tags_) then Some ∅ else None
        end) ∧
  (∀ r, relations w' !! r =
        match relations w !! r with
        | Some d => Some d
        | None => if decide (r ∈ rels.*1) then Some ∅ else None
        end) ∧
  entities w' = entities w ∧ eid_comps w' = eid_comps w ∧
  eid_tags w' = eid_tags w ∧ eid_rels w' = eid_rels w ∧
  next_id w' = next_id w.
Proof.
  intros w s' w'. destruct (query_effect s self comps tags_ rels) as [Hch HQ].
  split; [exact Hch|]. exact HQ.
Qed.

(** The result of a query with at least one criterion, through the
    views. *)
Lemma query_result (s : Store) (self : loc)
    (comps : list Component) (tags : list Tag) (rels : list (string * Z)) :
  comps ≠ [] ∨ tags ≠ [] ∨ rels ≠ [] →
  ∃ result s',
    query self comps tags rels s = (Ret result, s') ∧
    ∀ e, e ∈ result ↔
      (∀ c, c ∈ comps → e ∈ component_holders (world_at s self) c) ∧
      (∀ t, t ∈ tags → e ∈ tag_holders (world_at s self) t) ∧
      (∀ r x, (r, x) ∈ rels → e ∈ sources (world_at s self) r x).
Proof.
  intros Hcrit. unfold query.
  (* the three comprehensions *)
  destruct (comprehension_views self
              (λ comp, let! d := dd_components self comp in ret (dom d))
              component_holders comps) with (s := s) as (s1 & Hc & Hv1).
  { intros w w' c Hv. by apply same_views_component_holders. }
  { intros c s0. destruct (dd_components_view self c s0)
      as (d & s' & Hrun & Hd & _ & Hv).
    exists s'. by rewrite (bind_run _ _ _ _ _ Hrun), <- Hd. }
  destruct (comprehension_views self (dd_tags self) tag_holders tags)
    with (s := s1) as (s2 & Ht & Hv2).
  { intros w w' t Hv. by apply same_views_tag_holders. }
  { intros t s0. destruct (dd_tags_view self t s0) as (s' & Hrun & _ & Hv).
    eauto. }
  destruct (comprehension_views self
              (λ rel, let! d := dd_relations self rel.1 in
                      ret (default ∅ (d !! rel.2)))
              (λ w rel, sources w rel.1 rel.2) rels)
    with (s := s2) as (s3 & Hr & Hv3).
  { intros w w' rel Hv. by apply same_views_sources. }
  { intros rel s0. destruct (dd_relations_view self rel.1 s0)
      as (d & s' & Hrun & Hd & _ & Hv).
    exists s'. by rewrite (bind_run _ _ _ _ _ Hrun), <- Hd. }
  rewrite (bind_run _ _ _ _ _ Hc), (bind_run _ _ _ _ _ Ht),
    (bind_run _ _ _ _ _ Hr).
  (* the three guarded intersections *)
  destruct (intersection_or_empty_sorted
              (component_holders (world_at s self) <$> comps) s3)
    as (Ic & HIc & Hcs).
  destruct (intersection_or_empty_sorted
              (tag_holders (world_at s1 self) <$> tags) s3)
    as (It & HIt & Hts).
  destruct (intersection_or_empty_sorted
              ((λ rel, sources (world_at s2 self) rel.1 rel.2) <$> rels) s3)
    as (Ir & HIr & Hrs).
  cbv zeta.
  rewrite (bind_run _ _ _ _ _ HIc), (bind_run _ _ _ _ _ HIt),
    (bind_run _ _ _ _ _ HIr).
  (* what each category contributes *)
  assert (Hcs' : comps ≠ [] → ∀ e, e ∈ Ic ↔
            ∀ c, c ∈ comps → e ∈ component_holders (world_at s self) c).
  { intros Hne e. rewrite Hcs by (by destruct comps).
    apply forall_fmap_views. }
  assert (Hts' : tags ≠ [] → ∀ e, e ∈ It ↔
            ∀ t, t ∈ tags → e ∈ tag_holders (world_at s self) t).
  { intros Hne e. rewrite Hts by (by destruct tags).
    rewrite forall_fmap_views.
    by setoid_rewrite (same_views_tag_holders _ _ _ Hv1). }
  assert (Hrs' : rels ≠ [] → ∀ e, e ∈ Ir ↔
            ∀ r x, (r, x) ∈ rels → e ∈ sources (world_at s self) r x).
  { intros Hne e. rewrite Hrs by (by destruct rels).
    rewrite (forall_fmap_views
               (λ rel, sources (world_at s2 self) rel.1 rel.2)).
    pose proof (same_views_trans _ _ _ Hv1 Hv2) as Hv.
    setoid_rewrite (same_views_sources _ _ _ _ Hv). split.
    - intros H r x Hin. apply (H (r, x) Hin).
    - intros H [r x] Hin. by apply H. }
  clear Hcs Hts Hrs HIc HIt HIr Hc Ht Hr.
  destruct comps as [|c0 comps], tags as [|t0 tags], rels as [|r0 rels];
    simpl; (try by destruct Hcrit as [?|[?|?]]);
    eexists _, s3; (split; [reflexivity|]); intros e;
    rewrite ?elem_of_intersection;
    rewrite ?Hcs', ?Hts', ?Hrs' by done;
    split; try tauto; intros; repeat split;
    try tauto; try (by intros ? ?%elem_of_nil);
    try (by intros ? ? ?%elem_of_nil).
Qed.

Lemma same_elements_nil {A} (l l' : list A) :
  (∀ x, x ∈ l ↔ x ∈ l') → l = [] → l' = [].
Proof.
  intros Hsame ->. destruct l' as [|x l']; [done|].
  exfalso. apply (not_elem_of_nil x), Hsame. by left.
Qed.

(** X23: the result of a query depends on which criteria are asked
    for, not on their order or on repetitions: two calls whose three
    lists have the same elements have the same outcome, the same set
    of ids or the same exception.  Sorting the operands by size and
    intersecting category by category does not show in the result. *)
Theorem query_order_irrelevant (s : Store) (self : loc)
    (comps comps' : list Component) (tags_ tags' : list Tag)
    (rels rels' : list (string * Z)) :
  (∀ c, c ∈ comps ↔ c ∈ comps') →
  (∀ t, t ∈ tags_ ↔ t ∈ tags') →
  (∀ p, p ∈ rels ↔ p ∈ rels') →
  (query self comps tags_ rels s).1 = (query self comps' tags' rels' s).1.
Proof.
  intros Hc Ht Hr.
  assert (Hcases : (comps = [] ∧ tags_ = [] ∧ rels = []) ∨
                   (comps ≠ [] ∨ tags_ ≠ [] ∨ rels ≠ [])).
  { destruct comps, tags_, rels; auto. }
  destruct Hcases as [(Ec & Et & Er)|Hcrit].
  - rewrite (same_elements_nil _ _ Hc Ec), (same_elements_nil _ _ Ht Et),
      (same_elements_nil _ _ Hr Er). by subst.
  - assert (Hcrit' : comps' ≠ [] ∨ tags' ≠ [] ∨ rels' ≠ []).
    { destruct Hcrit as [H|[H|H]]; [left | right; left | right; right];
        intros E; apply H; eapply same_elements_nil; try exact E;
        intros x; symmetry; auto. }
    destruct (query_result s self comps tags_ rels Hcrit)
      as (q & s1 & -> & Hq).
    destruct (query_result s self comps' tags' rels' Hcrit')
      as (q' & s2 & -> & Hq').
    simpl. f_equal. apply set_eq. intros e. rewrite Hq, Hq'.
    setoid_rewrite Hc. setoid_rewrite Ht.
    split; intros (H1 & H2 & H3); split_and!; try done;
      intros r x Hin; apply H3; by apply Hr.
Qed.

Lemma query_order_irrelevant_witness :
  (query W0 [hp] [enemy; TagPair "team" 2] [("likes"%string, 2)]
     likes_store).1
  = (query W0 [hp; hp] [TagPair "team" 2; enemy; enemy]
       [("likes"%string, 2)] likes_store).1.
Proof.
  apply query_order_irrelevant.
  - intros c. rewrite !elem_of_cons. tauto.
  - intros t. rewrite !elem_of_cons. tauto.
  - done.
Defined.

Lemma query_post_values comps tags_ rels w w' c e :
  query_post comps tags_ rels w w' →
  component_value w' c e = component_value w c e.
Proof.
  intros (Hc & _). unfold component_value. rewrite (Hc c).
  destruct (components w !! c); [done|]. by case_decide.
Qed.

(** X24: every id a query returns can be used.  In a registry that
    satisfies the invariants, each id of the result is live, also
    after the query, so that a handle for it can be constructed, and
    through that handle every requested component reads a value and
    every requested relation name has the requested target as current
    target. *)
Theorem query_results_usable (s : Store) (self : loc)
    (comps : list Component) (tags_ : list Tag) (rels : list (string * Z))
    (result : gset Z) (s' : Store) :
  wf (world_at s self) →
  query self comps tags_ rels s = (Ret result, s') →
  ∀ e, e ∈ result →
    e ∈ entities (world_at s self) ∧
    Entity_init e self s' = (Ret (mkEntity e self), s') ∧
    (∀ c, c ∈ comps → ∃ v, (Entity_getitem (mkEntity e self) c s').1 = Ret v) ∧
    (∀ t, t ∈ tags_ → t ∈ tags_of (world_at s' self) e) ∧
    (∀ r x, (r, x) ∈ rels →
       current_target (world_at s' self) e r = Some x).
Proof.
  intros Hwf Hrun e He.
  assert (Hcrit : comps ≠ [] ∨ tags_ ≠ [] ∨ rels ≠ []).
  { destruct comps, tags_, rels; auto. }
  destruct (query_result s self comps tags_ rels Hcrit)
    as (q & s0 & Hrun0 & Hq).
  rewrite Hrun in Hrun0. injection Hrun0 as <- <-.
  destruct (query_effect s self comps tags_ rels) as [_ HQ].
  rewrite Hrun in HQ. simpl in HQ.
  pose proof HQ as (_ & _ & _ & Hents & Hec & Het & Her & _).
  apply Hq in He as (Hc & Ht & Hr).
  pose proof Hwf as (_ & Ic & It & Ir & _)%wf_views.
  assert (Hlive : e ∈ entities (world_at s self)).
  { destruct Hcrit as [H|[H|H]].
    - destruct comps as [|c comps]; [done|].
      apply (wf_component_holders_live _ c); [done|]. apply Hc. by left.
    - destruct tags_ as [|t tags_]; [done|].
      apply (wf_tag_holders_live _ t); [done|]. apply Ht. by left.
    - destruct rels as [|[r x] rels]; [done|].
      apply (wf_source_live _ e r x); [done|]. apply Hr. by left. }
  split_and!.
  - done.
  - apply Entity_init_run. by rewrite Hents.
  - intros c Hin. rewrite getitem_outcome; simpl.
    rewrite (query_post_values _ _ _ _ _ c e HQ).
    apply Hc, component_value_holders in Hin as [v Hv].
    rewrite Hv. eauto.
  - intros t Hin. unfold tags_of. rewrite Het. by apply (It e t), Ht.
  - intros r x Hin. unfold current_target. rewrite Her.
    by apply (Ir e r x), Hr.
Qed.

Lemma query_results_usable_witness :
  ∃ s', query W0 [hp] [enemy] [] hp_enemy_store = (Ret {[2]}, s') ∧
    Entity_init 2 W0 s' = (Ret (mkEntity 2 W0), s') ∧
    (∃ v, (Entity_getitem (mkEntity 2 W0) hp s').1 = Ret v).
Proof.
  assert (Hwf : wf (world_at hp_enemy_store W0)) by by_evaluation.
  assert (Hrun : query W0 [hp] [enemy] [] hp_enemy_store
                 = (Ret {[2]}, hp_enemy_store)) by by_evaluation.
  destruct (query_results_usable hp_enemy_store W0 [hp] [enemy] [] {[2]}
              hp_enemy_store Hwf Hrun 2) as (_ & Hinit & Hget & _).
  - by apply elem_of_singleton.
  - exists hp_enemy_store. split; [exact Hrun|]. split; [exact Hinit|].
    apply Hget. by left.
Defined.

(** * Failures *)

(** X25: in a registry in order, an operation other than [unrelate]
    that raises has changed no view of the registry, and the registry
    is still in order: apart from empty [defaultdict] entries, these
    operations write nothing before they fail. *)
Theorem failures_leave_views (o : op) (s : Store) :
  in_order s (registry_of o) →
  (∀ e r x, o ≠ OpUnrelate e r x) →
  (call o s).1 ≠ Ret tt →
  same_views (world_at s (registry_of o))
             (world_at (exec o s) (registry_of o)) ∧
  in_order (exec o s) (registry_of o).
Proof.
  intros Hord Hnot Hfail. split.
  2:{ apply in_order_exec; [done|]. intros e r x ->. by destruct (Hnot e r x). }
  pose proof Hord as [Hg Hwf]. unfold exec, perform, attempt; simpl.
  destruct o as [l|l e|l e|[e l] c|[e l] c v|[e l] c|[e l]|[e l] t|[e l] t
                |[e l] r x|[e l] r x|l cs ts rs]; simpl in *.
  - destruct Hfail. by rewrite (bind_run _ _ _ _ _ (create_entity_run _ _)).
  - destruct (decide (e ∈ entities (world_at s l))) as [He|He].
    + destruct (delete_entity_ok s l e Hord He) as (s' & Hrun & _).
      destruct Hfail. by rewrite Hrun.
    + unfold delete_entity.
      rewrite (bind_raise _ _ _ _ _ (Entity_init_dead _ _ _ He)).
      apply same_views_refl.
  - rewrite bind_ret_snd, step_handle. apply same_views_refl.
  - rewrite bind_ret_snd. unfold Entity_getitem.
    destruct (dd_components_view l c s) as (d & s' & Hrun & _ & _ & Hv).
    rewrite (bind_run _ _ _ _ _ Hrun); simpl.
    by destruct (d !! e).
  - destruct (eid_comps (world_at s l) !! e) as [cs|] eqn:Hcs.
    + destruct (setitem_ok s l e c v) as (s' & Hrun & _); [eauto|].
      destruct Hfail. by rewrite Hrun.
    + unfold Entity_setitem, getattr_components. mrun. rewrite Hcs.
      apply same_views_refl.
  - destruct (decide (e ∈ component_holders (world_at s l) c)) as [Hin|Hin].
    + destruct (delitem_ok s l e c) as (s' & Hrun & _); [|done|].
      * apply wf_views in Hwf as (_ & Hc & _). by apply (Hc e c).
      * destruct Hfail. by rewrite Hrun.
    + by destruct (delitem_absent s l e c Hin) as (s' & -> & _ & Hv).
  - rewrite bind_ret_snd, step_len. apply same_views_refl.
  - destruct (eid_tags (world_at s l) !! e) as [ts|] eqn:Hts.
    + destruct Hfail. destruct (decide (t ∈ ts)) as [Ht|Ht].
      * unfold tag, getattr_tags. mrun. rewrite Hts. mrun.
        by rewrite decide_True.
      * by destruct (tag_ok s l e t ts) as (s' & -> & _).
    + unfold tag, getattr_tags. mrun. rewrite Hts. apply same_views_refl.
  - destruct (eid_tags (world_at s l) !! e) as [ts|] eqn:Hts.
    + destruct Hfail. destruct (decide (t ∈ ts)) as [Ht|Ht].
      * destruct (untag_ok s l e t) as (s' & -> & _); [| |done].
        -- apply elem_of_tags_of. eauto.
        -- by eapply wf_tag_holder.
      * unfold untag, getattr_tags. mrun. rewrite Hts. mrun.
        by rewrite decide_False.
    + unfold untag, getattr_tags. mrun. rewrite Hts. apply same_views_refl.
  - destruct (decide (x ∈ entities (world_at s l))) as [Hx|Hx].
    + destruct (eid_rels (world_at s l) !! e) as [rs|] eqn:Hrs.
      * destruct (relate_ok s l l e r x) as (s' & Hrun & _);
          [done | done | eauto | |].
        -- intros old Hold.
           apply wf_views in Hwf as (_ & _ & _ & Hr & _).
           by apply (Hr e r old).
        -- destruct Hfail. by rewrite Hrun.
      * unfold relate, dd_relations, getattr_relations. mrun.
        rewrite decide_True by done. mrun.
        destruct (relations (world_at s l) !! r) as [d|] eqn:Hd; mrun.
        -- rewrite Hrs. apply same_views_refl.
        -- rewrite Hrs. simpl. rewrite world_at_set_world.
           by apply same_views_touch_relations.
    + unfold relate. mrun. rewrite decide_False by done.
      apply same_views_refl.
  - by destruct (Hnot (mkEntity e l) r x).
  - rewrite bind_ret_snd. apply query_views.
Qed.

Lemma failures_leave_views_witness :
  same_views (world_at likes_store W0)
    (world_at (exec (OpDel (mkEntity 1 W0) ("mana", "int")%string)
                 likes_store) W0) ∧
  in_order (exec (OpDel (mkEntity 1 W0) ("mana", "int")%string) likes_store)
    W0.
Proof.
  apply (failures_leave_views (OpDel (mkEntity 1 W0) ("mana", "int")%string)
           likes_store).
  - by_evaluation.
  - discriminate.
  - intros H. vm_compute in H. discriminate H.
Defined.

(** * A run from an empty registry *)

Lemma in_order_reachable_witness :
  in_order
    (exec_all [OpCreate W0; OpCreate W0; OpSet (mkEntity 0 W0) hp (VInt 1);
               OpTag (mkEntity 1 W0) enemy; OpRelate (mkEntity 0 W0) "r" 1;
               OpGet (mkEntity 1 W0) hp; OpQuery W0 [] [enemy] [];
               OpUnrelate (mkEntity 0 W0) "r" 1; OpDelete W0 1;
               OpDelete W0 1]
       (fresh_store (Some W0))) W0.
Proof.
  apply in_order_reachable.
  - repeat constructor.
  - simpl. by split_and!.
Defined.

(** * Claims that fail outside a registry in order *)

(** C4 (code side): line 117 constructs the handles of the sources on
    the registry bound to the global name [world], not on [self], the
    registry line 105 uses.  Registry [1] satisfies the invariants, 0
    and 1 are live in it, and the current target of 0 for "likes" is
    1.  [delete_entity] of 1 on registry [1] returns, but the edge is
    still there: 0 is in the source set of 1, and 1, no longer live,
    is still its current target.  The edge that was removed is the one
    of registry [0]. *)
Theorem delete_entity_misses_own_edge :
  let s' := (delete_entity W1 1 twin_likes).2 in
  wf (world_at twin_likes W1) ∧
  (0 ∈ entities (world_at twin_likes W1)) ∧
  (1 ∈ entities (world_at twin_likes W1)) ∧
  current_target (world_at twin_likes W1) 0 "likes" = Some 1 ∧
  (delete_entity W1 1 twin_likes).1 = Ret tt ∧
  (0 ∈ sources (world_at s' W1) "likes" 1) ∧
  current_target (world_at s' W1) 0 "likes" = Some 1 ∧
  (1 ∉ entities (world_at s' W1)) ∧
  current_target (world_at s' W0) 0 "likes" = None ∧
  ¬ wf (world_at s' W1).
Proof. split_and!; by_evaluation. Qed.

(** C5 (code side): line 59 tests the target against the registry
    bound to the global name [world], not against [self.world].  In a
    registry that satisfies the invariants and has the entities 0, 1
    and 2, the first [relate] of 0 to 1 raises [NameError] and writes
    nothing, both when [world] denotes another registry, which has no
    entity, and when [world] is unbound, as the module leaves it. *)
Theorem relate_rejects_own_live_target :
  (wf (world_at three_in_second W1) ∧
   entities (world_at three_in_second W1) = {[0; 1; 2]} ∧
   relate (mkEntity 0 W1) "parent" 1 three_in_second
   = (Raise NameError, three_in_second)) ∧
  (wf (world_at three_unbound W0) ∧
   entities (world_at three_unbound W0) = {[0; 1; 2]} ∧
   relate (mkEntity 0 W0) "parent" 1 three_unbound
   = (Raise NameError, three_unbound)).
Proof. split_and!; by_evaluation. Qed.

(** C8 (code side): a live entity can be without its tag record.  In
    [two_edges], a registry in order, entity 0 is asked to drop an
    edge to 2 that it does not have: line 74 deletes its record and
    line 75 raises.  Then entity 1 is deleted: lines 112-114 delete
    its records, the [unrelate] of its source 0 raises at line 74, and
    line 119 is not reached.  Entity 1 is still live and a handle for
    it is constructed, it has no tag, and [untag] of a tag it does not
    have raises [KeyError] where the claim has a no-op. *)
Theorem untag_raises_on_live_entity :
  in_order two_edges W0 ∧
  (call (OpUnrelate (mkEntity 0 W0) "r" 2) two_edges).1 = Raise KeyError ∧
  (call (OpDelete W0 1) (exec (OpUnrelate (mkEntity 0 W0) "r" 2) two_edges)).1
  = Raise KeyError ∧
  (1 ∈ entities (world_at after_failed_delete W0)) ∧
  Entity_init 1 W0 after_failed_delete
  = (Ret (mkEntity 1 W0), after_failed_delete) ∧
  tags_of (world_at after_failed_delete W0) 1 = ∅ ∧
  eid_tags (world_at after_failed_delete W0) !! 1 = None ∧
  untag (mkEntity 1 W0) enemy after_failed_delete
  = (Raise KeyError, after_failed_delete).
Proof. split_and!; by_evaluation. Qed.
